(** * fetch-stations.js: the resumable, budget-bounded station harvester

    A shallow embedding of [src/fetch-stations.js] and the properties of its
    collection state machine: per-station fetch state, the bounded work loop,
    checkpointing, history selection and rotation, and the exit status.

    Conventions of the embedding.
    - The JavaScript arrays of station objects are lists of records; an
      in-place update [stations[i].f = v] is a list update at index [i], and
      the functions that mutate their argument return the new array.
    - JavaScript numbers that hold counters, identifiers and epoch
      milliseconds are mathematical integers ([nat] or [Z]); coordinates,
      percentages and day counts are exact rationals ([Q]); [NaN] is [None].
    - The file system is a pair of finite maps from file names to contents
      (the [state/] and [output/] directories) and the optional top-level
      [stations.json]; a file holds the value that was serialised into it,
      since [JSON.stringify] is a function of that value.
    - What the remote service sends is typed: an [id] is a number, a string
      or absent, a text property is a string or [null], a coordinate is a
      number or absent, [sockets] is an array of socket objects or absent.
    - The network, the clock and the locale-dependent text functions are
      parameters ([env], [text_ops]). *)

From Stdlib Require Import ZArith QArith Lia List Bool Ascii String DecimalString.
From Corelib Require Import PrimFloat.
From stdpp Require Import base option list sorting gmap strings fin_maps.

Import ListNotations.
Local Open Scope Z_scope.
Local Set Warnings "-register-all".

(** ** JavaScript values that the script inspects dynamically *)

(** The [id] property of a listed station, of a detail payload or of a
    socket: a number, a string, or absent. *)
Inductive js_id :=
  | IdUndefined
  | IdNum (n : Z)
  | IdStr (s : string).

Global Instance js_id_eq_dec : EqDecision js_id.
Proof. solve_decision. Defined.

(** [!v] is false exactly on truthy values: [0], the empty string and
    [undefined] are falsy. *)
Definition truthy (v : js_id) : bool :=
  match v with
  | IdUndefined => false
  | IdNum n => negb (n =? 0)
  | IdStr s => negb (String.eqb s "")
  end.

(** [typeof v === 'number' ? v : -Infinity], with [None] for [-Infinity]. *)
Definition number_or_neg_infinity (v : js_id) : option Z :=
  match v with
  | IdNum n => Some n
  | _ => None
  end.

(** *** [parseInt(v, 10)] *)

Definition digit_of_ascii (c : ascii) : option Z :=
  let n := Z.of_nat (nat_of_ascii c) in
  if (48 <=? n) && (n <=? 57) then Some (n - 48) else None.

(** The white space of the ASCII range. *)
Definition is_white_space (c : ascii) : bool :=
  let n := nat_of_ascii c in
  (Nat.eqb n 9 || Nat.eqb n 10 || Nat.eqb n 11 || Nat.eqb n 12
   || Nat.eqb n 13 || Nat.eqb n 32)%bool.

Fixpoint skip_white_space (s : string) : string :=
  match s with
  | String c s' => if is_white_space c then skip_white_space s' else s
  | EmptyString => s
  end.

(** The value of the longest prefix of decimal digits, continuing from the
    accumulator [acc]; [seen] records whether a digit was read. *)
Fixpoint parse_digits (s : string) (seen : bool) (acc : Z) : option Z :=
  match s with
  | String c s' =>
      match digit_of_ascii c with
      | Some d => parse_digits s' true (10 * acc + d)
      | None => if seen then Some acc else None
      end
  | EmptyString => if seen then Some acc else None
  end.

Definition parseInt_string (s : string) : option Z :=
  match skip_white_space s with
  | String "-" s' => option_map Z.opp (parse_digits s' false 0)
  | String "+" s' => parse_digits s' false 0
  | s' => parse_digits s' false 0
  end.

(** [parseInt(v, 10)]: [None] is [NaN].  A number is converted to its
    decimal string first, which for the integers modelled here reads back
    as the same integer. *)
Definition parseInt (v : js_id) : option Z :=
  match v with
  | IdUndefined => None
  | IdNum n => Some n
  | IdStr s => parseInt_string s
  end.

(** A coordinate or a power rating as the remote service sends it: a number
    or nothing. [parseFloat] of it is the number itself, [NaN] otherwise. *)
Definition js_number := option Q.

Definition parseFloat (v : js_number) : option Q := v.

(** ** JSON values written to the output artifact

    An object is the list of its properties in insertion order, which is the
    order [JSON.stringify] prints them in. *)
Inductive json :=
  | JNull
  | JInt (n : Z)
  | JNum (q : Q)
  | JStr (s : string)
  | JArr (l : list json)
  | JObj (fields : list (string * json)).

Definition json_of_number (v : option Q) : json :=
  match v with
  | Some q => JNum q
  | None => JNull
  end.

Definition json_of_string (v : option string) : json :=
  match v with
  | Some s => JStr s
  | None => JNull
  end.

Fixpoint assoc_get (k : string) (fs : list (string * json)) : option json :=
  match fs with
  | [] => None
  | (k', v) :: fs' => if String.eqb k k' then Some v else assoc_get k fs'
  end.

(** [o.k = v]: an existing property keeps its place, a new one goes last. *)
Fixpoint assoc_set (k : string) (v : json) (fs : list (string * json))
  : list (string * json) :=
  match fs with
  | [] => [(k, v)]
  | (k', v') :: fs' =>
      if String.eqb k k' then (k, v) :: fs' else (k', v') :: assoc_set k v fs'
  end.

Definition get_field (k : string) (o : json) : option json :=
  match o with
  | JObj fs => assoc_get k fs
  | _ => None
  end.

Definition set_field (k : string) (v : json) (o : json) : json :=
  match o with
  | JObj fs => JObj (assoc_set k v fs)
  | _ => o
  end.

Definition field_names (o : json) : list string :=
  match o with
  | JObj fs => map fst fs
  | _ => []
  end.

(** The numeric [id] of an output record, for the comparators. *)
Definition json_id (o : json) : option Z :=
  match get_field "id" o with
  | Some (JInt n) => Some n
  | _ => None
  end.

(** ** [Array.prototype.sort]

    The sort is stable; [lt a b] says that the comparator is negative on
    [(a, b)]. *)
Section ArraySort.
Context {A : Type} (lt : A → A → bool).

Fixpoint sort_insert (x : A) (l : list A) : list A :=
    match l with
    | [] => [x]
    | y :: l' => if lt y x then y :: sort_insert x l' else x :: y :: l'
    end.

Definition Array_sort (l : list A) : list A := foldr sort_insert [] l.

  (** [a] may stand before [b]: the comparator is not negative on [(b, a)]. *)
Definition in_order (a b : A) : Prop := lt b a = false.
End ArraySort.

(** The comparator [(a, b) => idA - idB] over keys where [None] stands for
    [-Infinity]: the difference of two [-Infinity] is [NaN], which [sort]
    treats as [0]. *)
Definition key_lt (a b : option Z) : bool :=
  match a, b with
  | None, Some _ => true
  | Some x, Some y => x <? y
  | _, None => false
  end.

(** ** Time: the [Date] operations of the language runtime

    A [Date] is its time value, the milliseconds since the epoch.  The
    definitions are the abstract operations of ECMA-262 (Day, DayFromYear,
    YearFromTime, MonthFromTime, DateFromTime, MakeDay, MakeTime, MakeDate). *)

Definition msPerDay : Z := 86400000.
Definition msPerHour : Z := 3600000.
Definition msPerMinute : Z := 60000.
Definition msPerSecond : Z := 1000.

Definition Day (t : Z) : Z := t / msPerDay.
Definition TimeWithinDay (t : Z) : Z := t mod msPerDay.

Definition DayFromYear (y : Z) : Z :=
  365 * (y - 1970) + (y - 1969) / 4 - (y - 1901) / 100 + (y - 1601) / 400.

Definition DaysInYear (y : Z) : Z := DayFromYear (y + 1) - DayFromYear y.

(** The largest [y] with [DayFromYear y <= d]: the estimate from the mean
    length of a year is off by at most one. *)
Definition YearFromDay (d : Z) : Z :=
  let y := 1970 + (400 * d) / 146097 in
  if DayFromYear (y + 1) <=? d then y + 1
  else if DayFromYear y <=? d then y
  else y - 1.

Definition YearFromTime (t : Z) : Z := YearFromDay (Day t).
Definition InLeapYear (t : Z) : Z := DaysInYear (YearFromTime t) - 365.
Definition DayWithinYear (t : Z) : Z := Day t - DayFromYear (YearFromTime t).

(** The day within the year on which month [m] (0 to 11) starts. *)
Definition month_start (leap m : Z) : Z :=
  match m with
  | 0 => 0
  | 1 => 31
  | 2 => 59 + leap
  | 3 => 90 + leap
  | 4 => 120 + leap
  | 5 => 151 + leap
  | 6 => 181 + leap
  | 7 => 212 + leap
  | 8 => 243 + leap
  | 9 => 273 + leap
  | 10 => 304 + leap
  | 11 => 334 + leap
  | _ => 365 + leap
  end.

Definition MonthFromTime (t : Z) : Z :=
  let d := DayWithinYear t in
  let leap := InLeapYear t in
  if d <? 31 then 0
  else if d <? 59 + leap then 1
  else if d <? 90 + leap then 2
  else if d <? 120 + leap then 3
  else if d <? 151 + leap then 4
  else if d <? 181 + leap then 5
  else if d <? 212 + leap then 6
  else if d <? 243 + leap then 7
  else if d <? 273 + leap then 8
  else if d <? 304 + leap then 9
  else if d <? 334 + leap then 10
  else 11.

Definition DateFromTime (t : Z) : Z :=
  DayWithinYear t - month_start (InLeapYear t) (MonthFromTime t) + 1.

Definition HourFromTime (t : Z) : Z := (t / msPerHour) mod 24.
Definition MinFromTime (t : Z) : Z := (t / msPerMinute) mod 60.
Definition SecFromTime (t : Z) : Z := (t / msPerSecond) mod 60.

Definition MakeTime (hour min sec ms : Z) : Z :=
  hour * msPerHour + min * msPerMinute + sec * msPerSecond + ms.

(** [MakeDay year month date], [month] counted from 0. *)
Definition MakeDay (year month date : Z) : Z :=
  let ym := year + month / 12 in
  let mn := month mod 12 in
  DayFromYear ym + month_start (DaysInYear ym - 365) mn + date - 1.

Definition MakeDate (day time : Z) : Z := day * msPerDay + time.

(** *** Decimal text *)

(** [String(n)] for an integer. *)
Definition String_of_number (n : Z) : string :=
  NilZero.string_of_int (Z.to_int n).

Fixpoint repeat_char (c : ascii) (n : nat) : string :=
  match n with
  | O => EmptyString
  | S n' => String c (repeat_char c n')
  end.

Definition padStart (target : nat) (c : ascii) (s : string) : string :=
  repeat_char c (target - String.length s) +:+ s.

(** [s.substring(i, j)] for [i <= j]. *)
Definition substring (i j : nat) (s : string) : string :=
  String.substring i (j - i) s.

Definition startsWith (p s : string) : bool := String.prefix p s.

Definition endsWith (p s : string) : bool :=
  (String.length p <=? String.length s)%nat
  && String.eqb (String.substring (String.length s - String.length p)
                   (String.length p) s) p.

(** *** Parsing the date-time format [YYYY-MM-DDTHH:mm:ssZ]

    [new Date(isoStr)] as the V8 parser of the Node runtime reads a string of
    this shape: the month is 01 to 12, the day 01 to 31, the hour 00 to 23
    (or 24:00:00), minutes and seconds 00 to 59; the result of any other
    string is taken to be an invalid date. *)
Fixpoint digits_value (s : string) (acc : Z) : option Z :=
  match s with
  | EmptyString => Some acc
  | String c s' =>
      match digit_of_ascii c with
      | Some d => digits_value s' (10 * acc + d)
      | None => None
      end
  end.

Definition fixed_digits (i j : nat) (s : string) : option Z :=
  if Nat.eqb (String.length (substring i j s)) (j - i)
  then digits_value (substring i j s) 0
  else None.

Definition char_is (i : nat) (c : ascii) (s : string) : bool :=
  match String.get i s with
  | Some c' => Ascii.eqb c c'
  | None => false
  end.

Definition Date_of_iso_string (s : string) : option Z :=
  if Nat.eqb (String.length s) 20
     && char_is 4 "-" s && char_is 7 "-" s && char_is 10 "T" s
     && char_is 13 ":" s && char_is 16 ":" s && char_is 19 "Z" s
  then
    year ← fixed_digits 0 4 s;
    month ← fixed_digits 5 7 s;
    day ← fixed_digits 8 10 s;
    hour ← fixed_digits 11 13 s;
    minute ← fixed_digits 14 16 s;
    second ← fixed_digits 17 19 s;
    if (1 <=? month) && (month <=? 12) && (1 <=? day) && (day <=? 31)
       && (minute <=? 59) && (second <=? 59)
       && ((hour <=? 23) || ((hour =? 24) && (minute =? 0) && (second =? 0)))
    then Some (MakeDate (MakeDay year (month - 1) day)
                        (MakeTime hour minute second 0))
    else None
  else None.

(** ** Run file names and their timestamps *)

Definition STATE_FILENAME_PREFIX : string := "data_".
Definition OUTPUT_FILENAME_PREFIX : string := "stations_".
Definition FILENAME_SUFFIX : string := ".json".

(** [generateTimestamp()], with [now] the instant [new Date()] returns. *)
Definition generateTimestamp (now : Z) : string :=
  let year := String_of_number (YearFromTime now) in
  let month := padStart 2 "0" (String_of_number (MonthFromTime now + 1)) in
  let day := padStart 2 "0" (String_of_number (DateFromTime now)) in
  let hours := padStart 2 "0" (String_of_number (HourFromTime now)) in
  let minutes := padStart 2 "0" (String_of_number (MinFromTime now)) in
  let seconds := padStart 2 "0" (String_of_number (SecFromTime now)) in
  year +:+ month +:+ day +:+ "T" +:+ hours +:+ minutes +:+ seconds +:+ "Z".

(** [path.basename(filename, suffix)] on a name without directory part. *)
Definition basename (filename suffix : string) : string :=
  if endsWith suffix filename && negb (String.eqb filename suffix)
  then String.substring 0 (String.length filename - String.length suffix) filename
  else filename.

Definition getTimestampFromFilename (filename : string) : option string :=
  let baseName := basename filename FILENAME_SUFFIX in
  if startsWith STATE_FILENAME_PREFIX baseName then
    Some (substring (String.length STATE_FILENAME_PREFIX)
            (String.length baseName) baseName)
  else if startsWith OUTPUT_FILENAME_PREFIX baseName then
    Some (substring (String.length OUTPUT_FILENAME_PREFIX)
            (String.length baseName) baseName)
  else None.

Definition parseTimestamp (timestampStr : option string) : option Z :=
  match timestampStr with
  | None => None
  | Some ts =>
      if negb (Nat.eqb (String.length ts) 16)
         || negb (char_is 8 "T" ts) || negb (char_is 15 "Z" ts)
      then None
      else
        let year := substring 0 4 ts in
        let month := substring 4 6 ts in
        let day := substring 6 8 ts in
        let hours := substring 9 11 ts in
        let minutes := substring 11 13 ts in
        let seconds := substring 13 15 ts in
        let isoStr := year +:+ "-" +:+ month +:+ "-" +:+ day +:+ "T"
                      +:+ hours +:+ ":" +:+ minutes +:+ ":" +:+ seconds +:+ "Z" in
        Date_of_iso_string isoStr
  end.

(** ** Configuration

    The constants at the top of the script. *)
Record config := {
  MAX_HISTORY_FILES : nat;
  MIN_INTERVAL_DAYS_IF_COMPLETE : Q;
  MAX_REQUESTS_PER_RUN : nat;
  MAX_RUN_MINUTES : Z;
  MAX_RETRIES : nat;
  PERMANENT_FAILURE_THRESHOLD_PERCENT : Q;
}.

Definition default_config : config := {|
  MAX_HISTORY_FILES := 10;
  MIN_INTERVAL_DAYS_IF_COMPLETE := 7;
  MAX_REQUESTS_PER_RUN := 1000;
  MAX_RUN_MINUTES := 15;
  MAX_RETRIES := 5;
  PERMANENT_FAILURE_THRESHOLD_PERCENT := 1;
|}.

Definition MAX_DURATION_MS (cfg : config) : Z := MAX_RUN_MINUTES cfg * 60 * 1000.

(** [a > b] and [a < b] on rationals. *)
Definition Qgtb (a b : Q) : bool := negb (Qle_bool a b).
Definition Qltb (a b : Q) : bool := negb (Qle_bool b a).

(** The text functions of the runtime that depend on Unicode and on the
    Turkish locale: [String.prototype.trim], [toLowerCase], and the bodies of
    [toTitleCase] and [toLowerCamelCase] past their guard. *)
Record text_ops := {
  str_trim : string → string;
  str_toLowerCase : string → string;
  str_titleCase : string → string;
  str_lowerCamelCase : string → string;
}.

(** ** Stations *)

Inductive fetch_status := pending | success | failed.

Global Instance fetch_status_eq_dec : EqDecision fetch_status.
Proof. solve_decision. Defined.

(** A socket of the listing: [{ id }]. *)
Record listing_socket := { ls_id : js_id }.

(** A socket of a detail payload. *)
Record raw_socket := {
  rs_id : js_id;
  rs_type : option string;
  rs_subType : option string;
  rs_socketNumber : option string;
  rs_power : js_number;
}.

(** A detail payload, the object the detail request answers with. *)
Record raw_detail := {
  d_id : js_id;
  d_lat : js_number;
  d_lng : js_number;
  d_title : option string;
  d_address : option string;
  d_phone : option string;
  d_reportUrl : option string;
  d_reservationUrl : option string;
  d_operatorid : option string;
  d_operatortitle : option string;
  d_serviceType : option string;
  d_brand : option string;
  d_cityid : option string;
  d_districtid : option string;
  d_sockets : option (list raw_socket);
}.

(** An entry of the listing as the remote service sends it. *)
Record listed_station := {
  l_id : js_id;
  l_lat : js_number;
  l_lng : js_number;
  l_sockets : option (list listing_socket);
}.

(** An entry of the state array. [lastAttemptTimestamp] holds the instant
    whose ISO rendering the script stores. *)
Record station := {
  st_id : js_id;
  st_lat : js_number;
  st_lng : js_number;
  st_sockets : list listing_socket;
  fetchStatus : fetch_status;
  fetchAttempts : nat;
  lastAttemptTimestamp : option Z;
  details : option raw_detail;
  errorInfo : option string;
}.

(** [sortStationsById] on the state array and on the output array. *)
Definition station_lt (a b : station) : bool :=
  key_lt (number_or_neg_infinity (st_id a)) (number_or_neg_infinity (st_id b)).

Definition sortStationsById (stations : list station) : list station :=
  Array_sort station_lt stations.

Definition output_lt (a b : json) : bool := key_lt (json_id a) (json_id b).

Definition sortOutputById (stations : list json) : list json :=
  Array_sort output_lt stations.

(** ** Normalisation *)
Section Normalize.
Context (txt : text_ops).

  (** [v || null] on an optional string. *)
Definition or_null (v : option string) : option string :=
    match v with
    | Some s => if String.eqb s "" then None else Some s
    | None => None
    end.

  (** [v?.trim()] *)
Definition opt_trim (v : option string) : option string :=
    str_trim txt <$> v.

Definition toTitleCase (str : option string) : option string :=
    match or_null str with
    | None => None
    | Some s => Some (str_titleCase txt s)
    end.

Definition toLowerCamelCase (str : option string) : option string :=
    match or_null str with
    | None => None
    | Some s => Some (str_lowerCamelCase txt s)
    end.

Definition json_of_parsed_int (v : option Z) : json :=
    match v with
    | Some n => JInt n
    | None => JNull
    end.

  (** The comparator [(a, b) => a.id - b.id] of the socket sorts; on an id
      that is [NaN] the difference is [NaN], which [sort] treats as [0]. *)
Definition socket_lt (a b : json) : bool :=
    match json_id a, json_id b with
    | Some x, Some y => x <? y
    | _, _ => false
    end.

Definition normalizeSocket (socket : raw_socket) : option json :=
    if negb (truthy (rs_id socket)) then None
    else Some (JObj [
      ("id", json_of_parsed_int (parseInt (rs_id socket)));
      ("type", json_of_string
                 (or_null (opt_trim (str_toLowerCase txt <$> rs_type socket))));
      ("subType", json_of_string (toLowerCamelCase (opt_trim (rs_subType socket))));
      ("socketNumber", json_of_string (or_null (opt_trim (rs_socketNumber socket))));
      ("power", json_of_number (parseFloat (rs_power socket)))
    ]).

Definition normalizeServiceType (v : option string) : option string :=
    let serviceTypeLower := opt_trim (str_toLowerCase txt <$> v) in
    match serviceTypeLower with
    | Some s => if String.eqb s "halka_acik" then Some "public"
                else or_null serviceTypeLower
    | None => None
    end.

  (** [normalizeStationData(station)] on a detail payload; [None] is the
      [null] it returns for a payload without a usable [id]. *)
Definition normalizeStationData (station : raw_detail) : option json :=
    if negb (truthy (d_id station)) then None
    else Some (JObj [
      ("id", json_of_parsed_int (parseInt (d_id station)));
      ("lat", json_of_number (parseFloat (d_lat station)));
      ("lng", json_of_number (parseFloat (d_lng station)));
      ("title", json_of_string (toTitleCase (opt_trim (d_title station))));
      ("address", json_of_string (toTitleCase (opt_trim (d_address station))));
      ("phone", json_of_string (or_null (opt_trim (d_phone station))));
      ("reportUrl", json_of_string (or_null (opt_trim (d_reportUrl station))));
      ("reservationUrl",
        json_of_string (or_null (opt_trim (d_reservationUrl station))));
      ("operatorId", json_of_string (or_null (d_operatorid station)));
      ("operatorTitle",
        json_of_string (toTitleCase (opt_trim (d_operatortitle station))));
      ("serviceType", json_of_string (normalizeServiceType (d_serviceType station)));
      ("brand", json_of_string (or_null (opt_trim (d_brand station))));
      ("cityId", json_of_string (or_null (d_cityid station)));
      ("districtId", json_of_string (or_null (d_districtid station)));
      ("sockets",
        JArr (match d_sockets station with
              | Some sockets => Array_sort socket_lt (omap normalizeSocket sockets)
              | None => []
              end))
    ]).

  (** The sockets of the basic record: [{ id }] for every listed socket
      whose id parses, sorted by id. *)
Definition basicSockets (sockets : list listing_socket) : list json :=
    Array_sort socket_lt
      (omap (λ s, match parseInt (ls_id s) with
                  | Some socketId => Some (JObj [("id", JInt socketId)])
                  | None => None
                  end) sockets).

  (** The body of the [map] callback of [createCleanedOutputData]; [None] is
      the [null] that the final [filter] removes. *)
Definition cleanStation (station : station) : option json :=
    match parseInt (st_id station) with
    | None => None
    | Some baseId =>
        let baseLat := parseFloat (st_lat station) in
        let baseLng := parseFloat (st_lng station) in
        let outputStation :=
          match fetchStatus station, details station with
          | success, Some d => normalizeStationData d
          | _, _ =>
              Some (JObj [
                ("id", JInt baseId);
                ("lat", json_of_number baseLat);
                ("lng", json_of_number baseLng);
                ("title", JNull);
                ("address", JNull);
                ("phone", JNull);
                ("reportUrl", JNull);
                ("reservationUrl", JNull);
                ("operatorId", JNull);
                ("operatorTitle", JNull);
                ("serviceType", JNull);
                ("brand", JNull);
                ("cityId", JNull);
                ("districtId", JNull);
                ("sockets", JArr (basicSockets (st_sockets station)))
              ])
          end in
        match outputStation with
        | Some o => Some (set_field "id" (JInt baseId) o)
        | None =>
            Some (JObj [
              ("id", JInt baseId);
              ("lat", json_of_number baseLat);
              ("lng", json_of_number baseLng);
              ("sockets", JArr [])
            ])
        end
    end.

Definition createCleanedOutputData (state : list station) : list json :=
    omap cleanStation state.
End Normalize.

(** ** Completion and permanent failure *)
Section Completion.
Context (cfg : config).

  (** The predicate both [isStateComplete] and [processStations] test:
      pending, or failed with retries left. *)
Definition needsFetch (s : station) : bool :=
    bool_decide (fetchStatus s = pending)
    || (bool_decide (fetchStatus s = failed)
        && (fetchAttempts s <? MAX_RETRIES cfg)%nat).

Definition permanentlyFailed (s : station) : bool :=
    bool_decide (fetchStatus s = failed)
    && (MAX_RETRIES cfg <=? fetchAttempts s)%nat.

Definition isStateComplete (stations : list station) : bool :=
    negb (existsb needsFetch stations).

Definition hasPermanentlyFailedStations (stations : list station) : bool :=
    existsb permanentlyFailed stations.

Definition countPermanentlyFailedStations (stations : list station) : nat :=
    length (filter (λ s, permanentlyFailed s = true) stations).

  (** [totalCount > 0 ? (permFailedCount / totalCount) * 100 : 0] *)
Definition failedPercent (permFailedCount totalCount : nat) : Q :=
    if (0 <? totalCount)%nat
    then (inject_Z (Z.of_nat permFailedCount) / inject_Z (Z.of_nat totalCount)) * 100
    else 0.
End Completion.

(** The same percentage as the runtime computes it, in binary64. *)
Definition failedPercent_binary64 (permFailedCount totalCount : float) : float :=
  if PrimFloat.ltb 0 totalCount
  then (permFailedCount / totalCount * 100)%float
  else 0%float.

(** ** The file system and the outside world *)

(** What [JSON.parse] makes of a state file: not an array (or not JSON at
    all), or the array of stations. *)
Inductive state_file :=
  | Unparseable
  | StateArray (stations : list station).

Record world := {
  state_dir : gmap string state_file;
  output_dir : gmap string (list json);
  latest_output : option (list json);
}.

(** What a detail request ends in: a failure before a body is available
    (time-out, network error, non-2xx status, malformed JSON), with the
    error text the script derives from it, or a parsed body, [None] when the
    body is not an object. *)
Inductive detail_response :=
  | RespFailure (error : string)
  | RespBody (body : option raw_detail).

(** The environment of one invocation: the clock readings and the answers
    of the remote service.  The readings in the loop are indexed by the
    position of the station in the batch. *)
Record env := {
  scriptStartTime : Z;
  now_at_staleness_check : Z;
  now_at_new_run : Z;
  now_at_time_check : nat → Z;
  now_after_fetch : nat → Z;
  listing_response : option (list listed_station);
  detail_responses : nat → js_id → detail_response;
}.

(** [a.localeCompare(b)].  On the names the script generates (a fixed prefix,
    sixteen characters of digits with [T] and [Z] at fixed places, a fixed
    suffix) the collation order is the order of the character codes. *)
Definition localeCompare (a b : string) : comparison := String.compare a b.

(** [readdir(STATE_DIR)], filtered and sorted latest first by
    [(a, b) => b.localeCompare(a)]. *)
Definition isStateFilename (f : string) : bool :=
  startsWith STATE_FILENAME_PREFIX f && endsWith FILENAME_SUFFIX f.

Definition descending (a b : string) : bool :=
  match localeCompare b a with
  | Lt => true
  | _ => false
  end.

Definition listStateFiles (w : world) : list string :=
  Array_sort descending
    (filter (λ f, isStateFilename f = true) (map fst (map_to_list (state_dir w)))).

(** The template literal [`${v}`] of a value that may be [null]. *)
Definition template_string (v : option string) : string := default "null" v.

Definition outputFilename (timestamp : option string) : string :=
  OUTPUT_FILENAME_PREFIX +:+ template_string timestamp +:+ FILENAME_SUFFIX.

Definition stateFilename (timestamp : string) : string :=
  STATE_FILENAME_PREFIX +:+ timestamp +:+ FILENAME_SUFFIX.

Definition String_of_id (v : js_id) : string :=
  match v with
  | IdUndefined => "undefined"
  | IdNum n => String_of_number n
  | IdStr s => s
  end.

(** The result object of [fetchStationDetails]. *)
Record fetch_result := {
  fr_success : bool;
  fr_details : option raw_detail;
  fr_error : option string;
}.

Section Script.
Context (cfg : config) (txt : text_ops).

  (** *** Checkpoints *)

Definition loadState (stateFilePath : string) (w : world) : option (list station) :=
    match state_dir w !! stateFilePath with
    | None => None
    | Some Unparseable => None
    | Some (StateArray stations) => Some (sortStationsById stations)
    end.

Definition saveFinalOutput (finalStations : list json) (outputPath : string)
      (w : world) : world :=
    {| state_dir := state_dir w;
       output_dir := <[outputPath := sortOutputById finalStations]> (output_dir w);
       latest_output := latest_output w |}.

  (** [saveState] sorts the array it is given in place; the sorted array is
      returned with the new file system. *)
Definition saveState (state : list station) (stateFilePath outputFilePath : string)
      (w : world) : list station * world :=
    let state := sortStationsById state in
    let w := {| state_dir := <[stateFilePath := StateArray state]> (state_dir w);
                output_dir := output_dir w;
                latest_output := latest_output w |} in
    let finalStations := createCleanedOutputData txt state in
    (state, saveFinalOutput finalStations outputFilePath w).

  (** *** Requests *)

Definition listed_lt (a b : listed_station) : bool :=
    key_lt (number_or_neg_infinity (l_id a)) (number_or_neg_infinity (l_id b)).

  (** [fetchStationList()]; [None] when it throws. *)
Definition fetchStationList (e : env) : option (list station) :=
    match listing_response e with
    | None => None
    | Some stations =>
        Some (map (λ station,
                {| st_id := l_id station;
                   st_lat := l_lat station;
                   st_lng := l_lng station;
                   st_sockets := default [] (l_sockets station);
                   fetchStatus := pending;
                   fetchAttempts := 0;
                   lastAttemptTimestamp := None;
                   details := None;
                   errorInfo := None |})
              (Array_sort listed_lt stations))
    end.

  (** [fetchStationDetails(station)] for the request at position [i]. *)
Definition fetchStationDetails (e : env) (i : nat) (station : station)
      : fetch_result :=
    match detail_responses e i (st_id station) with
    | RespFailure error =>
        {| fr_success := false; fr_details := None; fr_error := Some error |}
    | RespBody (Some d) =>
        if truthy (d_id d)
        then {| fr_success := true; fr_details := Some d; fr_error := None |}
        else {| fr_success := false; fr_details := None;
                fr_error := Some ("Failed to parse or invalid JSON response for station "
                                  +:+ String_of_id (st_id station)
                                  +:+ ": Invalid JSON structure received for station "
                                  +:+ String_of_id (st_id station) +:+ " details.") |}
    | RespBody None =>
        {| fr_success := false; fr_details := None;
           fr_error := Some ("Failed to parse or invalid JSON response for station "
                             +:+ String_of_id (st_id station)
                             +:+ ": Invalid JSON structure received for station "
                             +:+ String_of_id (st_id station) +:+ " details.") |}
    end.

  (** *** The work loop *)

  (** The update of [stations[stationIndex]] after an attempt that ended at
      [now] with [result]. *)
Definition recordAttempt (now : Z) (result : fetch_result) (s : station) : station :=
    if fr_success result then
      {| st_id := st_id s; st_lat := st_lat s; st_lng := st_lng s;
         st_sockets := st_sockets s;
         fetchStatus := success;
         fetchAttempts := fetchAttempts s + 1;
         lastAttemptTimestamp := Some now;
         details := fr_details result;
         errorInfo := None |}
    else
      {| st_id := st_id s; st_lat := st_lat s; st_lng := st_lng s;
         st_sockets := st_sockets s;
         fetchStatus := failed;
         fetchAttempts := fetchAttempts s + 1;
         lastAttemptTimestamp := Some now;
         details := details s;
         errorInfo := fr_error result |}.

  (** [stations.findIndex(s => s && s.id === id)] *)
Fixpoint findIndex (id : js_id) (stations : list station) : option nat :=
    match stations with
    | [] => None
    | s :: rest =>
        if bool_decide (st_id s = id) then Some 0%nat
        else S <$> findIndex id rest
    end.

  (** The state of the loop: the array, the file system, the counter
      [processedCount], and the stations a request was sent for (each one is
      announced on the console). *)
Record loop_state := {
    lp_stations : list station;
    lp_world : world;
    lp_processedCount : nat;
    lp_requested : list station;
  }.

  (** The loop over [stationsToProcess], from position [i] on; [batch] is
      [stationsToProcess.length].  An element of [stationsToProcess] is an
      object of the array [stations]; the loop reads its [id] only. *)
Fixpoint processLoop (e : env) (stateFilePath outputFilePath : string)
      (batch : nat) (stationsToProcess : list station) (i : nat)
      (st : loop_state) : loop_state :=
    match stationsToProcess with
    | [] => st
    | station :: rest =>
        let elapsedTime := now_at_time_check e i - scriptStartTime e in
        if MAX_DURATION_MS cfg <=? elapsedTime then st
        else if negb (truthy (st_id station)) then
          processLoop e stateFilePath outputFilePath batch rest (S i)
            {| lp_stations := lp_stations st; lp_world := lp_world st;
               lp_processedCount := S (lp_processedCount st);
               lp_requested := lp_requested st |}
        else
          match findIndex (st_id station) (lp_stations st) with
          | None =>
              processLoop e stateFilePath outputFilePath batch rest (S i)
                {| lp_stations := lp_stations st; lp_world := lp_world st;
                   lp_processedCount := S (lp_processedCount st);
                   lp_requested := lp_requested st |}
          | Some stationIndex =>
              let result := fetchStationDetails e i station in
              let stations :=
                alter (recordAttempt (now_after_fetch e i) result) stationIndex
                  (lp_stations st) in
              let processedCount := S (lp_processedCount st) in
              let '(stations, w) :=
                if (processedCount mod 10 =? 0)%nat || (processedCount =? batch)%nat
                then saveState stations stateFilePath outputFilePath (lp_world st)
                else (stations, lp_world st) in
              processLoop e stateFilePath outputFilePath batch rest (S i)
                {| lp_stations := stations; lp_world := w;
                   lp_processedCount := processedCount;
                   lp_requested := lp_requested st ++ [station] |}
          end
    end.

Definition processStations (e : env) (stations : list station)
      (stateFilePath outputFilePath : string) (w : world) : loop_state :=
    let stationsToProcess :=
      take (MAX_REQUESTS_PER_RUN cfg) (filter (λ s, needsFetch cfg s = true) stations) in
    match stationsToProcess with
    | [] =>
        let '(stations, w) := saveState stations stateFilePath outputFilePath w in
        {| lp_stations := stations; lp_world := w;
           lp_processedCount := 0; lp_requested := [] |}
    | _ =>
        let st := processLoop e stateFilePath outputFilePath
                    (length stationsToProcess) stationsToProcess 0
                    {| lp_stations := stations; lp_world := w;
                       lp_processedCount := 0; lp_requested := [] |} in
        let '(stations, w) :=
          saveState (lp_stations st) stateFilePath outputFilePath (lp_world st) in
        {| lp_stations := stations; lp_world := w;
           lp_processedCount := lp_processedCount st;
           lp_requested := lp_requested st |}
    end.

  (** *** Rotation and publication *)

  (** The body of the loop of [cleanupOldFiles] for one old state file. *)
Definition deleteRun (w : world) (stateFilename : string) : world :=
    match getTimestampFromFilename stateFilename with
    | None => w
    | Some timestamp =>
        if String.eqb timestamp "" then w
        else
          {| state_dir := delete stateFilename (state_dir w);
             output_dir := delete (outputFilename (Some timestamp)) (output_dir w);
             latest_output := latest_output w |}
    end.

Definition cleanupOldFiles (w : world) : world :=
    let stateFiles := listStateFiles w in
    if (MAX_HISTORY_FILES cfg <? length stateFiles)%nat
    then foldl deleteRun w (drop (MAX_HISTORY_FILES cfg) stateFiles)
    else w.

  (** The test of the search loop of [updateLatestCompleteOutput] on one
      state file: it loads, is complete, and its permanent failures are
      within the threshold. *)
Definition usableCompleteState (w : world) (stateFilename : string) : bool :=
    match loadState stateFilename w with
    | None => false
    | Some stations =>
        let totalCount := length stations in
        let permFailedCount := countPermanentlyFailedStations cfg stations in
        let permFailedPercent := failedPercent permFailedCount totalCount in
        isStateComplete cfg stations
        && Qle_bool permFailedPercent (PERMANENT_FAILURE_THRESHOLD_PERCENT cfg)
    end.

  (** The search loop: the first usable file, latest first. *)
Fixpoint findLatestComplete (w : world) (stateFiles : list string) : option string :=
    match stateFiles with
    | [] => None
    | stateFilename :: rest =>
        if usableCompleteState w stateFilename then Some stateFilename
        else findLatestComplete w rest
    end.

Definition updateLatestCompleteOutput (w : world) : world :=
    match findLatestComplete w (listStateFiles w) with
    | None => w
    | Some latestCompleteStateFile =>
        match getTimestampFromFilename latestCompleteStateFile with
        | None => w
        | Some latestCompleteTimestamp =>
            if String.eqb latestCompleteTimestamp "" then w
            else
              match output_dir w !! outputFilename (Some latestCompleteTimestamp) with
              | Some content =>
                  {| state_dir := state_dir w;
                     output_dir := output_dir w;
                     latest_output := Some content |}
              | None => w
              end
        end
    end.

  (** *** The main execution *)

  (** What an invocation leaves behind: the exit status, the file system,
      and the array [currentStations] at the end ([None] for [null]). *)
Record outcome := {
    exitCode : Z;
    final_world : world;
    currentStations : option (list station);
  }.

  (** The selection at the start of the main execution. *)
Inductive selection :=
    | ContinueRun (stations : list station) (stateFilePath outputFilePath : string)
    | NoRunNeeded (stations : list station)
    | StartNewRun.

Definition determineRunState (e : env) (w : world) : selection :=
    match listStateFiles w with
    | [] => StartNewRun
    | latest :: _ =>
        match loadState latest w with
        | None => StartNewRun
        | Some stations =>
            let totalCount := length stations in
            let permFailedCount := countPermanentlyFailedStations cfg stations in
            let permFailedPercent := failedPercent permFailedCount totalCount in
            let isLatestComplete := isStateComplete cfg stations in
            let latestTimestamp := getTimestampFromFilename latest in
            let latestDate := parseTimestamp latestTimestamp in
            let needsProcessing :=
              negb isLatestComplete
              || (isLatestComplete
                  && Qgtb permFailedPercent (PERMANENT_FAILURE_THRESHOLD_PERCENT cfg)) in
            if needsProcessing then
              ContinueRun stations latest (outputFilename latestTimestamp)
            else
              match latestDate with
              | Some latestDate =>
                  let daysAgo :=
                    (inject_Z (now_at_staleness_check e - latestDate)
                     / inject_Z (1000 * 60 * 60 * 24))%Q in
                  if Qltb daysAgo (MIN_INTERVAL_DAYS_IF_COMPLETE cfg)
                  then NoRunNeeded stations
                  else StartNewRun
              | None => StartNewRun
              end
        end
    end.

  (** The exit status from the final array (the threshold logic). *)
Definition thresholdExitCode (stations : list station) : Z :=
    let totalStations := length stations in
    let permanentlyFailedCount := countPermanentlyFailedStations cfg stations in
    let permanentlyFailedPercent := failedPercent permanentlyFailedCount totalStations in
    if (0 <? permanentlyFailedCount)%nat then
      if Qgtb permanentlyFailedPercent (PERMANENT_FAILURE_THRESHOLD_PERCENT cfg)
      then 1
      else 0
    else 0.

  (** The part of the main execution after the run state is known and the
      array is in hand: process, compute the exit status. *)
Definition processAndEvaluate (e : env) (startNewRun : bool)
      (stations : list station) (stateFilePath outputFilePath : string)
      (w : world) : Z * list station * world :=
    let '(stations, w) :=
      if negb (isStateComplete cfg stations) then
        let st := processStations e stations stateFilePath outputFilePath w in
        (lp_stations st, lp_world st)
      else if negb startNewRun then
        saveState stations stateFilePath outputFilePath w
      else (stations, w) in
    (thresholdExitCode stations, stations, w).

  (** The end of the main execution: publish on exit status 0, rotate. *)
Definition publishAndCleanup (exitCode : Z) (w : world) : world :=
    cleanupOldFiles (if exitCode =? 0 then updateLatestCompleteOutput w else w).

Definition main (e : env) (w : world) : outcome :=
    match determineRunState e w with
    | NoRunNeeded stations =>
        {| exitCode := 0;
           final_world := cleanupOldFiles (updateLatestCompleteOutput w);
           currentStations := Some stations |}
    | ContinueRun stations stateFilePath outputFilePath =>
        let '(code, stations, w) :=
          processAndEvaluate e false stations stateFilePath outputFilePath w in
        {| exitCode := code;
           final_world := publishAndCleanup code w;
           currentStations := Some stations |}
    | StartNewRun =>
        let newTimestamp := generateTimestamp (now_at_new_run e) in
        let stateFilePath := stateFilename newTimestamp in
        let outputFilePath := outputFilename (Some newTimestamp) in
        match fetchStationList e with
        | Some stations =>
            let '(stations, w) := saveState stations stateFilePath outputFilePath w in
            let '(code, stations, w) :=
              processAndEvaluate e true stations stateFilePath outputFilePath w in
            {| exitCode := code;
               final_world := publishAndCleanup code w;
               currentStations := Some stations |}
        | None =>
            {| exitCode := 1;
               final_world := publishAndCleanup 1 w;
               currentStations := None |}
        end
    end.
End Script.

(** ** The vocabulary of the specification

    The definitions of this section follow the words of the specification;
    the theorems compare them with the script. *)
Section SpecVocabulary.
Context (cfg : config).

Definition isRetryEligible (e : station) : Prop :=
    (fetchStatus e = pending ∨ fetchStatus e = failed)
    ∧ (fetchStatus e = pending ∨ (fetchAttempts e < MAX_RETRIES cfg)%nat).

Definition isPermanentlyFailed (e : station) : Prop :=
    fetchStatus e = failed ∧ (MAX_RETRIES cfg ≤ fetchAttempts e)%nat.

Global Instance isPermanentlyFailed_dec e : Decision (isPermanentlyFailed e).
  Proof. unfold isPermanentlyFailed. apply _. Defined.

Definition isRunComplete (entities : list station) : Prop :=
    ∀ e, e ∈ entities → ¬ isRetryEligible e.

  (** [permanentlyFailed / total], [0] for an empty store. *)
Definition permanentFailureRatio (entities : list station) : Q :=
    match length entities with
    | O => 0
    | S _ as total =>
        inject_Z (Z.of_nat (length (filter isPermanentlyFailed entities)))
        / inject_Z (Z.of_nat total)
    end.
End SpecVocabulary.


(** ** Notions used in the statements *)
Section Statements.
Context (txt : text_ops).


(** The artifact that [saveState] writes for an array. *)
Definition artifactOf (state : list station) : list json :=
  sortOutputById (createCleanedOutputData txt (sortStationsById state)).

End Statements.

(** The stores of a collection cycle: the array built from a listing, and
    every array that comes from one by the update of an entry after an
    attempt or by the in-place sort of a checkpoint. *)
Inductive reachable : list station → Prop :=
  | reach_listing e stations :
      fetchStationList e = Some stations → reachable stations
  | reach_attempt stations stationIndex now result :
      reachable stations →
      reachable (alter (recordAttempt now result) stationIndex stations)
  | reach_sort stations :
      reachable stations → reachable (sortStationsById stations).

(** [s'] is [s] after one attempt: the update of the work loop, which
    counts the attempt. *)
Definition receivedAttempt (s s' : station) : Prop :=
  (∃ now result, s' = recordAttempt now result s)
  ∧ fetchAttempts s' = (fetchAttempts s + 1)%nat
  ∧ st_id s' = st_id s.

(** A run of the history that may be published: a state file that holds an
    array in which every entity is succeeded or permanently failed and whose
    permanent-failure ratio is within the threshold. *)
Definition healthyRun (cfg : config) (w : world) (f : string) : Prop :=
  isStateFilename f = true
  ∧ ∃ stations,
      state_dir w !! f = Some (StateArray stations)
      ∧ isRunComplete cfg stations
      ∧ (permanentFailureRatio cfg stations * 100
         <= PERMANENT_FAILURE_THRESHOLD_PERCENT cfg)%Q.

(** The newest of them, by file name. *)
Definition newestHealthyRun (cfg : config) (w : world) (f : string) : Prop :=
  healthyRun cfg w f ∧ ∀ g, healthyRun cfg w g → localeCompare g f ≠ Gt.

(** The file system of an invocation when its work is done, before
    [stations.json] is published and the history rotated. *)
Definition worldBeforePublication (cfg : config) (txt : text_ops) (e : env) (w : world)
    : world :=
  match determineRunState cfg e w with
  | NoRunNeeded _ => w
  | ContinueRun stations stateFilePath outputFilePath =>
      (processAndEvaluate cfg txt e false stations stateFilePath outputFilePath w).2
  | StartNewRun =>
      match fetchStationList e with
      | Some stations =>
          let stateFilePath := stateFilename (generateTimestamp (now_at_new_run e)) in
          let outputFilePath :=
            outputFilename (Some (generateTimestamp (now_at_new_run e))) in
          (processAndEvaluate cfg txt e true
             (saveState txt stations stateFilePath outputFilePath w).1
             stateFilePath outputFilePath
             (saveState txt stations stateFilePath outputFilePath w).2).2
      | None => w
      end
  end.

(** The text of a timestamp with a four-digit year, digit by digit. *)
Definition digit_char (k : Z) : ascii := ascii_of_nat (48 + Z.to_nat k).

Definition two_digits (n : Z) (rest : string) : string :=
  String (digit_char (n / 10)) (String (digit_char (n mod 10)) rest).

Definition four_digits (n : Z) (rest : string) : string :=
  String (digit_char (n / 1000))
    (String (digit_char (n / 100 mod 10)) (two_digits (n mod 100) rest)).

Definition timestamp_text (year month day hours minutes seconds : Z) : string :=
  four_digits year
    (two_digits month
       (two_digits day
          (String "T"
             (two_digits hours (two_digits minutes (two_digits seconds "Z")))))).

(** The seconds since the epoch of a date and time of day, [month] counted
    from 1. *)
Definition seconds_of_fields (year month day hours minutes seconds : Z) : Z :=
  (DayFromYear year + month_start (DaysInYear year - 365) (month - 1) + day - 1) * 86400
  + hours * 3600 + minutes * 60 + seconds.

(** The date fields of a calendar day: the day is within its month. *)
Definition valid_fields (year month day hours minutes seconds : Z) : Prop :=
  1 ≤ month ≤ 12
  ∧ 1 ≤ day ≤ month_start (DaysInYear year - 365) month
              - month_start (DaysInYear year - 365) (month - 1)
  ∧ 0 ≤ hours < 24 ∧ 0 ≤ minutes < 60 ∧ 0 ≤ seconds < 60.

(** ** Sample data for the examples *)

(** Text functions that leave their argument as it is. *)
Definition plain_text : text_ops := {|
  str_trim := λ s, s;
  str_toLowerCase := λ s, s;
  str_titleCase := λ s, s;
  str_lowerCamelCase := λ s, s;
|}.

Definition empty_world : world :=
  {| state_dir := ∅; output_dir := ∅; latest_output := None |}.

(** A station as the listing gives it, with one socket. *)
Definition sample_station (id : js_id) (status : fetch_status) (attempts : nat)
    (d : option raw_detail) : station := {|
  st_id := id;
  st_lat := Some (39535522 # 1000000)%Q;
  st_lng := Some (31662464 # 1000000)%Q;
  st_sockets := [ {| ls_id := IdNum 352530 |} ];
  fetchStatus := status;
  fetchAttempts := attempts;
  lastAttemptTimestamp := match attempts with O => None | _ => Some 1744675200000 end;
  details := d;
  errorInfo := None;
|}.

(** A detail payload that carries the id [id]. *)
Definition sample_detail (id : js_id) : raw_detail := {|
  d_id := id;
  d_lat := Some (39184314 # 1000000)%Q;
  d_lng := Some (27548794 # 1000000)%Q;
  d_title := Some "Ramada by Wyndham Soma";
  d_address := None;
  d_phone := Some "08503399937";
  d_reportUrl := None;
  d_reservationUrl := None;
  d_operatorid := Some "919287";
  d_operatortitle := None;
  d_serviceType := Some "halka_acik";
  d_brand := Some "zes";
  d_cityid := Some "45";
  d_districtid := Some "628";
  d_sockets := Some [];
|}.

(** The clock and the remote service of the examples: a listing of the
    stations [ids], every detail request failing, all within one second. *)
Definition failing_env (ids : list Z) : env := {|
  scriptStartTime := 1744675200000;
  now_at_staleness_check := 1744675200000;
  now_at_new_run := 1744675200000;
  now_at_time_check := λ i, 1744675200000 + Z.of_nat i;
  now_after_fetch := λ i, 1744675200000 + Z.of_nat i;
  listing_response :=
    Some (map (λ n, {| l_id := IdNum n; l_lat := None; l_lng := None;
                       l_sockets := None |}) ids);
  detail_responses := λ _ _, RespFailure "HTTP error 500 Internal Server Error";
|}.

(** The default configuration with a budget of five requests. *)
Definition five_requests_config : config := {|
  MAX_HISTORY_FILES := 10;
  MIN_INTERVAL_DAYS_IF_COMPLETE := 7;
  MAX_REQUESTS_PER_RUN := 5;
  MAX_RUN_MINUTES := 15;
  MAX_RETRIES := 5;
  PERMANENT_FAILURE_THRESHOLD_PERCENT := 1;
|}.

(** Twelve pending stations, ids 1 to 12. *)
Definition twelve_pending : list station :=
  map (λ n, sample_station (IdNum n) pending 0 None) [1; 2; 3; 4; 5; 6; 7; 8; 9; 10; 11; 12].

(** An invocation in which the fifteen minutes are over when the third
    station of the batch comes up. *)
Definition slow_env : env := {|
  scriptStartTime := 1744675200000;
  now_at_staleness_check := 1744675200000;
  now_at_new_run := 1744675200000;
  now_at_time_check := λ i, if (i <? 2)%nat then 1744675230000 else 1744676100000;
  now_after_fetch := λ i, 1744675260000;
  listing_response := None;
  detail_responses := λ _ _, RespFailure "Timeout";
|}.

(** The default configuration with a failure threshold of two percent. *)
Definition two_percent_config : config := {|
  MAX_HISTORY_FILES := 10;
  MIN_INTERVAL_DAYS_IF_COMPLETE := 7;
  MAX_REQUESTS_PER_RUN := 1000;
  MAX_RUN_MINUTES := 15;
  MAX_RETRIES := 5;
  PERMANENT_FAILURE_THRESHOLD_PERCENT := 2;
|}.

(** A hundred stations, ids 1 to 100, the first [k] permanently failed and
    the others succeeded. *)
Definition hundred_stations (k : nat) : list station :=
  map (λ n, if (n <=? k)%nat
            then sample_station (IdNum (Z.of_nat n)) failed 5 None
            else sample_station (IdNum (Z.of_nat n)) success 1
                   (Some (sample_detail (IdNum (Z.of_nat n)))))
      (seq 1 100).

(** A history of one run. *)
Definition world_with_run (timestamp : string) (stations : list station) : world := {|
  state_dir := {[ stateFilename timestamp := StateArray stations ]};
  output_dir := {[ outputFilename (Some timestamp) := artifactOf plain_text stations ]};
  latest_output := None;
|}.

(** A history of eleven healthy runs, one a day from 1 to 11 March 2025,
    each with its output artifact. *)
Definition eleven_runs : world :=
  let days := ["01"; "02"; "03"; "04"; "05"; "06"; "07"; "08"; "09"; "10"; "11"] in
  let stations := [sample_station (IdNum 1) success 1 (Some (sample_detail (IdNum 1)))] in
  {| state_dir :=
       list_to_map (map (λ d, (stateFilename ("202503" +:+ d +:+ "T000000Z"),
                               StateArray stations)) days);
     output_dir :=
       list_to_map (map (λ d, (outputFilename (Some ("202503" +:+ d +:+ "T000000Z")),
                               artifactOf plain_text stations)) days);
     latest_output := None |}.

(** An invocation on 15 April 2025 in which the listing request fails. *)
Definition listing_down_env : env := {|
  scriptStartTime := 1744675200000;
  now_at_staleness_check := 1744675200000;
  now_at_new_run := 1744675200000;
  now_at_time_check := λ i, 1744675200000;
  now_after_fetch := λ i, 1744675200000;
  listing_response := None;
  detail_responses := λ _ _, RespFailure "Timeout";
|}.


(** ** Notions used in the further properties *)

(** A path separator occurs in the name.  The entries of a directory, and
    the timestamps the script builds names from, have none; [basename] is
    modelled on such names. *)
Fixpoint has_separator (s : string) : bool :=
  match s with
  | EmptyString => false
  | String c s' => Ascii.eqb c "/" || has_separator s'
  end.

(** The record of [s] after the request at position [i] of the batch: the
    update of the work loop with the answer of the remote service. *)
Definition attemptAt (e : env) (i : nat) (s : station) : station :=
  recordAttempt (now_after_fetch e i) (fetchStationDetails e i s) s.

(** The number of time checks of the work loop that pass before the first
    one that finds the budget used up, among those at positions [i] to
    [i + n - 1]. *)
Fixpoint checksPassed (cfg : config) (e : env) (i n : nat) : nat :=
  match n with
  | O => O
  | S n' =>
      if MAX_DURATION_MS cfg <=? now_at_time_check e i - scriptStartTime e then O
      else S (checksPassed cfg e (S i) n')
  end.

(** What the listing gave for a station, which no attempt changes. *)
Definition listingPart (s : station)
    : js_id * js_number * js_number * list listing_socket :=
  (st_id s, st_lat s, st_lng s, st_sockets s).

(** A record that says [success] carries the payload of its request: a
    detail object with a usable id, and no error text. *)
Definition succeededWithDetails (s : station) : Prop :=
  fetchStatus s = success →
  ∃ d, details s = Some d ∧ truthy (d_id d) = true ∧ errorInfo s = None.

(** The properties of a record of the output artifact, in the order in
    which they are written. *)
Definition outputProperties : list string :=
  ["id"; "lat"; "lng"; "title"; "address"; "phone"; "reportUrl";
   "reservationUrl"; "operatorId"; "operatorTitle"; "serviceType";
   "brand"; "cityId"; "districtId"; "sockets"].

(** [stationsToProcess] of [processStations]: the stations that need a
    request, cut to the request budget; then the stations that need one but
    are beyond the budget, and the stations that need none. *)
Definition stationsToProcess (cfg : config) (stations : list station) : list station :=
  take (MAX_REQUESTS_PER_RUN cfg) (filter (λ s, needsFetch cfg s = true) stations).

Definition beyondBudget (cfg : config) (stations : list station) : list station :=
  drop (MAX_REQUESTS_PER_RUN cfg) (filter (λ s, needsFetch cfg s = true) stations).

Definition settledStations (cfg : config) (stations : list station) : list station :=
  filter (λ s, ¬ needsFetch cfg s = true) stations.

(** What the listing gives for a station, as [fetchStationList] takes it
    over. *)
Definition listedPart (l : listed_station)
    : js_id * js_number * js_number * list listing_socket :=
  (l_id l, l_lat l, l_lng l, default [] (l_sockets l)).

(** An invocation in which every detail request is answered with a payload
    that carries the id of the station. *)
Definition healthy_env : env := {|
  scriptStartTime := 1744675200000;
  now_at_staleness_check := 1744675200000;
  now_at_new_run := 1744675200000;
  now_at_time_check := λ i, 1744675201000;
  now_after_fetch := λ i, 1744675202000;
  listing_response := Some [];
  detail_responses := λ _ id, RespBody (Some (sample_detail id));
|}.

(** A pending station, a permanently failed one and a succeeded one. *)
Definition three_stations : list station :=
  [ sample_station (IdNum 1) pending 0 None;
    sample_station (IdNum 2) failed 5 None;
    sample_station (IdNum 3) success 1 (Some (sample_detail (IdNum 3))) ].

(** The properties of a normalised record in which an empty text is
    replaced by [null]. *)
Definition nullableProperties : list string :=
  ["phone"; "reportUrl"; "reservationUrl"; "operatorId"; "serviceType";
   "brand"; "cityId"; "districtId"].

(** The key [sortStationsById] compares. *)
Definition sortKey (s : station) : option Z := number_or_neg_infinity (st_id s).

(** *** [toLowerCamelCase] on ASCII text

    The body of [toLowerCamelCase] past its guard,
    [str.toLowerCase().split(/[-_ ]+/).map(...).join('')], for a text of
    ASCII characters, on which [toLowerCase] and [toUpperCase] change the
    letters [A] to [Z] and [a] to [z] and nothing else. *)
Definition is_ascii (s : string) : Prop :=
  Forall (λ c, (nat_of_ascii c < 128)%nat) (list_ascii_of_string s).

Definition ascii_toLowerCase (c : ascii) : ascii :=
  let n := nat_of_ascii c in
  if ((65 <=? n) && (n <=? 90))%nat then ascii_of_nat (n + 32) else c.

Definition ascii_toUpperCase (c : ascii) : ascii :=
  let n := nat_of_ascii c in
  if ((97 <=? n) && (n <=? 122))%nat then ascii_of_nat (n - 32) else c.

Fixpoint String_toLowerCase (s : string) : string :=
  match s with
  | EmptyString => EmptyString
  | String c s' => String (ascii_toLowerCase c) (String_toLowerCase s')
  end.

(** The character class [[-_ ]]. *)
Definition is_word_separator (c : ascii) : bool :=
  Ascii.eqb c "-" || Ascii.eqb c "_" || Ascii.eqb c " ".

(** [s.split(/[-_ ]+/)]: the pieces between the maximal runs of separators;
    a run at the start or at the end gives an empty first or last piece.
    [in_run] says that the character before was a separator. *)
Fixpoint split_words (s : string) (in_run : bool) : list string :=
  match s with
  | EmptyString => [EmptyString]
  | String c s' =>
      if is_word_separator c then
        if in_run then split_words s' true
        else EmptyString :: split_words s' true
      else
        match split_words s' false with
        | word :: words => String c word :: words
        | [] => [String c EmptyString]
        end
  end.

(** [word.charAt(0).toUpperCase() + word.slice(1)] *)
Definition capitalize (word : string) : string :=
  match word with
  | EmptyString => EmptyString
  | String c rest => String (ascii_toUpperCase c) rest
  end.

(** [words.join('')] *)
Definition join_words (words : list string) : string :=
  foldr String.append EmptyString words.

Definition lowerCamelCase (str : string) : string :=
  join_words
    (imap (λ index word, if (index =? 0)%nat then word else capitalize word)
       (split_words (String_toLowerCase str) false)).

(** The same text character by character: separators are dropped, and the
    first character after a run of separators is put in upper case. *)
Fixpoint camelCaseFrom (s : string) (after_separator : bool) : string :=
  match s with
  | EmptyString => EmptyString
  | String c s' =>
      if is_word_separator c then camelCaseFrom s' true
      else String (if after_separator then ascii_toUpperCase c else c)
                  (camelCaseFrom s' false)
  end.

Fixpoint remove_separators (s : string) : string :=
  match s with
  | EmptyString => EmptyString
  | String c s' =>
      if is_word_separator c then remove_separators s'
      else String c (remove_separators s')
  end.

(** ** The fetch summary

    The counts that the main execution prints at its end; every entry of
    the array is a station object. *)
Record summary := {
  totalStations : nat;
  successCount : nat;
  pendingCount : nat;
  retryableCount : nat;
  permanentlyFailedCount : nat;
}.

Definition fetchSummary (cfg : config) (currentStations : list station) : summary :=
  let validStations := currentStations in
  {| totalStations := length currentStations;
     successCount := length (filter (λ s, fetchStatus s = success) validStations);
     pendingCount := length (filter (λ s, fetchStatus s = pending) validStations);
     retryableCount :=
       length (filter (λ s, fetchStatus s = failed
                            ∧ (fetchAttempts s < MAX_RETRIES cfg)%nat) validStations);
     permanentlyFailedCount := countPermanentlyFailedStations cfg currentStations |}.

(** Text functions for the examples on ASCII text: the lower camel case of
    the script, lower case on the letters [A] to [Z]; the others leave
    their argument as it is. *)
Definition ascii_text : text_ops := {|
  str_trim := λ s, s;
  str_toLowerCase := String_toLowerCase;
  str_titleCase := λ s, s;
  str_lowerCamelCase := lowerCamelCase;
|}.

(** A first invocation with two listed stations and a healthy service. *)
Definition two_listed : list listed_station :=
  [ {| l_id := IdNum 2; l_lat := None; l_lng := None; l_sockets := None |};
    {| l_id := IdNum 1; l_lat := None; l_lng := None; l_sockets := None |} ].

Definition healthy_listing_env : env := {|
  scriptStartTime := 1744675200000;
  now_at_staleness_check := 1744675200000;
  now_at_new_run := 1744675200000;
  now_at_time_check := λ i, 1744675201000;
  now_after_fetch := λ i, 1744675202000;
  listing_response := Some two_listed;
  detail_responses := λ _ id, RespBody (Some (sample_detail id));
|}.
(** * Properties *)

(** ** Completion *)
Section CompletionFacts.
Context (cfg : config).

Lemma needsFetch_spec s : needsFetch cfg s = true ↔ isRetryEligible cfg s.
  Proof.
    unfold needsFetch, isRetryEligible.
    rewrite orb_true_iff, andb_true_iff, !bool_decide_eq_true, Nat.ltb_lt.
    destruct (fetchStatus s); split; intros H; try tauto; try (intuition congruence).
  Qed.

Lemma permanentlyFailed_spec s :
    permanentlyFailed cfg s = true ↔ isPermanentlyFailed cfg s.
  Proof.
    unfold permanentlyFailed, isPermanentlyFailed.
    by rewrite andb_true_iff, bool_decide_eq_true, Nat.leb_le.
  Qed.

Lemma isStateComplete_Forall stations :
    isStateComplete cfg stations = true
    ↔ Forall (λ s, needsFetch cfg s = false) stations.
  Proof.
    unfold isStateComplete. rewrite negb_true_iff.
    induction stations as [|s l IH]; simpl.
    - split; [constructor | done].
    - rewrite orb_false_iff, Forall_cons, IH. done.
  Qed.

Lemma settled_iff_not_eligible s :
    ¬ isRetryEligible cfg s
    ↔ fetchStatus s = success ∨ isPermanentlyFailed cfg s.
  Proof.
    unfold isRetryEligible, isPermanentlyFailed.
    destruct (fetchStatus s);
      (split; [intros H | intros [H | [H1 H2]]]); try discriminate.
    - exfalso. apply H. tauto.
    - by left.
    - intros [[E | E] _]; discriminate.
    - right. split; [done | ].
      destruct (decide (MAX_RETRIES cfg ≤ fetchAttempts s)%nat); [done | ].
      exfalso. apply H. split; right; [done | lia].
    - intros [_ [E | E]]; [discriminate | lia].
  Qed.

Lemma isStateComplete_isRunComplete stations :
  isStateComplete cfg stations = true ↔ isRunComplete cfg stations.
Proof.
  rewrite isStateComplete_Forall, Forall_forall. unfold isRunComplete.
  split; intros H s Hs.
  - rewrite <- needsFetch_spec. rewrite (H s Hs). discriminate.
  - apply not_true_is_false. rewrite needsFetch_spec. by apply H.
Qed.

(** C5.  [isStateComplete] is true exactly when no entity is
    retry-eligible, which is exactly when every entity is succeeded or
    permanently failed (failed with the retries used up): no entity is
    pending and no failed entity has retries left. *)
Theorem isStateComplete_iff_all_settled (stations : list station) :
    (isStateComplete cfg stations = true ↔ isRunComplete cfg stations)
    ∧ (isStateComplete cfg stations = true
       ↔ ∀ s, s ∈ stations →
           fetchStatus s = success
           ∨ (fetchStatus s = failed ∧ (MAX_RETRIES cfg ≤ fetchAttempts s)%nat))
    ∧ (isStateComplete cfg stations = true
       ↔ ∀ s, s ∈ stations →
           fetchStatus s ≠ pending
           ∧ ¬ (fetchStatus s = failed ∧ (fetchAttempts s < MAX_RETRIES cfg)%nat)).
  Proof.
    assert (Hc : isStateComplete cfg stations = true ↔ isRunComplete cfg stations).
    { rewrite isStateComplete_Forall, Forall_forall. unfold isRunComplete.
      split; intros H s Hs.
      - rewrite <- needsFetch_spec. rewrite (H s Hs). discriminate.
      - apply not_true_is_false. rewrite needsFetch_spec. by apply H. }
    split; [exact Hc | ]. split.
    - rewrite Hc. unfold isRunComplete.
      split; intros H s Hs; specialize (H s Hs);
        by apply settled_iff_not_eligible.
    - rewrite Hc. unfold isRunComplete, isRetryEligible.
      split; intros H s Hs; specialize (H s Hs).
      + split.
        * intros Hp. apply H. split; by left.
        * intros [Hf Hlt]. apply H. split; by right.
      + destruct H as [Hp Hf]. intros [[E | E] [H' | H']]; try done.
        apply Hf. done.
  Qed.
End CompletionFacts.

(** ** The sort *)
Section ArraySortFacts.
Context {A : Type} (lt : A → A → bool).

Lemma sort_insert_Permutation x l : sort_insert lt x l ≡ₚ x :: l.
  Proof.
    induction l as [|y l IH]; simpl; [done | ].
    destruct (lt y x); [ | done].
    rewrite IH. apply Permutation_swap.
  Qed.

Lemma Array_sort_Permutation l : Array_sort lt l ≡ₚ l.
  Proof.
    induction l as [|x l IH]; simpl; [done | ].
    by rewrite sort_insert_Permutation, IH.
  Qed.

Lemma Array_sort_length l : length (Array_sort lt l) = length l.
  Proof. by rewrite Array_sort_Permutation. Qed.

Lemma elem_of_Array_sort x l : x ∈ Array_sort lt l ↔ x ∈ l.
  Proof. by rewrite Array_sort_Permutation. Qed.

Lemma Array_sort_fixed l : Sorted (in_order lt) l → Array_sort lt l = l.
  Proof.
    induction 1 as [|x l Hl IH Hd]; [done | ].
    change (Array_sort lt (x :: l)) with (sort_insert lt x (Array_sort lt l)).
    rewrite IH.
    destruct Hd as [|y l' Hxy]; simpl; [done | ].
    unfold in_order in Hxy. by rewrite Hxy.
  Qed.

Hypothesis lt_asym : ∀ a b, lt a b = true → lt b a = false.

Lemma sort_insert_Sorted x l : Sorted (in_order lt) l → Sorted (in_order lt) (sort_insert lt x l).
  Proof.
    induction 1 as [|y l Hl IH Hd]; simpl.
    - repeat constructor.
    - destruct (lt y x) eqn:E.
      + constructor; [done | ].
        destruct Hd as [|z l' Hyz]; simpl.
        * constructor. by apply lt_asym.
        * destruct (lt z x); constructor; [done | by apply lt_asym].
      + repeat constructor; done.
  Qed.

Lemma Array_sort_Sorted l : Sorted (in_order lt) (Array_sort lt l).
  Proof.
    induction l as [|x l IH]; simpl; [constructor | ].
    by apply sort_insert_Sorted.
  Qed.

Lemma Array_sort_idemp l : Array_sort lt (Array_sort lt l) = Array_sort lt l.
  Proof. apply Array_sort_fixed, Array_sort_Sorted. Qed.
End ArraySortFacts.

Lemma key_lt_asym a b : key_lt a b = true → key_lt b a = false.
Proof. destruct a, b; simpl; try done. intros ?%Z.ltb_lt. apply Z.ltb_ge. lia. Qed.

Lemma station_lt_asym a b : station_lt a b = true → station_lt b a = false.
Proof. apply key_lt_asym. Qed.


Lemma sortStationsById_idemp stations :
  sortStationsById (sortStationsById stations) = sortStationsById stations.
Proof. apply Array_sort_idemp, station_lt_asym. Qed.

Lemma sortStationsById_Permutation stations : sortStationsById stations ≡ₚ stations.
Proof. apply Array_sort_Permutation. Qed.

(** ** The output artifact *)
Section OutputFacts.
Context (txt : text_ops).

Lemma assoc_get_set k v fs : assoc_get k (assoc_set k v fs) = Some v.
Proof.
  induction fs as [|[k' v'] fs IH]; simpl.
  - by rewrite String.eqb_refl.
  - destruct (String.eqb k k') eqn:E; simpl; rewrite ?E, ?String.eqb_refl; done.
Qed.

Lemma cleanStation_None s : cleanStation txt s = None ↔ parseInt (st_id s) = None.
Proof.
  unfold cleanStation. destruct (parseInt (st_id s)); [ | done].
  split; [ | done].
  destruct (fetchStatus s), (details s); simpl; try done.
  by destruct (normalizeStationData txt _).
Qed.

Lemma normalizeStationData_object d o :
  normalizeStationData txt d = Some o → ∃ fs, o = JObj fs.
Proof.
  unfold normalizeStationData. destruct (negb _); [done | ].
  intros [= <-]. eauto.
Qed.

Lemma cleanStation_id s baseId :
  parseInt (st_id s) = Some baseId →
  ∃ o, cleanStation txt s = Some o
       ∧ get_field "id" o = Some (JInt baseId) ∧ json_id o = Some baseId.
Proof.
  intros Hid. unfold cleanStation. rewrite Hid.
  assert (Hset : ∀ o, (∃ fs, o = JObj fs) →
            get_field "id" (set_field "id" (JInt baseId) o) = Some (JInt baseId)).
  { intros o [fs ->]. simpl. apply assoc_get_set. }
  assert (Hgoal : ∀ o, get_field "id" o = Some (JInt baseId) →
            ∃ o', Some o = Some o' ∧ get_field "id" o' = Some (JInt baseId)
                  ∧ json_id o' = Some baseId).
  { intros o Ho. exists o. unfold json_id. by rewrite Ho. }
  destruct (fetchStatus s), (details s) as [d|]; simpl;
    try (apply Hgoal; reflexivity).
  destruct (normalizeStationData txt d) as [o|] eqn:E.
  - apply Hgoal, Hset. by eapply normalizeStationData_object.
  - apply Hgoal. reflexivity.
Qed.


Lemma cleanStation_json_id s o :
  cleanStation txt s = Some o → json_id o = parseInt (st_id s).
Proof.
  intros Ho. destruct (parseInt (st_id s)) as [z|] eqn:E.
  - destruct (cleanStation_id s z E) as (o' & Ho' & _ & Hid). congruence.
  - apply cleanStation_None in E. congruence.
Qed.

Lemma saveState_output state sp op w :
  output_dir (saveState txt state sp op w).2 !! op = Some (artifactOf txt state).
Proof. unfold saveState. simpl. apply lookup_insert_eq. Qed.

Lemma elem_of_artifactOf o state :
  o ∈ artifactOf txt state ↔ ∃ s, s ∈ state ∧ cleanStation txt s = Some o.
Proof.
  unfold artifactOf, sortOutputById, createCleanedOutputData.
  rewrite elem_of_Array_sort, list_elem_of_omap.
  setoid_rewrite (elem_of_Array_sort station_lt). done.
Qed.

Lemma artifact_ids state :
  omap json_id (artifactOf txt state) ≡ₚ omap (λ s, parseInt (st_id s)) state.
Proof.
  unfold artifactOf, sortOutputById, createCleanedOutputData.
  rewrite Array_sort_Permutation.
  rewrite <- (sortStationsById_Permutation state) at 2.
  induction (sortStationsById state) as [|s l IH]; simpl; [done | ].
  destruct (cleanStation txt s) as [o|] eqn:E; simpl.
  - rewrite (cleanStation_json_id _ _ E).
    destruct (parseInt (st_id s)); [by f_equiv | done].
  - apply cleanStation_None in E. by rewrite E.
Qed.

(** C9.  Every state entry whose id parses has a record in the output
    artifact whose [id] is that parsed id, whatever its fetch status and
    whatever [id] its detail payload carries: the ids of the artifact are
    exactly the parsed ids of the state entries. *)
Theorem output_id_is_listing_id (state : list station) (sp op : string) (w : world)
    (s : station) (baseId : Z) :
  s ∈ state →
  parseInt (st_id s) = Some baseId →
  ∃ o artifact,
    output_dir (saveState txt state sp op w).2 !! op = Some artifact
    ∧ cleanStation txt s = Some o
    ∧ o ∈ artifact
    ∧ get_field "id" o = Some (JInt baseId)
    ∧ omap json_id artifact ≡ₚ omap (λ s, parseInt (st_id s)) state.
Proof.
  intros Hs Hid.
  destruct (cleanStation_id s baseId Hid) as (o & Ho & Hget & _).
  exists o, (artifactOf txt state).
  split; [apply saveState_output | ].
  split; [done | ]. split; [apply elem_of_artifactOf; eauto | ].
  split; [done | apply artifact_ids].
Qed.

Lemma key_le_trans : Transitive (in_order key_lt).
Proof.
  intros a b c. unfold in_order.
  destruct a, b, c; simpl; try done. rewrite !Z.ltb_ge. lia.
Qed.



End OutputFacts.

(** A succeeded station listed as 14551821 whose payload says 99: the
    record of the artifact carries 14551821. *)
Lemma output_id_is_listing_id_witness :
  ∃ o artifact,
    output_dir (saveState plain_text
                  [sample_station (IdNum 14551821) success 1 (Some (sample_detail (IdNum 99)))]
                  "data_20250415T000000Z.json" "stations_20250415T000000Z.json"
                  empty_world).2 !! "stations_20250415T000000Z.json" = Some artifact
    ∧ cleanStation plain_text
        (sample_station (IdNum 14551821) success 1 (Some (sample_detail (IdNum 99)))) = Some o
    ∧ o ∈ artifact
    ∧ get_field "id" o = Some (JInt 14551821)
    ∧ omap json_id artifact
      ≡ₚ omap (λ s, parseInt (st_id s))
           [sample_station (IdNum 14551821) success 1 (Some (sample_detail (IdNum 99)))].
Proof.
  apply (output_id_is_listing_id plain_text).
  - apply list_elem_of_here.
  - reflexivity.
Defined.



(** ** Checkpoints *)
Section CheckpointFacts.
Context (cfg : config) (txt : text_ops).


Lemma isStateComplete_Permutation l1 l2 :
  l1 ≡ₚ l2 → isStateComplete cfg l1 = isStateComplete cfg l2.
Proof.
  intros Hp. apply eq_true_iff_eq. rewrite !isStateComplete_Forall. by rewrite Hp.
Qed.

Lemma artifactOf_sorted state :
  artifactOf txt (sortStationsById state) = artifactOf txt state.
Proof. unfold artifactOf. by rewrite sortStationsById_idemp. Qed.


End CheckpointFacts.


(** ** The state of an entity across attempts *)



(** The work loop and the checkpoints keep the store among the reachable
    ones. *)
Lemma processLoop_reachable cfg txt e sp op batch todo :
  ∀ i st, reachable (lp_stations st) →
          reachable (lp_stations (processLoop cfg txt e sp op batch todo i st)).
Proof.
  induction todo as [|s todo IH]; intros i st Hr; simpl; [done | ].
  destruct (MAX_DURATION_MS cfg <=? _); [done | ].
  destruct (negb (truthy (st_id s))); [by apply IH | ].
  destruct (findIndex (st_id s) (lp_stations st)); [ | by apply IH].
  destruct (_ || _); [unfold saveState | ]; cbv beta iota zeta; apply IH;
    cbn [lp_stations]; [apply reach_sort | ]; by apply reach_attempt.
Qed.

Lemma processStations_reachable cfg txt e stations sp op w :
  reachable stations →
  reachable (lp_stations (processStations cfg txt e stations sp op w)).
Proof.
  intros Hr. unfold processStations. destruct (take _ _) as [|s l] eqn:E.
  - by apply reach_sort.
  - rewrite <- E. unfold saveState. cbv beta iota zeta. cbn [lp_stations].
    apply reach_sort. by apply processLoop_reachable.
Qed.



(** ** The work loop *)


Section LoopFacts.
Context (cfg : config) (txt : text_ops) (e : env) (sp op : string).

Lemma recordAttempt_received now result s :
  receivedAttempt s (recordAttempt now result s).
Proof.
  split; [eauto | ]. unfold recordAttempt. by destruct (fr_success result).
Qed.

Lemma saveState_stations state w :
  (saveState txt state sp op w).1 = sortStationsById state.
Proof. done. Qed.


Lemma findIndex_NoDup s stations :
  NoDup (map st_id stations) → s ∈ stations →
  ∃ stationIndex,
    findIndex (st_id s) stations = Some stationIndex
    ∧ stations !! stationIndex = Some s.
Proof.
  induction stations as [|x l IH]; intros Hnd Hs; [by apply elem_of_nil in Hs | ].
  simpl in Hnd. apply NoDup_cons in Hnd as [Hx Hnd]. simpl.
  apply elem_of_cons in Hs as [-> | Hs].
  - exists 0%nat. by rewrite bool_decide_eq_true_2.
  - rewrite bool_decide_eq_false_2.
    + destruct (IH Hnd Hs) as (idx & -> & Hl). by exists (S idx).
    + intros E. apply Hx. rewrite E. apply list_elem_of_fmap. eauto.
Qed.

Lemma alter_Permutation (f : station → station) i (l : list station) s rest :
  l !! i = Some s → l ≡ₚ s :: rest → alter f i l ≡ₚ f s :: rest.
Proof.
  intros Hi Hp.
  assert (Hd : delete i l ≡ₚ rest).
  { apply (Permutation_cons_inv (a := s)). by rewrite <- delete_Permutation. }
  rewrite <- Hd.
  rewrite (delete_Permutation (alter f i l) i (f s)).
  - f_equiv. clear. revert i. induction l as [|x l IH]; intros [|i]; simpl; try done.
    f_equiv. apply IH.
  - rewrite list_lookup_alter_eq. by rewrite Hi.
Qed.

Lemma filter_all (P : station → Prop) `{∀ x, Decision (P x)} l :
  Forall P l → filter P l = l.
Proof.
  induction 1 as [|x l Hx Hl IH]; [done | ].
  rewrite filter_cons_True by done. by rewrite IH.
Qed.

Lemma filter_none (P : station → Prop) `{∀ x, Decision (P x)} l :
  Forall (λ x, ¬ P x) l → filter P l = [].
Proof.
  induction 1 as [|x l Hx Hl IH]; [done | ].
  by rewrite filter_cons_False.
Qed.


End LoopFacts.



(** ** The exit status *)
Section ExitStatus.
Context (cfg : config) (txt : text_ops).

Lemma countPermanentlyFailedStations_spec stations :
  countPermanentlyFailedStations cfg stations
  = length (filter (isPermanentlyFailed cfg) stations).
Proof.
  unfold countPermanentlyFailedStations. f_equal.
  apply list_filter_iff. intros s. apply permanentlyFailed_spec.
Qed.

Lemma failedPercent_ratio stations :
  (0 < length stations)%nat →
  failedPercent (countPermanentlyFailedStations cfg stations) (length stations)
  = (permanentFailureRatio cfg stations * 100)%Q.
Proof.
  intros Hlen. unfold failedPercent, permanentFailureRatio.
  rewrite countPermanentlyFailedStations_spec.
  destruct (length stations) eqn:E; [lia | ]. done.
Qed.

Lemma Qgtb_true a b : Qgtb a b = true ↔ (b < a)%Q.
Proof.
  unfold Qgtb. rewrite negb_true_iff, <- not_true_iff_false, Qle_bool_iff.
  split; [apply Qnot_le_lt | apply Qlt_not_le].
Qed.

Lemma thresholdExitCode_spec stations :
  (0 <= PERMANENT_FAILURE_THRESHOLD_PERCENT cfg)%Q →
  (0 < length stations)%nat →
  thresholdExitCode cfg stations ≠ 0
  ↔ (PERMANENT_FAILURE_THRESHOLD_PERCENT cfg < permanentFailureRatio cfg stations * 100)%Q.
Proof.
  intros Hthr Hlen. unfold thresholdExitCode.
  rewrite (failedPercent_ratio stations Hlen).
  destruct (0 <? countPermanentlyFailedStations cfg stations)%nat eqn:Ec.
  - destruct (Qgtb _ _) eqn:Eg.
    + apply Qgtb_true in Eg. split; [done | discriminate].
    + split; [done | ]. intros H%Qgtb_true. congruence.
  - split; [done | ]. intros H. exfalso.
    apply Nat.ltb_ge in Ec.
    rewrite <- (failedPercent_ratio stations Hlen) in H. unfold failedPercent in H.
    replace (countPermanentlyFailedStations cfg stations) with 0%nat in H by lia.
    destruct (0 <? length stations)%nat; simpl in H.
    + apply (Qlt_not_le _ _ H). eapply Qle_trans; [ | exact Hthr].
      unfold Qdiv. rewrite !Qmult_0_l. apply Qle_refl.
    + by apply (Qlt_not_le _ _ H).
Qed.

Lemma determineRunState_NoRunNeeded e w stations :
  determineRunState cfg e w = NoRunNeeded stations →
  isStateComplete cfg stations = true
  ∧ Qgtb (failedPercent (countPermanentlyFailedStations cfg stations) (length stations))
         (PERMANENT_FAILURE_THRESHOLD_PERCENT cfg) = false.
Proof.
  unfold determineRunState.
  destruct (listStateFiles w) as [|latest files]; [done | ].
  destruct (loadState latest w) as [loaded|]; [ | done].
  destruct (isStateComplete cfg loaded) eqn:Ec; simpl; [ | done].
  destruct (Qgtb _ _) eqn:Eg; [done | ].
  destruct (parseTimestamp _); [ | done].
  destruct (Qltb _ _); [ | done].
  intros [= <-]. done.
Qed.

Lemma processAndEvaluate_exit e startNewRun stations sp op w :
  (processAndEvaluate cfg txt e startNewRun stations sp op w).1.1
  = thresholdExitCode cfg (processAndEvaluate cfg txt e startNewRun stations sp op w).1.2.
Proof.
  unfold processAndEvaluate.
  destruct (negb (isStateComplete cfg stations)); [done | ].
  destruct (negb startNewRun); done.
Qed.

(** The exit status of an invocation that ends with an array in hand is the
    one the threshold logic gives for that array. *)
Lemma main_exitCode e w stations :
  currentStations (main cfg txt e w) = Some stations →
  exitCode (main cfg txt e w) = thresholdExitCode cfg stations.
Proof.
  unfold main. destruct (determineRunState cfg e w) as [st sp op | st | ] eqn:E.
  - pose proof (processAndEvaluate_exit e false st sp op w) as Hx.
    destruct (processAndEvaluate cfg txt e false st sp op w) as [[code st'] w'].
    simpl in *. by intros [= <-].
  - simpl. intros [= <-]. apply determineRunState_NoRunNeeded in E as [_ Hg].
    unfold thresholdExitCode. rewrite Hg. by destruct (0 <? _)%nat.
  - destruct (fetchStationList e) as [st|]; [ | done].
    destruct (saveState txt st _ _ w) as [st1 w1].
    match goal with
    | |- context [processAndEvaluate cfg txt e true st1 ?sp ?op w1] =>
        pose proof (processAndEvaluate_exit e true st1 sp op w1) as Hx;
        destruct (processAndEvaluate cfg txt e true st1 sp op w1) as [[code st'] w']
    end.
    simpl in *. by intros [= <-].
Qed.

(** C1.  For a final entity store with [total > 0] (and a threshold that is
    not negative) the exit status is non-zero exactly when the
    permanent-failure ratio, as a percentage, strictly exceeds the
    threshold; with [total = 100] and a threshold of 2 percent, 2 permanent
    failures give exit status 0 and 3 give a non-zero one. *)
Theorem exit_status_threshold (e : env) (w : world) (stations : list station) :
  (0 <= PERMANENT_FAILURE_THRESHOLD_PERCENT cfg)%Q →
  currentStations (main cfg txt e w) = Some stations →
  (0 < length stations)%nat →
  (exitCode (main cfg txt e w) ≠ 0
   ↔ (PERMANENT_FAILURE_THRESHOLD_PERCENT cfg
      < permanentFailureRatio cfg stations * 100)%Q)
  ∧ ((PERMANENT_FAILURE_THRESHOLD_PERCENT cfg == 2)%Q →
     length stations = 100%nat →
     (length (filter (isPermanentlyFailed cfg) stations) = 2%nat →
      exitCode (main cfg txt e w) = 0)
     ∧ (length (filter (isPermanentlyFailed cfg) stations) = 3%nat →
        exitCode (main cfg txt e w) ≠ 0)).
Proof.
  intros Hthr Hst Hlen.
  assert (Hiff : exitCode (main cfg txt e w) ≠ 0
                 ↔ (PERMANENT_FAILURE_THRESHOLD_PERCENT cfg
                    < permanentFailureRatio cfg stations * 100)%Q).
  { rewrite (main_exitCode e w stations Hst). by apply thresholdExitCode_spec. }
  split; [exact Hiff | ].
  intros H2 H100. unfold permanentFailureRatio in Hiff.
  rewrite H100 in Hiff. rewrite H2 in Hiff. split; intros Hn; rewrite Hn in Hiff.
  - destruct (decide (exitCode (main cfg txt e w) = 0)) as [ | Hne]; [done | ].
    apply Hiff in Hne. by vm_compute in Hne.
  - apply Hiff. by vm_compute.
Qed.
End ExitStatus.

(** The comparisons of the boundary cases come out the same in binary64:
    2% and 3% of a hundred against a threshold of 2, and 1% and 2% against
    the threshold of 1 that the script is configured with. *)
Lemma threshold_boundary_binary64 :
  PrimFloat.ltb 2 (failedPercent_binary64 2 100) = false
  ∧ PrimFloat.ltb 2 (failedPercent_binary64 3 100) = true
  ∧ PrimFloat.ltb 1 (failedPercent_binary64 1 100) = false
  ∧ PrimFloat.ltb 1 (failedPercent_binary64 2 100) = true.
Proof. repeat split; vm_compute; reflexivity. Qed.

(** With a threshold of two percent and a hundred stations: an invocation
    that finds two permanent failures exits with 0, one that finds three
    exits with a non-zero status. *)
Lemma exit_status_threshold_witness :
  exitCode (main two_percent_config plain_text listing_down_env
              (world_with_run "20250415T000000Z" (hundred_stations 2))) = 0
  ∧ exitCode (main two_percent_config plain_text listing_down_env
                (world_with_run "20250415T000000Z" (hundred_stations 3))) ≠ 0.
Proof.
  split.
  - apply (exit_status_threshold two_percent_config plain_text listing_down_env
             (world_with_run "20250415T000000Z" (hundred_stations 2))
             (hundred_stations 2)).
    + by vm_compute.
    + vm_compute. reflexivity.
    + vm_compute. lia.
    + reflexivity.
    + reflexivity.
    + vm_compute. reflexivity.
  - apply (exit_status_threshold two_percent_config plain_text listing_down_env
             (world_with_run "20250415T000000Z" (hundred_stations 3))
             (hundred_stations 3)).
    + by vm_compute.
    + vm_compute. reflexivity.
    + vm_compute. lia.
    + reflexivity.
    + reflexivity.
    + vm_compute. reflexivity.
Defined.

(** ** Rotation *)
Section RotationFacts.
Context (cfg : config).

Lemma deleteRun_latest_output w f : latest_output (deleteRun w f) = latest_output w.
Proof.
  unfold deleteRun. destruct (getTimestampFromFilename f); [ | done].
  by destruct (String.eqb _ _).
Qed.

Lemma deleteRun_state_dir w f : state_dir (deleteRun w f) ⊆ state_dir w.
Proof.
  unfold deleteRun. destruct (getTimestampFromFilename f); [ | done].
  destruct (String.eqb _ _); [done | apply delete_subseteq].
Qed.

Lemma deleteRun_output_dir w f : output_dir (deleteRun w f) ⊆ output_dir w.
Proof.
  unfold deleteRun. destruct (getTimestampFromFilename f); [ | done].
  destruct (String.eqb _ _); [done | apply delete_subseteq].
Qed.

Lemma foldl_deleteRun files :
  ∀ w, latest_output (foldl deleteRun w files) = latest_output w
       ∧ state_dir (foldl deleteRun w files) ⊆ state_dir w
       ∧ output_dir (foldl deleteRun w files) ⊆ output_dir w.
Proof.
  induction files as [|f files IH]; intros w; simpl; [done | ].
  destruct (IH (deleteRun w f)) as (Ha & Hs & Ho).
  rewrite Ha, deleteRun_latest_output. split; [done | ]. split.
  - etrans; [exact Hs | apply deleteRun_state_dir].
  - etrans; [exact Ho | apply deleteRun_output_dir].
Qed.

(** Rotation only deletes: it writes no file and leaves [stations.json]. *)
Lemma cleanupOldFiles_only_deletes w :
  latest_output (cleanupOldFiles cfg w) = latest_output w
  ∧ state_dir (cleanupOldFiles cfg w) ⊆ state_dir w
  ∧ output_dir (cleanupOldFiles cfg w) ⊆ output_dir w.
Proof.
  unfold cleanupOldFiles. destruct (_ <? _)%nat; [apply foldl_deleteRun | done].
Qed.

Lemma cleanupOldFiles_within_limit w :
  (length (listStateFiles w) ≤ MAX_HISTORY_FILES cfg)%nat →
  cleanupOldFiles cfg w = w.
Proof.
  intros H. unfold cleanupOldFiles. by rewrite (proj2 (Nat.ltb_ge _ _)).
Qed.
End RotationFacts.

(** ** The staleness gate *)

(** A healthy run of six days ago: nothing to do.  One of eight days ago: a
    fresh cycle. *)
Example staleness_gate_six_days :
  determineRunState default_config listing_down_env
    (world_with_run "20250409T000000Z"
       [sample_station (IdNum 1) success 1 (Some (sample_detail (IdNum 1)))])
  = NoRunNeeded [sample_station (IdNum 1) success 1 (Some (sample_detail (IdNum 1)))].
Proof. vm_compute. reflexivity. Qed.

Example staleness_gate_eight_days :
  determineRunState default_config listing_down_env
    (world_with_run "20250407T000000Z"
       [sample_station (IdNum 1) success 1 (Some (sample_detail (IdNum 1)))])
  = StartNewRun.
Proof. vm_compute. reflexivity. Qed.

(** ** Failure of the listing request *)

(** C3, as the script has it.  When the invocation starts a new cycle and
    the listing request fails, it exits with status 1, writes no run
    snapshot and leaves [stations.json] as it is; rotation still runs, so the
    only change to the history is the deletion of the runs beyond the newest
    [MAX_HISTORY_FILES], and a history within that limit is left exactly as
    it was. *)
Theorem listing_failure_outcome (cfg : config) (txt : text_ops) (e : env) (w : world) :
  determineRunState cfg e w = StartNewRun →
  listing_response e = None →
  exitCode (main cfg txt e w) = 1
  ∧ currentStations (main cfg txt e w) = None
  ∧ final_world (main cfg txt e w) = cleanupOldFiles cfg w
  ∧ latest_output (final_world (main cfg txt e w)) = latest_output w
  ∧ state_dir (final_world (main cfg txt e w)) ⊆ state_dir w
  ∧ output_dir (final_world (main cfg txt e w)) ⊆ output_dir w
  ∧ ((length (listStateFiles w) ≤ MAX_HISTORY_FILES cfg)%nat →
     final_world (main cfg txt e w) = w).
Proof.
  intros Hsel Hlist. unfold main. rewrite Hsel.
  unfold fetchStationList. rewrite Hlist. cbn [exitCode currentStations final_world].
  unfold publishAndCleanup. simpl (1 =? 0).  cbv iota.
  destruct (cleanupOldFiles_only_deletes cfg w) as (Ha & Hs & Ho).
  repeat (split; [done | ]).
  apply cleanupOldFiles_within_limit.
Qed.

Lemma listing_failure_outcome_witness :
  exitCode (main default_config plain_text listing_down_env empty_world) = 1
  ∧ currentStations (main default_config plain_text listing_down_env empty_world) = None
  ∧ final_world (main default_config plain_text listing_down_env empty_world)
    = cleanupOldFiles default_config empty_world
  ∧ latest_output (final_world (main default_config plain_text listing_down_env empty_world))
    = latest_output empty_world
  ∧ state_dir (final_world (main default_config plain_text listing_down_env empty_world))
    ⊆ state_dir empty_world
  ∧ output_dir (final_world (main default_config plain_text listing_down_env empty_world))
    ⊆ output_dir empty_world
  ∧ ((length (listStateFiles empty_world) ≤ MAX_HISTORY_FILES default_config)%nat →
     final_world (main default_config plain_text listing_down_env empty_world)
     = empty_world).
Proof.
  apply (listing_failure_outcome default_config plain_text listing_down_env empty_world).
  - reflexivity.
  - reflexivity.
Defined.

(** C3 as stated fails.  A history of eleven runs, the newest healthy and
    five weeks old: the invocation starts a new cycle, the listing request
    fails, and rotation deletes both artifacts of the oldest run. *)
Lemma listing_failure_outcome_counterexample :
  determineRunState default_config listing_down_env eleven_runs = StartNewRun
  ∧ listing_response listing_down_env = None
  ∧ exitCode (main default_config plain_text listing_down_env eleven_runs) = 1
  ∧ is_Some (state_dir eleven_runs !! "data_20250301T000000Z.json")
  ∧ state_dir (final_world (main default_config plain_text listing_down_env eleven_runs))
      !! "data_20250301T000000Z.json" = None
  ∧ is_Some (output_dir eleven_runs !! "stations_20250301T000000Z.json")
  ∧ output_dir (final_world (main default_config plain_text listing_down_env eleven_runs))
      !! "stations_20250301T000000Z.json" = None.
Proof.
  split; [vm_compute; reflexivity | ].
  split; [reflexivity | ].
  split; [vm_compute; reflexivity | ].
  split; [vm_compute; eauto | ].
  split; [vm_compute; reflexivity | ].
  split; [vm_compute; eauto | ].
  vm_compute; reflexivity.
Qed.

(** ** The order of file names *)

Lemma ascii_compare_trans (a b c : ascii) :
  Ascii.compare a b = Lt → Ascii.compare b c = Lt → Ascii.compare a c = Lt.
Proof.
  unfold Ascii.compare. rewrite !N.compare_lt_iff. apply N.lt_trans.
Qed.

Lemma string_compare_refl (s : string) : String.compare s s = Eq.
Proof.
  induction s as [|c s IH]; simpl; [done | ].
  unfold Ascii.compare. by rewrite N.compare_refl.
Qed.

Lemma string_compare_lt_trans (a b c : string) :
  String.compare a b = Lt → String.compare b c = Lt → String.compare a c = Lt.
Proof.
  revert b c. induction a as [|x a IH]; intros [|y b] [|z c]; simpl; try done.
  destruct (Ascii.compare x y) eqn:Exy; [ | | done].
  - apply Ascii.compare_eq_iff in Exy as ->.
    destruct (Ascii.compare y z); [apply IH | done | done].
  - intros _. destruct (Ascii.compare y z) eqn:Eyz; [ | | done].
    + apply Ascii.compare_eq_iff in Eyz as <-. by rewrite Exy.
    + by rewrite (ascii_compare_trans x y z).
Qed.

Lemma string_compare_gt_lt (a b : string) :
  String.compare a b = Gt ↔ String.compare b a = Lt.
Proof.
  rewrite (String.compare_antisym b a). by destruct (String.compare a b).
Qed.

(** [a] is not older than [b]. *)
Lemma not_older_trans : Transitive (in_order descending).
Proof.
  intros a b c. unfold in_order, descending, localeCompare.
  destruct (String.compare a b) eqn:Eab; [ | done | ].
  - apply String.compare_eq_iff in Eab as ->. done.
  - intros _. destruct (String.compare b c) eqn:Ebc; [ | done | ].
    + apply String.compare_eq_iff in Ebc as <-. by rewrite Eab.
    + intros _. apply string_compare_gt_lt in Eab, Ebc.
      pose proof (string_compare_lt_trans _ _ _ Ebc Eab) as H.
      apply string_compare_gt_lt in H. by rewrite H.
Qed.

Lemma descending_asym a b : descending a b = true → descending b a = false.
Proof.
  unfold descending, localeCompare. rewrite (String.compare_antisym a b).
  by destruct (String.compare b a).
Qed.

Lemma listStateFiles_sorted w : StronglySorted (in_order descending) (listStateFiles w).
Proof.
  apply Sorted_StronglySorted; [apply not_older_trans | ].
  apply Array_sort_Sorted, descending_asym.
Qed.

Lemma elem_of_listStateFiles w f :
  f ∈ listStateFiles w ↔ isStateFilename f = true ∧ is_Some (state_dir w !! f).
Proof.
  unfold listStateFiles. rewrite elem_of_Array_sort, list_elem_of_filter.
  rewrite list_elem_of_fmap. split.
  - intros [Hf ([f' x] & -> & Hin)]. split; [done | ].
    apply elem_of_map_to_list in Hin. simpl. eauto.
  - intros [Hf [x Hx]]. split; [done | ]. exists (f, x). split; [done | ].
    by apply elem_of_map_to_list.
Qed.

(** ** Publication *)
Section PublicationFacts.
Context (cfg : config) (txt : text_ops).

Lemma countPermanentlyFailedStations_Permutation l1 l2 :
  l1 ≡ₚ l2 →
  countPermanentlyFailedStations cfg l1 = countPermanentlyFailedStations cfg l2.
Proof. intros Hp. unfold countPermanentlyFailedStations. by rewrite Hp. Qed.

Lemma failedPercent_ratio_Qeq stations :
  (failedPercent (countPermanentlyFailedStations cfg stations) (length stations)
   == permanentFailureRatio cfg stations * 100)%Q.
Proof.
  destruct stations as [|s l] eqn:E.
  - unfold failedPercent, permanentFailureRatio. simpl. by rewrite Qmult_0_l.
  - rewrite <- E. rewrite failedPercent_ratio; [reflexivity | ]. subst. simpl. lia.
Qed.

Lemma usableCompleteState_spec w f :
  isStateFilename f = true →
  usableCompleteState cfg w f = true ↔ healthyRun cfg w f.
Proof.
  intros Hf. unfold usableCompleteState, healthyRun, loadState.
  destruct (state_dir w !! f) as [[|stations]|] eqn:E.
  - split; [done | ]. intros [_ (st & [=] & _)].
  - pose proof (sortStationsById_Permutation stations) as Hp.
    rewrite andb_true_iff, Qle_bool_iff.
    rewrite (isStateComplete_Permutation cfg _ _ Hp).
    rewrite (countPermanentlyFailedStations_Permutation _ _ Hp).
    rewrite (Permutation_length Hp).
    rewrite isStateComplete_isRunComplete, failedPercent_ratio_Qeq.
    split.
    + intros [Hc Hq]. split; [done | ]. by exists stations.
    + intros [_ (st & [= <-] & Hc & Hq)]. done.
  - split; [done | ]. intros [_ (st & [=] & _)].
Qed.

Lemma findLatestComplete_first w files f :
  findLatestComplete cfg w files = Some f →
  usableCompleteState cfg w f = true
  ∧ ∃ newer older,
      files = newer ++ f :: older
      ∧ Forall (λ g, usableCompleteState cfg w g = false) newer.
Proof.
  induction files as [|g files IH]; simpl; [done | ].
  destruct (usableCompleteState cfg w g) eqn:E.
  - intros [= <-]. split; [done | ]. exists [], files. by split.
  - intros H. destruct (IH H) as (Hu & newer & older & -> & Hn).
    split; [done | ]. exists (g :: newer), older. split; [done | by constructor].
Qed.


Lemma findLatestComplete_is_Some w files g :
  g ∈ files → usableCompleteState cfg w g = true →
  is_Some (findLatestComplete cfg w files).
Proof.
  induction files as [|x files IH]; [by intros ?%elem_of_nil | ].
  intros [-> | Hin]%elem_of_cons Hg; simpl.
  - rewrite Hg. eauto.
  - destruct (usableCompleteState cfg w x); [eauto | by apply IH].
Qed.

Lemma healthyRun_listed w f : healthyRun cfg w f → f ∈ listStateFiles w.
Proof.
  intros [Hf (st & Hst & _)]. apply elem_of_listStateFiles. split; [done | eauto].
Qed.

(** The search of [updateLatestCompleteOutput] finds the newest healthy run. *)
Lemma findLatestComplete_newest w f :
  newestHealthyRun cfg w f →
  findLatestComplete cfg w (listStateFiles w) = Some f.
Proof.
  intros [Hh Hnew].
  pose proof (healthyRun_listed w f Hh) as Hin.
  assert (Hu : usableCompleteState cfg w f = true).
  { apply usableCompleteState_spec; [apply Hh | done]. }
  destruct (findLatestComplete_is_Some w _ f Hin Hu) as [g Hg].
  rewrite Hg. f_equal.
  destruct (findLatestComplete_first w _ g Hg) as (Hgu & newer & older & Hl & Hn).
  pose proof (listStateFiles_sorted w) as Hs. rewrite Hl in Hs, Hin.
  apply elem_of_app in Hin as [Hin | Hin].
  { rewrite Forall_forall in Hn. rewrite (Hn f Hin) in Hu. done. }
  apply elem_of_cons in Hin as [-> | Hin]; [done | ].
  apply StronglySorted_app_1_r, StronglySorted_cons in Hs as [Hs _].
  rewrite Forall_forall in Hs. specialize (Hs f Hin).
  unfold in_order, descending in Hs.
  assert (Hgh : healthyRun cfg w g).
  { apply usableCompleteState_spec; [ | done].
    assert (g ∈ listStateFiles w) as Hgin
      by (rewrite Hl; apply elem_of_app; right; apply list_elem_of_here).
    by apply elem_of_listStateFiles in Hgin as [? _]. }
  specialize (Hnew g Hgh).
  destruct (localeCompare g f) eqn:E; [ | done | done].
  by apply String.compare_eq_iff in E.
Qed.

Lemma updateLatestCompleteOutput_newest w f timestamp :
  newestHealthyRun cfg w f →
  getTimestampFromFilename f = Some timestamp →
  latest_output (updateLatestCompleteOutput cfg w)
  = if String.eqb timestamp "" then latest_output w
    else match output_dir w !! outputFilename (Some timestamp) with
         | Some content => Some content
         | None => latest_output w
         end.
Proof.
  intros Hn Hts. unfold updateLatestCompleteOutput.
  rewrite (findLatestComplete_newest w f Hn), Hts.
  destruct (String.eqb timestamp ""); [done | ].
  by destruct (output_dir w !! _).
Qed.

End PublicationFacts.

Section MainPublication.
Context (cfg : config) (txt : text_ops).

Lemma processLoop_latest_output e sp op batch todo :
  ∀ i st,
    latest_output (lp_world (processLoop cfg txt e sp op batch todo i st))
    = latest_output (lp_world st).
Proof.
  induction todo as [|s todo IH]; intros i st; simpl; [done | ].
  destruct (MAX_DURATION_MS cfg <=? _); [done | ].
  destruct (negb (truthy (st_id s))); [by rewrite IH | ].
  destruct (findIndex (st_id s) (lp_stations st)); [ | by rewrite IH].
  destruct (_ || _); [unfold saveState | ]; cbv beta iota zeta; by rewrite IH.
Qed.

Lemma saveState_latest_output state sp op w :
  latest_output (saveState txt state sp op w).2 = latest_output w.
Proof. done. Qed.

Lemma processStations_latest_output e stations sp op w :
  latest_output (lp_world (processStations cfg txt e stations sp op w))
  = latest_output w.
Proof.
  unfold processStations. destruct (take _ _) as [|s l]; [done | ].
  match goal with
  | |- context [saveState txt ?st sp op ?w'] =>
      pose proof (saveState_latest_output st sp op w') as H;
      destruct (saveState txt st sp op w') as [st1 w1]
  end.
  cbn [lp_world]. cbn [snd] in H. rewrite H. apply processLoop_latest_output.
Qed.

Lemma processAndEvaluate_latest_output e startNewRun stations sp op w :
  latest_output (processAndEvaluate cfg txt e startNewRun stations sp op w).2
  = latest_output w.
Proof.
  unfold processAndEvaluate.
  destruct (negb (isStateComplete cfg stations)).
  - simpl. apply processStations_latest_output.
  - by destruct (negb startNewRun).
Qed.

Lemma worldBeforePublication_latest_output e w :
  latest_output (worldBeforePublication cfg txt e w) = latest_output w.
Proof.
  unfold worldBeforePublication. destruct (determineRunState cfg e w); [ | done | ].
  - apply processAndEvaluate_latest_output.
  - destruct (fetchStationList e); [ | done].
    by rewrite processAndEvaluate_latest_output.
Qed.

(** An invocation that exits with status 0 ends by publishing and rotating
    on the file system its work left. *)
Lemma main_final_world e w :
  exitCode (main cfg txt e w) = 0 →
  final_world (main cfg txt e w)
  = cleanupOldFiles cfg
      (updateLatestCompleteOutput cfg (worldBeforePublication cfg txt e w)).
Proof.
  unfold main, worldBeforePublication.
  destruct (determineRunState cfg e w) as [st sp op | st | ].
  - destruct (processAndEvaluate cfg txt e false st sp op w) as [[code st'] w'].
    simpl. intros ->. done.
  - done.
  - destruct (fetchStationList e) as [st|]; [ | done].
    destruct (saveState txt st _ _ w) as [st1 w1]. simpl.
    destruct (processAndEvaluate cfg txt e true st1 _ _ w1) as [[code st'] w'].
    simpl. intros ->. done.
Qed.

End MainPublication.



(** ** Timestamps *)

Ltac zdiv := Z.div_mod_to_equations; lia.

Lemma forallb_range (P : Z → bool) (lo len : Z) :
  forallb P (seqZ lo len) = true → ∀ n, lo ≤ n < lo + len → P n = true.
Proof.
  intros H n Hn. rewrite forallb_forall in H. apply H.
  apply list_elem_of_In, elem_of_seqZ. lia.
Qed.

Lemma padStart_two_digits n :
  0 ≤ n < 100 → padStart 2 "0" (String_of_number n) = two_digits n "".
Proof.
  intros Hn. apply String.eqb_eq.
  apply (forallb_range
           (λ n, String.eqb (padStart 2 "0" (String_of_number n)) (two_digits n ""))
           0 100); [vm_compute; reflexivity | lia].
Qed.

Lemma String_of_number_four_digits n :
  1000 ≤ n ≤ 9999 → String_of_number n = four_digits n "".
Proof.
  intros Hn. apply String.eqb_eq.
  apply (forallb_range (λ n, String.eqb (String_of_number n) (four_digits n ""))
           1000 9000); [vm_compute; reflexivity | lia].
Qed.

Lemma YearFromDay_bounds d :
  DayFromYear (YearFromDay d) ≤ d < DayFromYear (YearFromDay d + 1).
Proof.
  unfold YearFromDay.
  set (y := 1970 + 400 * d / 146097).
  assert (Hy : 146097 * (y - 1970) ≤ 400 * d < 146097 * (y - 1970) + 146097)
    by (subst y; zdiv).
  clearbody y.
  destruct (DayFromYear (y + 1) <=? d) eqn:E1;
    [apply Z.leb_le in E1 | apply Z.leb_gt in E1].
  - split; [done | ]. unfold DayFromYear in *. zdiv.
  - destruct (DayFromYear y <=? d) eqn:E2;
      [apply Z.leb_le in E2 | apply Z.leb_gt in E2].
    + done.
    + replace (y - 1 + 1) with y by lia. split; [ | lia].
      unfold DayFromYear in *. zdiv.
Qed.

Lemma DaysInYear_cases y : DaysInYear y = 365 ∨ DaysInYear y = 366.
Proof. unfold DaysInYear, DayFromYear. zdiv. Qed.

Lemma DayFromYear_mono y1 y2 : y1 ≤ y2 → DayFromYear y1 ≤ DayFromYear y2.
Proof. unfold DayFromYear. zdiv. Qed.

(** The fields of an instant, and their ranges. *)
Lemma DayWithinYear_range t :
  0 ≤ DayWithinYear t < DaysInYear (YearFromTime t).
Proof.
  unfold DayWithinYear, DaysInYear, YearFromTime.
  pose proof (YearFromDay_bounds (Day t)). lia.
Qed.

Lemma InLeapYear_cases t : InLeapYear t = 0 ∨ InLeapYear t = 1.
Proof. unfold InLeapYear. destruct (DaysInYear_cases (YearFromTime t)); lia. Qed.

Lemma MonthFromTime_range t :
  0 ≤ MonthFromTime t ≤ 11
  ∧ month_start (InLeapYear t) (MonthFromTime t) ≤ DayWithinYear t
    < month_start (InLeapYear t) (MonthFromTime t + 1).
Proof.
  pose proof (DayWithinYear_range t) as Hd.
  assert (Hl : DaysInYear (YearFromTime t) = 365 + InLeapYear t)
    by (unfold InLeapYear; lia).
  rewrite Hl in Hd. unfold MonthFromTime.
  destruct (InLeapYear_cases t) as [Hleap | Hleap]; rewrite Hleap in *;
    repeat (match goal with
            | |- context [if ?a <? ?b then _ else _] =>
                destruct (Z.ltb_spec a b)
            end); simpl; lia.
Qed.

Lemma DateFromTime_range t :
  1 ≤ DateFromTime t ≤ 31
  ∧ DateFromTime t
    ≤ month_start (InLeapYear t) (MonthFromTime t + 1)
      - month_start (InLeapYear t) (MonthFromTime t).
Proof.
  destruct (MonthFromTime_range t) as [Hm Hd]. unfold DateFromTime.
  split; [ | lia].
  assert (Hlen : month_start (InLeapYear t) (MonthFromTime t + 1)
                 - month_start (InLeapYear t) (MonthFromTime t) ≤ 31).
  { destruct (InLeapYear_cases t) as [Hleap | Hleap]; rewrite Hleap in *;
      assert (Hc : MonthFromTime t = 0 ∨ MonthFromTime t = 1 ∨ MonthFromTime t = 2
                   ∨ MonthFromTime t = 3 ∨ MonthFromTime t = 4 ∨ MonthFromTime t = 5
                   ∨ MonthFromTime t = 6 ∨ MonthFromTime t = 7 ∨ MonthFromTime t = 8
                   ∨ MonthFromTime t = 9 ∨ MonthFromTime t = 10
                   ∨ MonthFromTime t = 11) by lia;
      repeat (destruct Hc as [-> | Hc]); try rewrite Hc; simpl; lia. }
  lia.
Qed.

Lemma time_of_day_range t :
  0 ≤ HourFromTime t < 24 ∧ 0 ≤ MinFromTime t < 60 ∧ 0 ≤ SecFromTime t < 60.
Proof.
  unfold HourFromTime, MinFromTime, SecFromTime, msPerHour, msPerMinute, msPerSecond.
  zdiv.
Qed.

(** The timestamp of an instant in a year of four digits is the text of its
    fields. *)
Lemma generateTimestamp_text t :
  1000 ≤ YearFromTime t ≤ 9999 →
  generateTimestamp t
  = timestamp_text (YearFromTime t) (MonthFromTime t + 1) (DateFromTime t)
      (HourFromTime t) (MinFromTime t) (SecFromTime t).
Proof.
  intros Hy. unfold generateTimestamp.
  destruct (MonthFromTime_range t) as [Hm _].
  destruct (DateFromTime_range t) as [Hd _].
  destruct (time_of_day_range t) as (Hh & Hmi & Hs).
  rewrite String_of_number_four_digits by done.
  rewrite !padStart_two_digits by lia.
  reflexivity.
Qed.

Lemma digit_cases k :
  0 ≤ k ≤ 9 →
  k = 0 ∨ k = 1 ∨ k = 2 ∨ k = 3 ∨ k = 4 ∨ k = 5 ∨ k = 6 ∨ k = 7 ∨ k = 8 ∨ k = 9.
Proof. lia. Qed.

Lemma digit_of_ascii_digit_char k : 0 ≤ k ≤ 9 → digit_of_ascii (digit_char k) = Some k.
Proof.
  intros Hk. destruct (digit_cases k Hk) as [-> | H]; [reflexivity | ].
  repeat (destruct H as [-> | H]; [reflexivity | ]). by subst.
Qed.

Lemma digits_value_two_digits n acc :
  0 ≤ n < 100 → digits_value (two_digits n "") acc = Some (100 * acc + n).
Proof.
  intros Hn. unfold two_digits. cbn [digits_value].
  rewrite !digit_of_ascii_digit_char by zdiv. f_equal. zdiv.
Qed.

Lemma digits_value_four_digits n :
  0 ≤ n ≤ 9999 → digits_value (four_digits n "") 0 = Some n.
Proof.
  intros Hn. unfold four_digits. cbn [digits_value].
  rewrite !digit_of_ascii_digit_char by zdiv.
  rewrite digits_value_two_digits by zdiv. f_equal. zdiv.
Qed.

(** Parsing the text of valid fields gives the instant they denote. *)
Lemma parseTimestamp_text year month day hours minutes seconds :
  0 ≤ year ≤ 9999 → 1 ≤ month ≤ 12 → 1 ≤ day ≤ 31 →
  0 ≤ hours ≤ 23 → 0 ≤ minutes ≤ 59 → 0 ≤ seconds ≤ 59 →
  parseTimestamp (Some (timestamp_text year month day hours minutes seconds))
  = Some (MakeDate (MakeDay year (month - 1) day) (MakeTime hours minutes seconds 0)).
Proof.
  intros Hy Hmo Hd Hh Hmi Hs.
  assert (Hparse :
    parseTimestamp (Some (timestamp_text year month day hours minutes seconds))
    = (y ← digits_value (four_digits year "") 0;
       mo ← digits_value (two_digits month "") 0;
       d ← digits_value (two_digits day "") 0;
       h ← digits_value (two_digits hours "") 0;
       mi ← digits_value (two_digits minutes "") 0;
       s ← digits_value (two_digits seconds "") 0;
       if (1 <=? mo) && (mo <=? 12) && (1 <=? d) && (d <=? 31)
          && (mi <=? 59) && (s <=? 59)
          && ((h <=? 23) || ((h =? 24) && (mi =? 0) && (s =? 0)))
       then Some (MakeDate (MakeDay y (mo - 1) d) (MakeTime h mi s 0))
       else None)) by reflexivity.
  rewrite Hparse. clear Hparse.
  rewrite digits_value_four_digits by lia.
  rewrite !digits_value_two_digits by lia.
  cbn [mbind option_bind]. rewrite !Z.mul_0_r, !Z.add_0_l.
  rewrite !(proj2 (Z.leb_le _ _)) by lia. reflexivity.
Qed.

Lemma MakeDay_fields t :
  MakeDay (YearFromTime t) (MonthFromTime t + 1 - 1) (DateFromTime t) = Day t.
Proof.
  destruct (MonthFromTime_range t) as [Hm _].
  unfold MakeDay. replace (MonthFromTime t + 1 - 1) with (MonthFromTime t) by lia.
  rewrite Z.div_small, Z.mod_small, Z.add_0_r by lia.
  unfold DateFromTime, DayWithinYear, InLeapYear. lia.
Qed.

Lemma MakeDate_fields t :
  MakeDate (Day t) (MakeTime (HourFromTime t) (MinFromTime t) (SecFromTime t) 0)
  = 1000 * (t / 1000).
Proof.
  unfold MakeDate, MakeTime, Day, HourFromTime, MinFromTime, SecFromTime,
    msPerDay, msPerHour, msPerMinute, msPerSecond. zdiv.
Qed.

Lemma parse_generated_timestamp t :
  1000 ≤ YearFromTime t ≤ 9999 →
  parseTimestamp (Some (generateTimestamp t)) = Some (1000 * (t / 1000)).
Proof.
  intros Hy. rewrite generateTimestamp_text by done.
  destruct (MonthFromTime_range t) as [Hm _].
  destruct (DateFromTime_range t) as [Hd _].
  destruct (time_of_day_range t) as (Hh & Hmi & Hs).
  rewrite parseTimestamp_text by lia.
  by rewrite MakeDay_fields, MakeDate_fields.
Qed.

(** *** The order of timestamps *)

Lemma ascii_compare_digit_char a b :
  0 ≤ a ≤ 9 → 0 ≤ b ≤ 9 → Ascii.compare (digit_char a) (digit_char b) = (a ?= b).
Proof.
  intros Ha Hb.
  destruct (digit_cases a Ha) as [-> | H1];
    [ | repeat (destruct H1 as [-> | H1]; [ | ]); try subst a ];
    (destruct (digit_cases b Hb) as [-> | H2];
     [ | repeat (destruct H2 as [-> | H2]; [ | ]); try subst b ]);
    reflexivity.
Qed.

Ltac compare_cases :=
  repeat match goal with
         | |- context [?a ?= ?b] => destruct (Z.compare_spec a b)
         end.

Lemma compare_two_digits n1 n2 r1 r2 :
  0 ≤ n1 < 100 → 0 ≤ n2 < 100 →
  String.compare (two_digits n1 r1) (two_digits n2 r2)
  = match n1 ?= n2 with
    | Eq => String.compare r1 r2
    | c => c
    end.
Proof.
  intros H1 H2. unfold two_digits. cbn [String.compare].
  rewrite !ascii_compare_digit_char by zdiv.
  compare_cases; try reflexivity; exfalso; zdiv.
Qed.

Lemma compare_four_digits n1 n2 r1 r2 :
  0 ≤ n1 ≤ 9999 → 0 ≤ n2 ≤ 9999 →
  String.compare (four_digits n1 r1) (four_digits n2 r2)
  = match n1 ?= n2 with
    | Eq => String.compare r1 r2
    | c => c
    end.
Proof.
  intros H1 H2. unfold four_digits. cbn [String.compare].
  rewrite !ascii_compare_digit_char by zdiv.
  rewrite compare_two_digits by zdiv.
  compare_cases; try reflexivity; exfalso; zdiv.
Qed.

(** The order of two timestamp texts is the order of their fields, the year
    first. *)
Lemma compare_timestamp_text y1 mo1 d1 h1 mi1 s1 y2 mo2 d2 h2 mi2 s2 :
  0 ≤ y1 ≤ 9999 → 0 ≤ mo1 < 100 → 0 ≤ d1 < 100 →
  0 ≤ h1 < 100 → 0 ≤ mi1 < 100 → 0 ≤ s1 < 100 →
  0 ≤ y2 ≤ 9999 → 0 ≤ mo2 < 100 → 0 ≤ d2 < 100 →
  0 ≤ h2 < 100 → 0 ≤ mi2 < 100 → 0 ≤ s2 < 100 →
  String.compare (timestamp_text y1 mo1 d1 h1 mi1 s1) (timestamp_text y2 mo2 d2 h2 mi2 s2)
  = match y1 ?= y2 with
    | Eq => match mo1 ?= mo2 with
            | Eq => match d1 ?= d2 with
                    | Eq => match h1 ?= h2 with
                            | Eq => match mi1 ?= mi2 with
                                    | Eq => s1 ?= s2
                                    | c => c
                                    end
                            | c => c
                            end
                    | c => c
                    end
            | c => c
            end
    | c => c
    end.
Proof.
  intros. unfold timestamp_text.
  rewrite compare_four_digits by done.
  rewrite !compare_two_digits by done.
  change (String.compare (String "T" ?a) (String "T" ?b)) with (String.compare a b).
  rewrite !compare_two_digits by done.
  change (String.compare "Z" "Z") with Eq.
  by destruct (s1 ?= s2).
Qed.

Lemma month_start_mono leap a b :
  0 ≤ leap → 0 ≤ a ≤ b → b ≤ 12 → month_start leap a ≤ month_start leap b.
Proof.
  intros Hl Hab Hb.
  assert (Ha : a = 0 ∨ a = 1 ∨ a = 2 ∨ a = 3 ∨ a = 4 ∨ a = 5 ∨ a = 6 ∨ a = 7
               ∨ a = 8 ∨ a = 9 ∨ a = 10 ∨ a = 11 ∨ a = 12) by lia.
  assert (Hb' : b = 0 ∨ b = 1 ∨ b = 2 ∨ b = 3 ∨ b = 4 ∨ b = 5 ∨ b = 6 ∨ b = 7
                ∨ b = 8 ∨ b = 9 ∨ b = 10 ∨ b = 11 ∨ b = 12) by lia.
  repeat (destruct Ha as [-> | Ha]); try subst a;
    repeat (destruct Hb' as [-> | Hb']); try subst b; simpl; lia.
Qed.

Lemma day_of_year_range year month day :
  1 ≤ month ≤ 12 →
  1 ≤ day ≤ month_start (DaysInYear year - 365) month
            - month_start (DaysInYear year - 365) (month - 1) →
  month_start (DaysInYear year - 365) (month - 1)
  ≤ month_start (DaysInYear year - 365) (month - 1) + day - 1
  < month_start (DaysInYear year - 365) month
  ∧ 0 ≤ month_start (DaysInYear year - 365) (month - 1)
  ∧ month_start (DaysInYear year - 365) month ≤ DaysInYear year.
Proof.
  intros Hm Hd.
  assert (Hl : 0 ≤ DaysInYear year - 365) by (destruct (DaysInYear_cases year); lia).
  pose proof (month_start_mono _ 0 (month - 1) Hl ltac:(lia) ltac:(lia)) as H0.
  pose proof (month_start_mono _ month 12 Hl ltac:(lia) ltac:(lia)) as H12.
  simpl in H0, H12. lia.
Qed.

(** The order of valid fields, the year first, is the order of the seconds
    they denote. *)
Lemma compare_fields_seconds y1 mo1 d1 h1 mi1 s1 y2 mo2 d2 h2 mi2 s2 :
  valid_fields y1 mo1 d1 h1 mi1 s1 →
  valid_fields y2 mo2 d2 h2 mi2 s2 →
  match y1 ?= y2 with
  | Eq => match mo1 ?= mo2 with
          | Eq => match d1 ?= d2 with
                  | Eq => match h1 ?= h2 with
                          | Eq => match mi1 ?= mi2 with
                                  | Eq => s1 ?= s2
                                  | c => c
                                  end
                          | c => c
                          end
                  | c => c
                  end
          | c => c
          end
  | c => c
  end
  = (seconds_of_fields y1 mo1 d1 h1 mi1 s1 ?= seconds_of_fields y2 mo2 d2 h2 mi2 s2).
Proof.
  intros (Hmo1 & Hd1 & Hh1 & Hmi1 & Hs1) (Hmo2 & Hd2 & Hh2 & Hmi2 & Hs2).
  destruct (day_of_year_range y1 mo1 d1 Hmo1 Hd1) as (Hr1 & Hlo1 & Hhi1).
  destruct (day_of_year_range y2 mo2 d2 Hmo2 Hd2) as (Hr2 & Hlo2 & Hhi2).
  unfold seconds_of_fields. symmetry.
  destruct (Z.compare_spec y1 y2) as [-> | Hy | Hy].
  - destruct (Z.compare_spec mo1 mo2) as [-> | Hm | Hm].
    + destruct (Z.compare_spec d1 d2) as [-> | Hd | Hd].
      * destruct (Z.compare_spec h1 h2) as [-> | Hh | Hh].
        -- destruct (Z.compare_spec mi1 mi2) as [-> | Hmi | Hmi].
           ++ destruct (Z.compare_spec s1 s2) as [-> | Hs | Hs].
              ** apply Z.compare_refl.
              ** apply Z.compare_lt_iff. lia.
              ** apply Z.compare_gt_iff. lia.
           ++ apply Z.compare_lt_iff. lia.
           ++ apply Z.compare_gt_iff. lia.
        -- apply Z.compare_lt_iff. lia.
        -- apply Z.compare_gt_iff. lia.
      * apply Z.compare_lt_iff. lia.
      * apply Z.compare_gt_iff. lia.
    + pose proof (month_start_mono (DaysInYear y2 - 365) mo1 (mo2 - 1)
                    ltac:(destruct (DaysInYear_cases y2); lia) ltac:(lia) ltac:(lia)).
      apply Z.compare_lt_iff. lia.
    + pose proof (month_start_mono (DaysInYear y2 - 365) mo2 (mo1 - 1)
                    ltac:(destruct (DaysInYear_cases y2); lia) ltac:(lia) ltac:(lia)).
      apply Z.compare_gt_iff. lia.
  - pose proof (DayFromYear_mono (y1 + 1) y2 ltac:(lia)).
    pose proof (eq_refl : DaysInYear y1 = DayFromYear (y1 + 1) - DayFromYear y1).
    apply Z.compare_lt_iff. lia.
  - pose proof (DayFromYear_mono (y2 + 1) y1 ltac:(lia)).
    pose proof (eq_refl : DaysInYear y2 = DayFromYear (y2 + 1) - DayFromYear y2).
    apply Z.compare_gt_iff. lia.
Qed.

Lemma fields_of_instant_valid t :
  valid_fields (YearFromTime t) (MonthFromTime t + 1) (DateFromTime t)
    (HourFromTime t) (MinFromTime t) (SecFromTime t).
Proof.
  destruct (MonthFromTime_range t) as [Hm _].
  destruct (DateFromTime_range t) as [Hd Hd'].
  destruct (time_of_day_range t) as (Hh & Hmi & Hs).
  unfold valid_fields. replace (MonthFromTime t + 1 - 1) with (MonthFromTime t) by lia.
  fold (InLeapYear t). repeat split; lia.
Qed.

Lemma seconds_of_instant t :
  seconds_of_fields (YearFromTime t) (MonthFromTime t + 1) (DateFromTime t)
    (HourFromTime t) (MinFromTime t) (SecFromTime t) = t / 1000.
Proof.
  pose proof (MakeDay_fields t) as Hday. pose proof (MakeDate_fields t) as Hdate.
  destruct (MonthFromTime_range t) as [Hm _].
  unfold MakeDay in Hday.
  rewrite Z.div_small, Z.mod_small, Z.add_0_r in Hday by lia.
  unfold seconds_of_fields. rewrite Hday.
  unfold MakeDate, MakeTime, msPerDay, msPerHour, msPerMinute, msPerSecond in Hdate.
  lia.
Qed.

(** The timestamps of two instants in years of four digits compare as the
    instants do, second by second. *)
Lemma compare_generated_timestamps t1 t2 :
  1000 ≤ YearFromTime t1 ≤ 9999 → 1000 ≤ YearFromTime t2 ≤ 9999 →
  String.compare (generateTimestamp t1) (generateTimestamp t2) = (t1 / 1000 ?= t2 / 1000).
Proof.
  intros Hy1 Hy2. rewrite !generateTimestamp_text by done.
  destruct (MonthFromTime_range t1) as [Hm1 _].
  destruct (DateFromTime_range t1) as [Hd1 _].
  destruct (time_of_day_range t1) as (Hh1 & Hmi1 & Hs1).
  destruct (MonthFromTime_range t2) as [Hm2 _].
  destruct (DateFromTime_range t2) as [Hd2 _].
  destruct (time_of_day_range t2) as (Hh2 & Hmi2 & Hs2).
  rewrite compare_timestamp_text by lia.
  rewrite (compare_fields_seconds _ _ _ _ _ _ _ _ _ _ _ _
             (fields_of_instant_valid t1) (fields_of_instant_valid t2)).
  by rewrite !seconds_of_instant.
Qed.

Lemma compare_append_prefix p a b :
  String.compare (p +:+ a) (p +:+ b) = String.compare a b.
Proof.
  induction p as [|c p IH]; simpl; [done | ].
  unfold Ascii.compare. by rewrite N.compare_refl.
Qed.

Lemma compare_append_suffix a b s :
  String.length a = String.length b →
  String.compare (a +:+ s) (b +:+ s) = String.compare a b.
Proof.
  revert b. induction a as [|x a IH]; intros [|y b]; simpl; try done.
  - intros _. apply string_compare_refl.
  - intros [= Hlen]. rewrite (IH b Hlen). done.
Qed.

Lemma compare_stateFilename a b :
  String.length a = String.length b →
  localeCompare (stateFilename a) (stateFilename b) = String.compare a b.
Proof.
  intros Hlen. unfold localeCompare, stateFilename.
  by rewrite compare_append_prefix, compare_append_suffix.
Qed.

Lemma generateTimestamp_length t :
  1000 ≤ YearFromTime t ≤ 9999 → String.length (generateTimestamp t) = 16%nat.
Proof. intros Hy. by rewrite generateTimestamp_text. Qed.

Lemma getTimestampFromFilename_generated t :
  1000 ≤ YearFromTime t ≤ 9999 →
  getTimestampFromFilename (stateFilename (generateTimestamp t))
  = Some (generateTimestamp t).
Proof. intros Hy. by rewrite generateTimestamp_text. Qed.

(** C10, as the script has it.  For an instant whose UTC year has four
    digits (1000 to 9999), the timestamp generated at that instant parses,
    also when it is read back from the name of the state file, to the same
    instant truncated to whole seconds; and for two such instants the order
    of the generated timestamps, and of the file names made from them, is
    the chronological order of their seconds. *)
Theorem timestamp_roundtrip_and_order (t1 t2 : Z) :
  1000 ≤ YearFromTime t1 ≤ 9999 →
  1000 ≤ YearFromTime t2 ≤ 9999 →
  parseTimestamp (Some (generateTimestamp t1)) = Some (1000 * (t1 / 1000))
  ∧ parseTimestamp (getTimestampFromFilename (stateFilename (generateTimestamp t1)))
    = Some (1000 * (t1 / 1000))
  ∧ localeCompare (generateTimestamp t1) (generateTimestamp t2)
    = (t1 / 1000 ?= t2 / 1000)
  ∧ localeCompare (stateFilename (generateTimestamp t1))
      (stateFilename (generateTimestamp t2))
    = (t1 / 1000 ?= t2 / 1000).
Proof.
  intros Hy1 Hy2.
  split; [by apply parse_generated_timestamp | ].
  split; [rewrite getTimestampFromFilename_generated by done;
          by apply parse_generated_timestamp | ].
  split; [by apply compare_generated_timestamps | ].
  rewrite compare_stateFilename by (by rewrite !generateTimestamp_length).
  by apply compare_generated_timestamps.
Qed.

(** 13:12:16.123 and 13:12:17 on 15 April 2025. *)
Lemma timestamp_roundtrip_and_order_witness :
  parseTimestamp (Some (generateTimestamp 1744722736123)) = Some (1000 * (1744722736123 / 1000))
  ∧ parseTimestamp
      (getTimestampFromFilename (stateFilename (generateTimestamp 1744722736123)))
    = Some (1000 * (1744722736123 / 1000))
  ∧ localeCompare (generateTimestamp 1744722736123) (generateTimestamp 1744722737000)
    = (1744722736123 / 1000 ?= 1744722737000 / 1000)
  ∧ localeCompare (stateFilename (generateTimestamp 1744722736123))
      (stateFilename (generateTimestamp 1744722737000))
    = (1744722736123 / 1000 ?= 1744722737000 / 1000).
Proof.
  apply (timestamp_roundtrip_and_order 1744722736123 1744722737000).
  - vm_compute. split; discriminate.
  - vm_compute. split; discriminate.
Defined.

(** C10 as stated fails.  The first instant of the year 10000 gets a
    timestamp of seventeen characters, which does not parse and which sorts
    before the timestamp of the second before it. *)
Lemma timestamp_roundtrip_and_order_counterexample :
  YearFromTime 253402300800000 = 10000
  ∧ generateTimestamp 253402300800000 = "100000101T000000Z"
  ∧ parseTimestamp (Some (generateTimestamp 253402300800000)) = None
  ∧ generateTimestamp 253402300799000 = "99991231T235959Z"
  ∧ 253402300799000 < 253402300800000
  ∧ localeCompare (generateTimestamp 253402300800000) (generateTimestamp 253402300799000)
    = Lt.
Proof. repeat split; vm_compute; reflexivity. Qed.

(** * Further properties of the script *)

(** ** Strings *)

Lemma append_cons (c : ascii) (a b : string) :
  String c a +:+ b = String c (a +:+ b).
Proof. reflexivity. Qed.

Lemma length_append (a b : string) :
  String.length (a +:+ b) = (String.length a + String.length b)%nat.
Proof. induction a as [|c a IH]; simpl; [done | by rewrite IH]. Qed.

Lemma substring_append_l (a b : string) :
  String.substring 0 (String.length a) (a +:+ b) = a.
Proof.
  induction a as [|c a IH]; simpl; [by destruct b | by rewrite IH].
Qed.

Lemma substring_append_r (a b : string) (k n : nat) :
  String.substring (String.length a + k) n (a +:+ b) = String.substring k n b.
Proof. induction a as [|c a IH]; simpl; done. Qed.

Lemma substring_all (s : string) : String.substring 0 (String.length s) s = s.
Proof. induction s as [|c s IH]; simpl; [done | by rewrite IH]. Qed.

Lemma substring_split (s : string) (n : nat) :
  (n ≤ String.length s)%nat →
  s = String.substring 0 n s +:+ String.substring n (String.length s - n) s.
Proof.
  revert n. induction s as [|c s IH]; intros [|n] Hn; simpl in *; try lia; try done.
  - by rewrite substring_all.
  - rewrite append_cons. f_equal. apply IH. lia.
Qed.

Lemma prefix_append (p s : string) : String.prefix p (p +:+ s) = true.
Proof.
  induction p as [|c p IH]; simpl; [by destruct s | ].
  destruct (ascii_dec c c); [done | congruence].
Qed.

Lemma prefix_decompose (p s : string) :
  String.prefix p s = true → ∃ r, s = p +:+ r.
Proof.
  revert s. induction p as [|c p IH]; intros s; [by exists s | ].
  destruct s as [|c' s]; simpl; [done | ].
  destruct (ascii_dec c c') as [<- | ]; [ | done].
  intros (r & ->)%IH. by exists r.
Qed.

Lemma endsWith_append (a s : string) : endsWith s (a +:+ s) = true.
Proof.
  unfold endsWith. rewrite length_append.
  rewrite (proj2 (Nat.leb_le _ _)) by lia.
  replace (String.length a + String.length s - String.length s)%nat
    with (String.length a + 0)%nat by lia.
  rewrite substring_append_r, substring_all. apply String.eqb_refl.
Qed.

Lemma endsWith_decompose (s f : string) :
  endsWith s f = true → ∃ a, f = a +:+ s.
Proof.
  unfold endsWith. intros [Hlen Heq%String.eqb_eq]%andb_true_iff.
  apply Nat.leb_le in Hlen.
  exists (String.substring 0 (String.length f - String.length s) f).
  pose proof (substring_split f (String.length f - String.length s) ltac:(lia)) as H.
  replace (String.length f - (String.length f - String.length s))%nat
    with (String.length s) in H by lia.
  by rewrite Heq in H.
Qed.

Lemma endsWith_append_long (p r s : string) :
  (String.length s ≤ String.length r)%nat →
  endsWith s (p +:+ r) = endsWith s r.
Proof.
  intros Hlen. unfold endsWith. rewrite length_append.
  rewrite !(proj2 (Nat.leb_le _ _)) by lia.
  replace (String.length p + String.length r - String.length s)%nat
    with (String.length p + (String.length r - String.length s))%nat by lia.
  by rewrite substring_append_r.
Qed.

Lemma append_assoc (a b c : string) : (a +:+ b) +:+ c = a +:+ b +:+ c.
Proof. induction a as [|x a IH]; [done | by rewrite !append_cons, IH]. Qed.

Lemma append_inj_r (a b c : string) : a +:+ b = a +:+ c → b = c.
Proof.
  induction a as [|x a IH]; [done | ]. rewrite !append_cons. intros [= H]. by apply IH.
Qed.

Lemma append_inj_l (a b c : string) : a +:+ c = b +:+ c → a = b.
Proof.
  revert b. induction a as [|x a IH]; intros [|y b] H; try done.
  - apply (f_equal String.length) in H. rewrite !length_append in H. simpl in H. lia.
  - apply (f_equal String.length) in H. rewrite !length_append in H. simpl in H. lia.
  - rewrite !append_cons in H. injection H as -> H. f_equal. by apply IH.
Qed.

(** ** File names and timestamps *)

(** A state file name is the prefix, a timestamp and the suffix. *)
Lemma isStateFilename_decompose f :
  isStateFilename f = true → ∃ timestamp, f = stateFilename timestamp.
Proof.
  unfold isStateFilename. intros [Hp Hs]%andb_true_iff.
  apply prefix_decompose in Hp as [r ->].
  destruct (decide (5 ≤ String.length r)%nat) as [Hlen | Hlen].
  - rewrite endsWith_append_long in Hs by done.
    apply endsWith_decompose in Hs as [mid ->]. by exists mid.
  - exfalso.
    destruct r as [|c1 [|c2 [|c3 [|c4 [|c5 r]]]]]; simpl in Hlen; try lia;
      vm_compute in Hs; try discriminate;
      repeat match type of Hs with
             | context [match ?c with Ascii _ _ _ _ _ _ _ _ => _ end] => destruct c
             | context [if ?b then _ else _] => destruct b
             end; discriminate.
Qed.

Lemma getTimestampFromFilename_state timestamp :
  getTimestampFromFilename (stateFilename timestamp) = Some timestamp.
Proof.
  unfold getTimestampFromFilename, basename, stateFilename.
  rewrite <- (append_assoc STATE_FILENAME_PREFIX timestamp FILENAME_SUFFIX).
  rewrite endsWith_append.
  assert (Hne : String.eqb ((STATE_FILENAME_PREFIX +:+ timestamp) +:+ FILENAME_SUFFIX)
                  FILENAME_SUFFIX = false).
  { apply String.eqb_neq. intros H. apply (f_equal String.length) in H.
    rewrite !length_append in H. simpl in H. lia. }
  rewrite Hne. cbn [andb negb].
  rewrite length_append.
  replace (String.length (STATE_FILENAME_PREFIX +:+ timestamp)
           + String.length FILENAME_SUFFIX - String.length FILENAME_SUFFIX)%nat
    with (String.length (STATE_FILENAME_PREFIX +:+ timestamp)) by lia.
  rewrite substring_append_l.
  unfold startsWith. rewrite prefix_append. unfold substring.
  rewrite length_append.
  replace (String.length STATE_FILENAME_PREFIX + String.length timestamp
           - String.length STATE_FILENAME_PREFIX)%nat
    with (String.length timestamp) by lia.
  replace (String.length STATE_FILENAME_PREFIX)
    with (String.length STATE_FILENAME_PREFIX + 0)%nat at 1 by lia.
  by rewrite substring_append_r, substring_all.
Qed.

Lemma getTimestampFromFilename_output timestamp :
  getTimestampFromFilename (outputFilename (Some timestamp)) = Some timestamp.
Proof.
  unfold outputFilename. change (template_string (Some timestamp)) with timestamp.
  unfold getTimestampFromFilename, basename.
  rewrite <- (append_assoc OUTPUT_FILENAME_PREFIX timestamp FILENAME_SUFFIX).
  rewrite endsWith_append.
  assert (Hne : String.eqb ((OUTPUT_FILENAME_PREFIX +:+ timestamp) +:+ FILENAME_SUFFIX)
                  FILENAME_SUFFIX = false).
  { apply String.eqb_neq. intros H. apply (f_equal String.length) in H.
    rewrite !length_append in H. simpl in H. lia. }
  rewrite Hne. cbn [andb negb].
  rewrite length_append.
  replace (String.length (OUTPUT_FILENAME_PREFIX +:+ timestamp)
           + String.length FILENAME_SUFFIX - String.length FILENAME_SUFFIX)%nat
    with (String.length (OUTPUT_FILENAME_PREFIX +:+ timestamp)) by lia.
  rewrite substring_append_l.
  replace (startsWith STATE_FILENAME_PREFIX (OUTPUT_FILENAME_PREFIX +:+ timestamp))
    with false by reflexivity.
  unfold startsWith. rewrite prefix_append. unfold substring.
  rewrite length_append.
  replace (String.length OUTPUT_FILENAME_PREFIX + String.length timestamp
           - String.length OUTPUT_FILENAME_PREFIX)%nat
    with (String.length timestamp) by lia.
  replace (String.length OUTPUT_FILENAME_PREFIX)
    with (String.length OUTPUT_FILENAME_PREFIX + 0)%nat at 1 by lia.
  by rewrite substring_append_r, substring_all.
Qed.

Lemma isStateFilename_stateFilename timestamp :
  isStateFilename (stateFilename timestamp) = true.
Proof.
  unfold isStateFilename, stateFilename, startsWith.
  rewrite prefix_append. cbn [andb].
  rewrite <- (append_assoc STATE_FILENAME_PREFIX timestamp FILENAME_SUFFIX).
  apply endsWith_append.
Qed.

Lemma stateFilename_inj a b : stateFilename a = stateFilename b → a = b.
Proof.
  intros H. apply (f_equal getTimestampFromFilename) in H.
  rewrite !getTimestampFromFilename_state in H. congruence.
Qed.

(** X1.  The names of the two files of a run give back the timestamp they
    were built from, whatever the timestamp is (as long as it holds no path
    separator): [getTimestampFromFilename] inverts the construction of the
    state file name and of the output file name, and the state file name
    passes the filter of the history listing. *)
Theorem filename_timestamp_roundtrip (timestamp : string) :
  has_separator timestamp = false →
  isStateFilename (stateFilename timestamp) = true
  ∧ getTimestampFromFilename (stateFilename timestamp) = Some timestamp
  ∧ getTimestampFromFilename (outputFilename (Some timestamp)) = Some timestamp.
Proof.
  intros _. split; [apply isStateFilename_stateFilename | ].
  split; [apply getTimestampFromFilename_state | apply getTimestampFromFilename_output].
Qed.

Lemma filename_timestamp_roundtrip_witness :
  isStateFilename (stateFilename "20250415T131216Z") = true
  ∧ getTimestampFromFilename (stateFilename "20250415T131216Z")
    = Some "20250415T131216Z"
  ∧ getTimestampFromFilename (outputFilename (Some "20250415T131216Z"))
    = Some "20250415T131216Z".
Proof. apply (filename_timestamp_roundtrip "20250415T131216Z"). reflexivity. Defined.

(** X2.  A directory entry that the history listing accepts (it starts with
    the state prefix and ends with the suffix) is the state file name of
    exactly one timestamp, the one [getTimestampFromFilename] extracts; the
    timestamp is empty for the entry [data_.json] only. *)
Theorem state_file_name_shape (f : string) :
  has_separator f = false →
  isStateFilename f = true →
  ∃ timestamp,
    f = stateFilename timestamp
    ∧ getTimestampFromFilename f = Some timestamp
    ∧ (∀ other, f = stateFilename other → other = timestamp)
    ∧ (timestamp = "" ↔ f = "data_.json").
Proof.
  intros _ (timestamp & ->)%isStateFilename_decompose. exists timestamp.
  split; [done | ]. split; [apply getTimestampFromFilename_state | ].
  split; [intros other H; symmetry; by apply stateFilename_inj | ].
  split; [by intros -> | ]. intros H. by apply (stateFilename_inj _ "").
Qed.

Lemma state_file_name_shape_witness :
  ∃ timestamp,
    "data_20250415T131216Z.json" = stateFilename timestamp
    ∧ getTimestampFromFilename "data_20250415T131216Z.json" = Some timestamp
    ∧ (∀ other, "data_20250415T131216Z.json" = stateFilename other → other = timestamp)
    ∧ (timestamp = "" ↔ "data_20250415T131216Z.json" = "data_.json").
Proof.
  apply (state_file_name_shape "data_20250415T131216Z.json"); reflexivity.
Defined.

(** ** The history listing *)

Lemma string_compare_Eq a b : String.compare a b = Eq ↔ a = b.
Proof.
  split; [apply String.compare_eq_iff | intros ->; apply string_compare_refl].
Qed.

Lemma not_older_antisym : AntiSymm (=) (in_order descending).
Proof.
  intros a b. unfold in_order, descending, localeCompare. intros Hab Hba.
  destruct (String.compare a b) eqn:E; [by apply String.compare_eq_iff | done | ].
  apply string_compare_gt_lt in E. by rewrite E in Hba.
Qed.

Lemma listStateFiles_NoDup w : NoDup (listStateFiles w).
Proof.
  unfold listStateFiles. rewrite Array_sort_Permutation.
  apply NoDup_filter, NoDup_fst_map_to_list.
Qed.



(** ** Rotation keeps the newest runs *)
Section RotationKeepsNewest.
Context (cfg : config).

Lemma outputFilename_inj a b :
  outputFilename (Some a) = outputFilename (Some b) → a = b.
Proof.
  intros H. apply (f_equal getTimestampFromFilename) in H.
  rewrite !getTimestampFromFilename_output in H. congruence.
Qed.

Lemma deleteRun_state_file w timestamp :
  timestamp ≠ "" →
  deleteRun w (stateFilename timestamp)
  = {| state_dir := delete (stateFilename timestamp) (state_dir w);
       output_dir := delete (outputFilename (Some timestamp)) (output_dir w);
       latest_output := latest_output w |}.
Proof.
  intros Hne. unfold deleteRun. rewrite getTimestampFromFilename_state.
  by rewrite (proj2 (String.eqb_neq _ _)).
Qed.

Lemma foldl_deleteRun_lookup timestamps :
  ∀ w, Forall (λ timestamp, timestamp ≠ "") timestamps →
    (∀ f, state_dir (foldl deleteRun w (map stateFilename timestamps)) !! f
          = if decide (f ∈ map stateFilename timestamps) then None
            else state_dir w !! f)
    ∧ (∀ g, output_dir (foldl deleteRun w (map stateFilename timestamps)) !! g
            = if decide (g ∈ map (λ timestamp, outputFilename (Some timestamp)) timestamps)
              then None else output_dir w !! g).
Proof.
  induction timestamps as [|ts l IH]; intros w Hne.
  - split; intros x; cbn [map foldl]; by rewrite decide_False by apply not_elem_of_nil.
  - apply Forall_cons in Hne as [Hts Hne]. cbn [map foldl].
    rewrite deleteRun_state_file by done.
    destruct (IH {| state_dir := delete (stateFilename ts) (state_dir w);
                    output_dir := delete (outputFilename (Some ts)) (output_dir w);
                    latest_output := latest_output w |} Hne) as [Hs Ho].
    split.
    + intros f. rewrite Hs. cbn [state_dir].
      destruct (decide (f ∈ map stateFilename l)) as [Hin | Hin].
      * by rewrite decide_True by (by apply list_elem_of_further).
      * destruct (decide (f = stateFilename ts)) as [-> | Hf].
        -- rewrite decide_True by apply list_elem_of_here. apply lookup_delete_eq.
        -- rewrite decide_False by (rewrite elem_of_cons; tauto).
           by apply lookup_delete_ne.
    + intros g. rewrite Ho. cbn [output_dir].
      destruct (decide (g ∈ map (λ timestamp, outputFilename (Some timestamp)) l))
        as [Hin | Hin].
      * by rewrite decide_True by (by apply list_elem_of_further).
      * destruct (decide (g = outputFilename (Some ts))) as [-> | Hg].
        -- rewrite decide_True by apply list_elem_of_here. apply lookup_delete_eq.
        -- rewrite decide_False by (rewrite elem_of_cons; tauto).
           by apply lookup_delete_ne.
Qed.

Lemma state_files_timestamps w files :
  state_dir w !! stateFilename "" = None →
  files ⊆ listStateFiles w →
  ∃ timestamps,
    files = map stateFilename timestamps
    ∧ Forall (λ timestamp, timestamp ≠ "") timestamps.
Proof.
  intros Hnone. induction files as [|f files IH]; intros Hsub.
  - by exists [].
  - destruct IH as (l & -> & Hl).
    { intros x Hx. apply Hsub. by apply list_elem_of_further. }
    assert (Hf : f ∈ listStateFiles w) by apply Hsub, list_elem_of_here.
    apply elem_of_listStateFiles in Hf as [(ts & ->)%isStateFilename_decompose Hsome].
    exists (ts :: l). split; [done | ]. constructor; [ | done].
    intros ->. rewrite Hnone in Hsome. by destruct Hsome.
Qed.

Lemma elem_of_take_drop_NoDup (l : list string) n f :
  NoDup l → f ∈ take n l ↔ f ∈ l ∧ f ∉ drop n l.
Proof.
  intros Hnd. rewrite <- (take_drop n l) in Hnd at 1.
  apply NoDup_app in Hnd as (_ & Hdisj & _).
  rewrite <- (take_drop n l) at 2. rewrite elem_of_app. split.
  - intros H. split; [by left | by apply Hdisj].
  - intros [[H | H] Hn]; done.
Qed.

(** The state directory after the rotation, entry by entry. *)
Lemma cleanupOldFiles_lookup w :
  state_dir w !! stateFilename "" = None →
  (∀ f, state_dir (cleanupOldFiles cfg w) !! f
        = if decide (f ∈ drop (MAX_HISTORY_FILES cfg) (listStateFiles w)) then None
          else state_dir w !! f)
  ∧ (∀ timestamp,
       output_dir (cleanupOldFiles cfg w) !! outputFilename (Some timestamp)
       = if decide (stateFilename timestamp
                      ∈ drop (MAX_HISTORY_FILES cfg) (listStateFiles w))
         then None else output_dir w !! outputFilename (Some timestamp))
  ∧ (∀ g, (∀ timestamp, g ≠ outputFilename (Some timestamp)) →
          output_dir (cleanupOldFiles cfg w) !! g = output_dir w !! g).
Proof.
  intros Hnone. unfold cleanupOldFiles.
  destruct (MAX_HISTORY_FILES cfg <? length (listStateFiles w))%nat eqn:E.
  - destruct (state_files_timestamps w
                (drop (MAX_HISTORY_FILES cfg) (listStateFiles w)) Hnone)
      as (l & Hl & Hne).
    { intros x. apply subseteq_drop. }
    rewrite Hl. destruct (foldl_deleteRun_lookup l w Hne) as [Hs Ho].
    split; [exact Hs | ]. split.
    + intros ts. rewrite Ho.
      destruct (decide (stateFilename ts ∈ map stateFilename l)) as [Hin | Hin].
      * rewrite decide_True; [done | ].
        apply list_elem_of_fmap in Hin as (ts' & ->%stateFilename_inj & Hin).
        apply list_elem_of_fmap. eauto.
      * rewrite decide_False; [done | ].
        intros (ts' & ->%outputFilename_inj & Hin')%list_elem_of_fmap.
        apply Hin, list_elem_of_fmap. eauto.
    + intros g Hg. rewrite Ho. rewrite decide_False; [done | ].
      intros (ts & -> & _)%list_elem_of_fmap. by apply (Hg ts).
  - apply Nat.ltb_ge in E. rewrite drop_ge by done.
    split; [ | split]; intros; by rewrite ?decide_False by apply not_elem_of_nil.
Qed.

Lemma listStateFiles_cleanupOldFiles w :
  state_dir w !! stateFilename "" = None →
  listStateFiles (cleanupOldFiles cfg w)
  = take (MAX_HISTORY_FILES cfg) (listStateFiles w).
Proof.
  intros Hnone. destruct (cleanupOldFiles_lookup w Hnone) as (Hs & _).
  pose proof (listStateFiles_sorted w) as Hsorted.
  pose proof (listStateFiles_NoDup w) as Hnd.
  apply (@StronglySorted_unique _ (in_order descending) not_older_antisym).
  - apply listStateFiles_sorted.
  - rewrite <- (take_drop (MAX_HISTORY_FILES cfg) (listStateFiles w)) in Hsorted.
    by apply StronglySorted_app_1_l in Hsorted.
  - apply NoDup_Permutation.
    + apply listStateFiles_NoDup.
    + rewrite <- (take_drop (MAX_HISTORY_FILES cfg) (listStateFiles w)) in Hnd.
      by apply NoDup_app in Hnd as (? & _).
    + intros f. rewrite elem_of_take_drop_NoDup by done.
      rewrite !elem_of_listStateFiles, Hs.
      destruct (decide (f ∈ drop _ _)) as [Hin | Hin].
      * split; [intros [_ [x Hx]]; done | tauto].
      * tauto.
Qed.

End RotationKeepsNewest.


(** ** The files an invocation writes *)
Section FilesWritten.
Context (cfg : config) (txt : text_ops).

Lemma saveState_world state sp op w :
  (saveState txt state sp op w).2
  = {| state_dir := <[sp := StateArray (sortStationsById state)]> (state_dir w);
       output_dir := <[op := artifactOf txt state]> (output_dir w);
       latest_output := latest_output w |}.
Proof. done. Qed.

(** The loop writes the two files of the run and no other. *)
Lemma processLoop_world e sp op batch todo :
  ∀ i st,
    (∀ a, <[sp := a]> (state_dir (lp_world (processLoop cfg txt e sp op batch todo i st)))
          = <[sp := a]> (state_dir (lp_world st)))
    ∧ (∀ b, <[op := b]> (output_dir (lp_world (processLoop cfg txt e sp op batch todo i st)))
            = <[op := b]> (output_dir (lp_world st))).
Proof.
  induction todo as [|s todo IH]; intros i st; simpl; [done | ].
  destruct (MAX_DURATION_MS cfg <=? _); [done | ].
  destruct (negb (truthy (st_id s))).
  { match goal with
    | |- context [processLoop _ _ _ _ _ _ _ ?i' ?st'] => exact (IH i' st')
    end. }
  destruct (findIndex (st_id s) (lp_stations st)).
  2:{ match goal with
      | |- context [processLoop _ _ _ _ _ _ _ ?i' ?st'] => exact (IH i' st')
      end. }
  destruct (_ || _); [unfold saveState | ]; cbv beta iota zeta;
    match goal with
    | |- context [processLoop _ _ _ _ _ _ _ ?i' ?st'] =>
        destruct (IH i' st') as [Hs Ho]
    end; [ | done].
  split; intros x; [rewrite Hs | rewrite Ho]; cbn [lp_world state_dir output_dir];
    unfold saveFinalOutput; cbn [state_dir output_dir]; apply insert_insert_eq.
Qed.

Lemma processStations_stations e stations sp op w :
  sortStationsById (lp_stations (processStations cfg txt e stations sp op w))
  = lp_stations (processStations cfg txt e stations sp op w).
Proof.
  unfold processStations. destruct (take _ _) as [|s l];
    unfold saveState; cbv beta iota zeta; cbn [lp_stations];
    apply sortStationsById_idemp.
Qed.

Lemma processStations_world e stations sp op w :
  lp_world (processStations cfg txt e stations sp op w)
  = {| state_dir :=
         <[sp := StateArray (lp_stations (processStations cfg txt e stations sp op w))]>
           (state_dir w);
       output_dir :=
         <[op := artifactOf txt (lp_stations (processStations cfg txt e stations sp op w))]>
           (output_dir w);
       latest_output := latest_output w |}.
Proof.
  unfold processStations. destruct (take _ _) as [|s l] eqn:E.
  - unfold saveState; cbv beta iota zeta. cbn [lp_stations lp_world].
    unfold saveFinalOutput. cbn [state_dir output_dir latest_output].
    by rewrite artifactOf_sorted.
  - unfold saveState; cbv beta iota zeta. cbn [lp_stations lp_world].
    unfold saveFinalOutput. cbn [state_dir output_dir latest_output].
    match goal with
    | |- context [processLoop cfg txt e sp op ?n ?todo ?i ?st] =>
        destruct (processLoop_world e sp op n todo i st) as [Hs Ho];
        pose proof (processLoop_latest_output cfg txt e sp op n todo i st) as Ha;
        set (final := processLoop cfg txt e sp op n todo i st) in *
    end.
    cbn [lp_world] in Hs, Ho, Ha. rewrite artifactOf_sorted.
    f_equal; [apply Hs | apply Ho | exact Ha].
Qed.

(** X5.  Whatever happens in the work loop (failures, the time budget used
    up, nothing to do), [processStations] ends on a checkpoint of the array
    it returns: the state file holds that array, sorted by id, so that
    loading it gives the same array back; the output file holds its
    projection; no other file of the two directories is touched, nor
    [stations.json]. *)
Theorem final_checkpoint (e : env) (stations : list station) (sp op : string)
    (w : world) :
  lp_world (processStations cfg txt e stations sp op w)
  = {| state_dir :=
         <[sp := StateArray (lp_stations (processStations cfg txt e stations sp op w))]>
           (state_dir w);
       output_dir :=
         <[op := artifactOf txt (lp_stations (processStations cfg txt e stations sp op w))]>
           (output_dir w);
       latest_output := latest_output w |}
  ∧ loadState sp (lp_world (processStations cfg txt e stations sp op w))
    = Some (lp_stations (processStations cfg txt e stations sp op w))
  ∧ Sorted (in_order station_lt)
      (lp_stations (processStations cfg txt e stations sp op w))
  ∧ (∀ f, f ≠ sp →
          state_dir (lp_world (processStations cfg txt e stations sp op w)) !! f
          = state_dir w !! f)
  ∧ (∀ g, g ≠ op →
          output_dir (lp_world (processStations cfg txt e stations sp op w)) !! g
          = output_dir w !! g).
Proof.
  split; [apply processStations_world | ].
  split.
  { unfold loadState. rewrite processStations_world. cbn [state_dir].
    rewrite lookup_insert_eq. by rewrite processStations_stations. }
  split.
  { rewrite <- processStations_stations. apply Array_sort_Sorted, station_lt_asym. }
  split; intros x Hx; rewrite processStations_world;
    cbn [state_dir output_dir]; by apply lookup_insert_ne.
Qed.
End FilesWritten.

(** ** The outcome of an invocation on the file system *)
Section MainFiles.
Context (cfg : config) (txt : text_ops).

Lemma main_final_world_publish e w :
  final_world (main cfg txt e w)
  = publishAndCleanup cfg (exitCode (main cfg txt e w))
      (worldBeforePublication cfg txt e w).
Proof.
  unfold main, worldBeforePublication.
  destruct (determineRunState cfg e w) as [st sp op | st | ].
  - by destruct (processAndEvaluate cfg txt e false st sp op w) as [[code st'] w'].
  - done.
  - destruct (fetchStationList e) as [st|]; [ | done].
    destruct (saveState txt st _ _ w) as [st1 w1]. simpl.
    by destruct (processAndEvaluate cfg txt e true st1 _ _ w1) as [[code st'] w'].
Qed.

Lemma updateLatestCompleteOutput_dirs w :
  state_dir (updateLatestCompleteOutput cfg w) = state_dir w
  ∧ output_dir (updateLatestCompleteOutput cfg w) = output_dir w.
Proof.
  unfold updateLatestCompleteOutput.
  destruct (findLatestComplete cfg w (listStateFiles w)); [ | done].
  destruct (getTimestampFromFilename _); [ | done].
  destruct (String.eqb _ _); [done | ].
  by destruct (output_dir w !! _).
Qed.

Lemma main_exitCode_cases e w :
  exitCode (main cfg txt e w) = 0 ∨ exitCode (main cfg txt e w) = 1.
Proof.
  assert (Hth : ∀ stations, thresholdExitCode cfg stations = 0
                            ∨ thresholdExitCode cfg stations = 1).
  { intros stations. unfold thresholdExitCode.
    destruct (0 <? _)%nat; [ | by left]. destruct (Qgtb _ _); [by right | by left]. }
  destruct (currentStations (main cfg txt e w)) as [stations|] eqn:E.
  - rewrite (main_exitCode cfg txt e w stations E). apply Hth.
  - revert E. unfold main.
    destruct (determineRunState cfg e w) as [st sp op | st | ].
    + by destruct (processAndEvaluate cfg txt e false st sp op w) as [[code st'] w'].
    + done.
    + destruct (fetchStationList e) as [st|]; [ | by right].
      destruct (saveState txt st _ _ w) as [st1 w1]. simpl.
      by destruct (processAndEvaluate cfg txt e true st1 _ _ w1) as [[code st'] w'].
Qed.

(** X6.  An invocation that exits with a non-zero status leaves
    [stations.json] as it was, and the exit status is 0 or 1. *)
Theorem failure_exit_keeps_alias (e : env) (w : world) :
  (exitCode (main cfg txt e w) = 0 ∨ exitCode (main cfg txt e w) = 1)
  ∧ (exitCode (main cfg txt e w) ≠ 0 →
     latest_output (final_world (main cfg txt e w)) = latest_output w
     ∧ final_world (main cfg txt e w)
       = cleanupOldFiles cfg (worldBeforePublication cfg txt e w)).
Proof.
  split; [apply main_exitCode_cases | ]. intros Hne.
  rewrite main_final_world_publish. unfold publishAndCleanup.
  rewrite (proj2 (Z.eqb_neq _ _) Hne). split; [ | done].
  destruct (cleanupOldFiles_only_deletes cfg (worldBeforePublication cfg txt e w))
    as (-> & _).
  apply worldBeforePublication_latest_output.
Qed.

Lemma processAndEvaluate_cases e startNewRun stations sp op w :
  (isStateComplete cfg stations = true ∧ startNewRun = true
   ∧ processAndEvaluate cfg txt e startNewRun stations sp op w
     = (thresholdExitCode cfg stations, stations, w))
  ∨ ∃ final,
      (processAndEvaluate cfg txt e startNewRun stations sp op w).1.2 = final
      ∧ sortStationsById final = final
      ∧ (processAndEvaluate cfg txt e startNewRun stations sp op w).2
        = {| state_dir := <[sp := StateArray final]> (state_dir w);
             output_dir := <[op := artifactOf txt final]> (output_dir w);
             latest_output := latest_output w |}.
Proof.
  unfold processAndEvaluate.
  destruct (isStateComplete cfg stations) eqn:Hc; cbn [negb].
  - destruct startNewRun; cbn [negb]; [by left | right].
    exists (sortStationsById stations). split; [done | ].
    split; [apply sortStationsById_idemp | ].
    unfold saveState; cbv beta iota zeta. cbn [snd]. unfold saveFinalOutput.
    cbn [state_dir output_dir latest_output]. by rewrite artifactOf_sorted.
  - right. exists (lp_stations (processStations cfg txt e stations sp op w)).
    split; [done | ]. split; [apply processStations_stations | ].
    cbn [snd]. apply processStations_world.
Qed.

Lemma determineRunState_ContinueRun e w stations sp op :
  determineRunState cfg e w = ContinueRun stations sp op →
  (∃ older, listStateFiles w = sp :: older)
  ∧ loadState sp w = Some stations
  ∧ op = outputFilename (getTimestampFromFilename sp).
Proof.
  unfold determineRunState.
  destruct (listStateFiles w) as [|latest older]; [done | ].
  destruct (loadState latest w) as [st|] eqn:El; [ | done].
  destruct (_ || _).
  - intros [= <- <- <-]. eauto.
  - destruct (parseTimestamp _); [ | done]. by destruct (Qltb _ _).
Qed.

(** The run an invocation works on, after its work: the state file holds
    the final array and the output file its projection. *)
Lemma main_run_persisted e w stations :
  currentStations (main cfg txt e w) = Some stations →
  (∀ loaded, determineRunState cfg e w ≠ NoRunNeeded loaded) →
  ∃ sp op,
    worldBeforePublication cfg txt e w
    = {| state_dir := <[sp := StateArray stations]> (state_dir w);
         output_dir := <[op := artifactOf txt stations]> (output_dir w);
         latest_output := latest_output w |}
    ∧ sortStationsById stations = stations
    ∧ (((∃ older, listStateFiles w = sp :: older)
        ∧ op = outputFilename (getTimestampFromFilename sp))
       ∨ (determineRunState cfg e w = StartNewRun
          ∧ sp = stateFilename (generateTimestamp (now_at_new_run e))
          ∧ op = outputFilename (Some (generateTimestamp (now_at_new_run e))))).
Proof.
  unfold main, worldBeforePublication.
  destruct (determineRunState cfg e w) as [st sp op | st | ] eqn:Hsel.
  - intros Hcur _. exists sp, op.
    apply determineRunState_ContinueRun in Hsel as ([older Hl] & Hload & ->).
    destruct (processAndEvaluate_cases e false st sp
                (outputFilename (getTimestampFromFilename sp)) w)
      as [(_ & [=] & _) | (final & Hfin & Hsorted & Hw)].
    destruct (processAndEvaluate cfg txt e false st sp _ w) as [[code st'] w'].
    cbn [fst snd currentStations] in *. injection Hcur as <-. subst st'.
    split; [done | ]. split; [done | ]. left. split; [eauto | done].
  - intros _ H. by destruct (H st).
  - intros Hcur _.
    destruct (fetchStationList e) as [st|]; [ | done].
    exists (stateFilename (generateTimestamp (now_at_new_run e))),
           (outputFilename (Some (generateTimestamp (now_at_new_run e)))).
    set (sp := stateFilename _) in *. set (op := outputFilename _) in *.
    pose proof (saveState_world txt st sp op w) as Hw1.
    pose proof (saveState_stations txt sp op st w) as Hst1.
    destruct (saveState txt st sp op w) as [st1 w1]. cbn [fst snd] in *.
    destruct (processAndEvaluate_cases e true st1 sp op w1)
      as [(_ & _ & Heq) | (final & Hfin & Hsorted & Hw)].
    + rewrite Heq in *. cbn [fst snd currentStations] in *. injection Hcur as <-.
      subst st1 w1. split; [by rewrite artifactOf_sorted | ].
      split; [apply sortStationsById_idemp | by right].
    + destruct (processAndEvaluate cfg txt e true st1 sp op w1) as [[code st'] w'].
      cbn [fst snd currentStations] in *. injection Hcur as <-. subst st' w' w1.
      cbn [state_dir output_dir latest_output].
      rewrite !insert_insert_eq. split; [done | ]. split; [done | by right].
Qed.

Lemma generateTimestamp_nonempty t : generateTimestamp t ≠ "".
Proof.
  intros H. apply (f_equal String.length) in H. unfold generateTimestamp in H.
  rewrite !length_append in H. simpl in H. lia.
Qed.

(** The state directory when the work of an invocation is done holds the
    entries it held before and at most the state file of the run. *)
Lemma worldBeforePublication_state_dir e w f :
  is_Some (state_dir (worldBeforePublication cfg txt e w) !! f) →
  is_Some (state_dir w !! f)
  ∨ f = stateFilename (generateTimestamp (now_at_new_run e)).
Proof.
  destruct (currentStations (main cfg txt e w)) as [stations|] eqn:Hcur.
  - destruct (determineRunState cfg e w) as [st sp op | st | ] eqn:Hsel.
    + destruct (main_run_persisted e w stations Hcur) as (sp' & op' & -> & _ & Hnames).
      { by rewrite Hsel. }
      cbn [state_dir]. destruct (decide (f = sp')) as [-> | Hf].
      * intros _. destruct Hnames as [[[older Hl] _] | (_ & -> & _)]; [left | by right].
        assert (Hin : sp' ∈ listStateFiles w) by (rewrite Hl; apply list_elem_of_here).
        by apply elem_of_listStateFiles in Hin as [_ ?].
      * rewrite lookup_insert_ne by done. by left.
    + unfold worldBeforePublication. rewrite Hsel. by left.
    + destruct (main_run_persisted e w stations Hcur) as (sp' & op' & -> & _ & Hnames).
      { by rewrite Hsel. }
      cbn [state_dir]. destruct (decide (f = sp')) as [-> | Hf].
      * intros _. destruct Hnames as [[[older Hl] _] | (_ & -> & _)]; [left | by right].
        assert (Hin : sp' ∈ listStateFiles w) by (rewrite Hl; apply list_elem_of_here).
        by apply elem_of_listStateFiles in Hin as [_ ?].
      * rewrite lookup_insert_ne by done. by left.
  - revert Hcur. unfold main, worldBeforePublication.
    destruct (determineRunState cfg e w) as [st sp op | st | ].
    + by destruct (processAndEvaluate cfg txt e false st sp op w) as [[code st'] w'].
    + done.
    + destruct (fetchStationList e) as [st|]; [ | by left].
      destruct (saveState txt st _ _ w) as [st1 w1]. simpl.
      by destruct (processAndEvaluate cfg txt e true st1 _ _ w1) as [[code st'] w'].
Qed.

(** X7.  The history stays bounded.  From a state directory without the
    entry [data_.json], every invocation, whatever its outcome, ends with at
    most [MAX_HISTORY_FILES] state files in the history, and again without
    that entry, so that the bound holds after any number of invocations. *)
Theorem history_bounded (e : env) (w : world) :
  state_dir w !! stateFilename "" = None →
  (length (listStateFiles (final_world (main cfg txt e w))) ≤ MAX_HISTORY_FILES cfg)%nat
  ∧ state_dir (final_world (main cfg txt e w)) !! stateFilename "" = None.
Proof.
  intros Hnone. rewrite main_final_world_publish. unfold publishAndCleanup.
  set (w' := if _ =? 0 then _ else _).
  assert (Hw' : state_dir w' = state_dir (worldBeforePublication cfg txt e w)).
  { subst w'. destruct (_ =? 0); [apply updateLatestCompleteOutput_dirs | done]. }
  assert (Hnone' : state_dir w' !! stateFilename "" = None).
  { rewrite Hw'. apply eq_None_not_Some. intros Hsome.
    apply worldBeforePublication_state_dir in Hsome as [Hsome | Heq].
    - rewrite Hnone in Hsome. by destruct Hsome.
    - apply stateFilename_inj in Heq. symmetry in Heq.
      by apply generateTimestamp_nonempty in Heq. }
  split.
  - rewrite listStateFiles_cleanupOldFiles by done. rewrite length_take. lia.
  - destruct (cleanupOldFiles_only_deletes cfg w') as (_ & Hsub & _).
    eapply lookup_weaken_None; [exact Hnone' | exact Hsub].
Qed.

(** X8.  An invocation that works on a run (it resumes the latest one or
    starts a new one and gets a listing) leaves, when its work is done and
    before publication and rotation, the state file of that run holding
    exactly the array it ends with, sorted by id, and the output file of
    the run holding the projection of that array; the run is the first of
    the history listing, or, for a new run, the one named after the instant
    of the invocation; no other file is written. *)
Theorem current_run_persisted (e : env) (w : world) (stations : list station) :
  currentStations (main cfg txt e w) = Some stations →
  (∀ loaded, determineRunState cfg e w ≠ NoRunNeeded loaded) →
  ∃ sp op,
    worldBeforePublication cfg txt e w
    = {| state_dir := <[sp := StateArray stations]> (state_dir w);
         output_dir := <[op := artifactOf txt stations]> (output_dir w);
         latest_output := latest_output w |}
    ∧ loadState sp (worldBeforePublication cfg txt e w) = Some stations
    ∧ Sorted (in_order station_lt) stations
    ∧ (((∃ older, listStateFiles w = sp :: older)
        ∧ op = outputFilename (getTimestampFromFilename sp))
       ∨ (determineRunState cfg e w = StartNewRun
          ∧ sp = stateFilename (generateTimestamp (now_at_new_run e))
          ∧ op = outputFilename (Some (generateTimestamp (now_at_new_run e))))).
Proof.
  intros Hcur Hsel.
  destruct (main_run_persisted e w stations Hcur Hsel) as (sp & op & Hw & Hsorted & Hn).
  exists sp, op. split; [done | ]. split.
  { rewrite Hw. unfold loadState. cbn [state_dir]. rewrite lookup_insert_eq.
    by rewrite Hsorted. }
  split; [ | done].
  rewrite <- Hsorted. apply Array_sort_Sorted, station_lt_asym.
Qed.

End MainFiles.

Lemma history_bounded_witness :
  (length (listStateFiles
             (final_world (main default_config plain_text (failing_env [14551709%Z])
                             eleven_runs)))
   ≤ MAX_HISTORY_FILES default_config)%nat
  ∧ state_dir (final_world (main default_config plain_text (failing_env [14551709])
                              eleven_runs)) !! stateFilename "" = None.
Proof.
  apply (history_bounded default_config plain_text (failing_env [14551709]) eleven_runs).
  reflexivity.
Defined.


(** A first invocation on an empty history, with one listed station whose
    detail request fails. *)
Lemma current_run_persisted_witness :
  ∃ sp op,
    worldBeforePublication default_config plain_text (failing_env [14551709]) empty_world
    = {| state_dir :=
           <[sp := StateArray
                     [ {| st_id := IdNum 14551709; st_lat := None; st_lng := None;
                          st_sockets := []; fetchStatus := failed; fetchAttempts := 1;
                          lastAttemptTimestamp := Some 1744675200000; details := None;
                          errorInfo := Some "HTTP error 500 Internal Server Error" |} ]]>
             (state_dir empty_world);
         output_dir :=
           <[op := artifactOf plain_text
                     [ {| st_id := IdNum 14551709; st_lat := None; st_lng := None;
                          st_sockets := []; fetchStatus := failed; fetchAttempts := 1;
                          lastAttemptTimestamp := Some 1744675200000; details := None;
                          errorInfo := Some "HTTP error 500 Internal Server Error" |} ]]>
             (output_dir empty_world);
         latest_output := latest_output empty_world |}
    ∧ loadState sp
        (worldBeforePublication default_config plain_text (failing_env [14551709])
           empty_world)
      = Some [ {| st_id := IdNum 14551709; st_lat := None; st_lng := None;
                  st_sockets := []; fetchStatus := failed; fetchAttempts := 1;
                  lastAttemptTimestamp := Some 1744675200000; details := None;
                  errorInfo := Some "HTTP error 500 Internal Server Error" |} ]
    ∧ Sorted (in_order station_lt)
        [ {| st_id := IdNum 14551709; st_lat := None; st_lng := None;
             st_sockets := []; fetchStatus := failed; fetchAttempts := 1;
             lastAttemptTimestamp := Some 1744675200000; details := None;
             errorInfo := Some "HTTP error 500 Internal Server Error" |} ]
    ∧ (((∃ older, listStateFiles empty_world = sp :: older)
        ∧ op = outputFilename (getTimestampFromFilename sp))
       ∨ (determineRunState default_config (failing_env [14551709]) empty_world
          = StartNewRun
          ∧ sp = stateFilename (generateTimestamp (now_at_new_run (failing_env [14551709])))
          ∧ op = outputFilename
                   (Some (generateTimestamp (now_at_new_run (failing_env [14551709])))))).
Proof.
  apply (current_run_persisted default_config plain_text (failing_env [14551709])
           empty_world).
  - vm_compute. reflexivity.
  - intros loaded H. vm_compute in H. discriminate.
Defined.

(** ** The work loop, request by request *)
Section LoopTrace.
Context (cfg : config) (txt : text_ops) (e : env) (sp op : string).

Lemma attemptAt_id i s : st_id (attemptAt e i s) = st_id s.
Proof. apply recordAttempt_received. Qed.

(** With distinct ids, the loop sends a request for each station of the
    batch that has a usable id, up to the first time check that fails, and
    updates the record of that station with the answer; it changes nothing
    else. *)
Lemma processLoop_trace batch todo :
  ∀ k i st others,
    NoDup (map st_id (todo ++ others)) →
    (k ≤ length todo)%nat →
    (∀ j, (j < k)%nat →
          now_at_time_check e (i + j) - scriptStartTime e < MAX_DURATION_MS cfg) →
    ((k < length todo)%nat →
     MAX_DURATION_MS cfg ≤ now_at_time_check e (i + k) - scriptStartTime e) →
    lp_stations st ≡ₚ todo ++ others →
    lp_stations (processLoop cfg txt e sp op batch todo i st)
    ≡ₚ imap (λ j s, if truthy (st_id s) then attemptAt e (i + j) s else s) (take k todo)
       ++ drop k todo ++ others
    ∧ lp_requested (processLoop cfg txt e sp op batch todo i st)
      = lp_requested st ++ filter (λ s, truthy (st_id s) = true) (take k todo).
Proof.
  induction todo as [|s todo IH]; intros k i st others Hnd Hk Hpass Hstop Hp.
  - simpl in Hk. replace k with 0%nat by lia. simpl. by rewrite app_nil_r.
  - destruct k as [|k].
    + simpl. rewrite (proj2 (Z.leb_le _ _)).
      * by rewrite app_nil_r.
      * rewrite <- (Nat.add_0_r i). apply Hstop. simpl. lia.
    + cbn [processLoop].
      rewrite (proj2 (Z.leb_gt _ _))
        by (rewrite <- (Nat.add_0_r i); apply Hpass; lia).
      assert (Hpass' : ∀ j, (j < k)%nat →
                now_at_time_check e (S i + j) - scriptStartTime e < MAX_DURATION_MS cfg).
      { intros j Hj. replace (S i + j)%nat with (i + S j)%nat by lia. apply Hpass. lia. }
      assert (Hstop' : (k < length todo)%nat →
                MAX_DURATION_MS cfg ≤ now_at_time_check e (S i + k) - scriptStartTime e).
      { intros Hlt. replace (S i + k)%nat with (i + S k)%nat by lia.
        apply Hstop. simpl. lia. }
      assert (Hk' : (k ≤ length todo)%nat) by (simpl in Hk; lia).
      assert (Himap : ∀ l : list station,
                imap ((λ j s, if truthy (st_id s) then attemptAt e (i + j) s else s) ∘ S) l
                = imap (λ j s, if truthy (st_id s) then attemptAt e (S i + j) s else s) l).
      { intros l. apply imap_ext. intros j x _. simpl.
        by replace (i + S j)%nat with (S (i + j)) by lia. }
      cbn [take drop]. rewrite imap_cons, Himap. rewrite Nat.add_0_r.
      destruct (truthy (st_id s)) eqn:Hs; cbn [negb].
      * assert (Hnd' : NoDup (map st_id (lp_stations st))) by (by rewrite Hp).
        assert (Hin : s ∈ lp_stations st) by (rewrite Hp; apply list_elem_of_here).
        destruct (findIndex_NoDup s _ Hnd' Hin) as (idx & -> & Hidx).
        fold (attemptAt e i s).
        assert (Hp1 : alter (recordAttempt (now_after_fetch e i) (fetchStationDetails e i s))
                        idx (lp_stations st) ≡ₚ todo ++ attemptAt e i s :: others).
        { rewrite (alter_Permutation _ idx _ s (todo ++ others)); [ | done | done].
          apply Permutation_middle. }
        assert (Hnd1 : NoDup (map st_id (todo ++ attemptAt e i s :: others))).
        { rewrite map_app. simpl. rewrite attemptAt_id.
          rewrite <- map_cons, <- map_app. by rewrite <- Permutation_middle. }
        destruct (_ || _); [unfold saveState | ]; cbv beta iota zeta;
          match goal with
          | |- context [processLoop _ _ _ _ _ _ _ ?i' ?st'] =>
              destruct (IH k i' st' (attemptAt e i s :: others))
                as (Hperm & Hreq);
                [exact Hnd1 | exact Hk' | exact Hpass' | exact Hstop'
                | cbn [lp_stations]; unfold sortStationsById;
                  rewrite ?Array_sort_Permutation; exact Hp1 | ]
          end;
          (split;
           [etrans; [exact Hperm | ]; simpl;
            rewrite (app_assoc _ (drop k todo)), <- Permutation_middle;
            by rewrite <- app_assoc
           | rewrite Hreq; cbn [lp_requested];
             rewrite filter_cons_True by done; by rewrite <- app_assoc]).
      * assert (Hnd1 : NoDup (map st_id (todo ++ s :: others))).
        { by rewrite <- Permutation_middle. }
        match goal with
        | |- context [processLoop _ _ _ _ _ _ _ ?i' ?st'] =>
            destruct (IH k i' st' (s :: others)) as (Hperm & Hreq);
              [exact Hnd1 | exact Hk' | exact Hpass' | exact Hstop'
              | cbn [lp_stations]; rewrite Hp; apply Permutation_middle | ]
        end.
        split.
        -- etrans; [exact Hperm | ]. simpl.
           rewrite (app_assoc _ (drop k todo)), <- Permutation_middle.
           by rewrite <- app_assoc.
        -- rewrite Hreq. cbn [lp_requested].
           rewrite filter_cons_False; [done | ]. by rewrite Hs.
Qed.

Lemma checksPassed_spec i n :
  (checksPassed cfg e i n ≤ n)%nat
  ∧ (∀ j, (j < checksPassed cfg e i n)%nat →
          now_at_time_check e (i + j) - scriptStartTime e < MAX_DURATION_MS cfg)
  ∧ ((checksPassed cfg e i n < n)%nat →
     MAX_DURATION_MS cfg
     ≤ now_at_time_check e (i + checksPassed cfg e i n) - scriptStartTime e).
Proof.
  revert i. induction n as [|n IH]; intros i; simpl.
  - split; [done | ]. split; intros; lia.
  - destruct (MAX_DURATION_MS cfg <=? _) eqn:E.
    + apply Z.leb_le in E. split; [lia | ]. split; [intros; lia | ].
      intros _. by rewrite Nat.add_0_r.
    + apply Z.leb_gt in E. destruct (IH (S i)) as (H1 & H2 & H3).
      split; [lia | ]. split.
      * intros [|j] Hj; [by rewrite Nat.add_0_r | ].
        replace (i + S j)%nat with (S i + j)%nat by lia. apply H2. lia.
      * intros Hlt. replace (i + S (checksPassed cfg e (S i) n))%nat
          with (S i + checksPassed cfg e (S i) n)%nat by lia.
        apply H3. lia.
Qed.

Lemma batch_split stations :
  stations
  ≡ₚ take (MAX_REQUESTS_PER_RUN cfg) (filter (λ s, needsFetch cfg s = true) stations)
     ++ drop (MAX_REQUESTS_PER_RUN cfg) (filter (λ s, needsFetch cfg s = true) stations)
     ++ filter (λ s, ¬ needsFetch cfg s = true) stations.
Proof. rewrite app_assoc, take_drop. symmetry. apply filter_app_complement. Qed.

Lemma processStations_trace stations w k :
  NoDup (map st_id stations) →
  (k ≤ length (take (MAX_REQUESTS_PER_RUN cfg)
                 (filter (λ s, needsFetch cfg s = true) stations)))%nat →
  (∀ j, (j < k)%nat →
        now_at_time_check e j - scriptStartTime e < MAX_DURATION_MS cfg) →
  ((k < length (take (MAX_REQUESTS_PER_RUN cfg)
                  (filter (λ s, needsFetch cfg s = true) stations)))%nat →
   MAX_DURATION_MS cfg ≤ now_at_time_check e k - scriptStartTime e) →
  lp_stations (processStations cfg txt e stations sp op w)
  ≡ₚ imap (λ j s, if truthy (st_id s) then attemptAt e j s else s)
       (take k (take (MAX_REQUESTS_PER_RUN cfg)
                  (filter (λ s, needsFetch cfg s = true) stations)))
     ++ drop k (take (MAX_REQUESTS_PER_RUN cfg)
                  (filter (λ s, needsFetch cfg s = true) stations))
     ++ drop (MAX_REQUESTS_PER_RUN cfg) (filter (λ s, needsFetch cfg s = true) stations)
     ++ filter (λ s, ¬ needsFetch cfg s = true) stations
  ∧ lp_requested (processStations cfg txt e stations sp op w)
    = filter (λ s, truthy (st_id s) = true)
        (take k (take (MAX_REQUESTS_PER_RUN cfg)
                   (filter (λ s, needsFetch cfg s = true) stations))).
Proof.
  intros Hnd Hk Hpass Hstop. pose proof (batch_split stations) as Hp.
  unfold processStations.
  destruct (take (MAX_REQUESTS_PER_RUN cfg) _) as [|b batch] eqn:E.
  - simpl in Hk. replace k with 0%nat by lia.
    unfold saveState; cbv beta iota zeta. cbn [lp_stations lp_requested].
    by rewrite sortStationsById_Permutation.
  - rewrite <- E in *.
    destruct (processLoop_trace (length (take (MAX_REQUESTS_PER_RUN cfg)
                (filter (λ s, needsFetch cfg s = true) stations)))
                (take (MAX_REQUESTS_PER_RUN cfg)
                   (filter (λ s, needsFetch cfg s = true) stations))
                k 0 {| lp_stations := stations; lp_world := w;
                       lp_processedCount := 0; lp_requested := [] |}
                (drop (MAX_REQUESTS_PER_RUN cfg)
                   (filter (λ s, needsFetch cfg s = true) stations)
                 ++ filter (λ s, ¬ needsFetch cfg s = true) stations))
      as [Hperm Hreq]; [by rewrite <- Hp | done | done | done | done | ].
    unfold saveState; cbv beta iota zeta. cbn [lp_stations lp_requested].
    rewrite sortStationsById_Permutation. done.
Qed.
End LoopTrace.

Section LoopProperties.
Context (cfg : config) (txt : text_ops) (e : env) (sp op : string).

(** X10.  The work loop, request by request.  In a store with distinct ids,
    let [k] be the number of time checks that pass before the first one
    that finds the time budget used up ([k] is the length of the batch when
    none does).  Then requests are sent exactly for the first [k] stations
    of the batch that have a usable id, in order; the record of each is
    updated with the answer to its own request; and the rest of the batch,
    the stations beyond the request budget and the stations that need no
    request are in the final array as they were. *)
Theorem work_loop_trace (stations : list station) (w : world) (k : nat) :
  NoDup (map st_id stations) →
  (k ≤ length (stationsToProcess cfg stations))%nat →
  (∀ j, (j < k)%nat →
        now_at_time_check e j - scriptStartTime e < MAX_DURATION_MS cfg) →
  ((k < length (stationsToProcess cfg stations))%nat →
   MAX_DURATION_MS cfg ≤ now_at_time_check e k - scriptStartTime e) →
  lp_requested (processStations cfg txt e stations sp op w)
  = filter (λ s, truthy (st_id s) = true) (take k (stationsToProcess cfg stations))
  ∧ lp_stations (processStations cfg txt e stations sp op w)
    ≡ₚ imap (λ j s, if truthy (st_id s) then attemptAt e j s else s)
         (take k (stationsToProcess cfg stations))
       ++ drop k (stationsToProcess cfg stations)
       ++ beyondBudget cfg stations ++ settledStations cfg stations
  ∧ stations
    ≡ₚ stationsToProcess cfg stations
       ++ beyondBudget cfg stations ++ settledStations cfg stations.
Proof.
  intros Hnd Hk Hpass Hstop.
  destruct (processStations_trace cfg txt e sp op stations w k Hnd Hk Hpass Hstop)
    as [Hperm Hreq].
  split; [exact Hreq | ]. split; [exact Hperm | apply batch_split].
Qed.

Lemma map_listingPart_alter now result i (l : list station) :
  map listingPart (alter (recordAttempt now result) i l) = map listingPart l.
Proof.
  revert i. induction l as [|x l IH]; intros [|i]; simpl; try done.
  - f_equal. unfold recordAttempt. by destruct (fr_success result).
  - f_equal. apply IH.
Qed.

Lemma processLoop_listingPart batch todo :
  ∀ i st,
    map listingPart (lp_stations (processLoop cfg txt e sp op batch todo i st))
    ≡ₚ map listingPart (lp_stations st).
Proof.
  induction todo as [|s todo IH]; intros i st; simpl; [done | ].
  destruct (MAX_DURATION_MS cfg <=? _); [done | ].
  destruct (negb (truthy (st_id s))).
  { match goal with
    | |- context [processLoop _ _ _ _ _ _ _ ?i' ?st'] => exact (IH i' st')
    end. }
  destruct (findIndex (st_id s) (lp_stations st)).
  2:{ match goal with
      | |- context [processLoop _ _ _ _ _ _ _ ?i' ?st'] => exact (IH i' st')
      end. }
  destruct (_ || _); [unfold saveState | ]; cbv beta iota zeta;
    match goal with
    | |- context [processLoop _ _ _ _ _ _ _ ?i' ?st'] => rewrite (IH i' st')
    end; cbn [lp_stations]; rewrite ?sortStationsById_Permutation;
    by rewrite map_listingPart_alter.
Qed.

Lemma processStations_listingPart stations w :
  map listingPart (lp_stations (processStations cfg txt e stations sp op w))
  ≡ₚ map listingPart stations.
Proof.
  unfold processStations. destruct (take _ _) as [|s l];
    unfold saveState; cbv beta iota zeta; cbn [lp_stations];
    rewrite sortStationsById_Permutation; [done | ].
  by rewrite processLoop_listingPart.
Qed.

Lemma map_st_id_listingPart (l : list station) :
  map st_id l = map (λ p, p.1.1.1) (map listingPart l).
Proof. rewrite map_map. done. Qed.

Lemma processStations_ids stations w :
  map st_id (lp_stations (processStations cfg txt e stations sp op w))
  ≡ₚ map st_id stations.
Proof. rewrite !map_st_id_listingPart. by rewrite processStations_listingPart. Qed.

(** X11.  The work never changes what the listing gave.  Whatever the
    answers of the remote service and whatever the ids, [processStations]
    returns an array with the same stations as the one it was given: the
    same ids, coordinates and sockets, each as often as before; no station
    is added, dropped or renamed. *)
Theorem listing_part_preserved (stations : list station) (w : world) :
  map listingPart (lp_stations (processStations cfg txt e stations sp op w))
  ≡ₚ map listingPart stations
  ∧ map st_id (lp_stations (processStations cfg txt e stations sp op w))
    ≡ₚ map st_id stations
  ∧ length (lp_stations (processStations cfg txt e stations sp op w))
    = length stations.
Proof.
  split; [apply processStations_listingPart | ].
  split; [apply processStations_ids | ].
  rewrite <- (length_map listingPart), processStations_listingPart.
  apply length_map.
Qed.

Lemma elem_of_imap_attempt (l : list station) s' :
  s' ∈ imap (λ j s, if truthy (st_id s) then attemptAt e j s else s) l →
  s' ∈ l
  ∨ ∃ s j, s ∈ l ∧ truthy (st_id s) = true ∧ s' = attemptAt e j s.
Proof.
  intros (j & s & -> & Hj)%elem_of_lookup_imap.
  apply list_elem_of_lookup_2 in Hj.
  destruct (truthy (st_id s)) eqn:Hs; [right | by left]. eauto.
Qed.

(** X12.  No station is attempted twice, and a settled one never.  In a
    store with distinct ids, after [processStations] every station that
    needed no request (succeeded, or failed with the retries used up) is in
    the array as it was, and every record of the array is a record of
    before, either unchanged or updated with the answer to the one request
    that was sent for it in this invocation; the ids are still distinct. *)
Theorem one_attempt_per_invocation (stations : list station) (w : world) :
  NoDup (map st_id stations) →
  (∀ s, s ∈ stations → needsFetch cfg s = false →
        s ∈ lp_stations (processStations cfg txt e stations sp op w))
  ∧ (∀ s', s' ∈ lp_stations (processStations cfg txt e stations sp op w) →
           s' ∈ stations
           ∨ ∃ s j, s ∈ stations ∧ needsFetch cfg s = true
                    ∧ s ∈ lp_requested (processStations cfg txt e stations sp op w)
                    ∧ s' = attemptAt e j s
                    ∧ fetchAttempts s' = (fetchAttempts s + 1)%nat)
  ∧ NoDup (map st_id (lp_stations (processStations cfg txt e stations sp op w))).
Proof.
  intros Hnd.
  destruct (checksPassed_spec cfg e 0 (length (stationsToProcess cfg stations)))
    as (Hk & Hpass & Hstop).
  destruct (processStations_trace cfg txt e sp op stations w _ Hnd Hk Hpass Hstop)
    as [Hperm Hreq].
  set (k := checksPassed cfg e 0 (length (stationsToProcess cfg stations))) in *.
  fold (stationsToProcess cfg stations) in Hperm, Hreq.
  split; [ | split].
  - intros s Hs Hsettled. rewrite Hperm. rewrite !elem_of_app. right. right. right.
    apply list_elem_of_filter. split; [ | done]. by rewrite Hsettled.
  - intros s' Hs'. rewrite Hperm in Hs'. rewrite !elem_of_app in Hs'.
    assert (Hbatch : ∀ s, s ∈ stationsToProcess cfg stations →
                          s ∈ stations ∧ needsFetch cfg s = true).
    { intros s Hs. unfold stationsToProcess in Hs.
      apply subseteq_take, list_elem_of_filter in Hs. tauto. }
    destruct Hs' as [Hs' | [Hs' | [Hs' | Hs']]].
    + apply elem_of_imap_attempt in Hs' as [Hs' | (s & j & Hs & Hid & ->)].
      * left. apply subseteq_take in Hs'. by apply Hbatch in Hs' as [? _].
      * right. exists s, j. pose proof Hs as Hs0.
        apply subseteq_take in Hs0. apply Hbatch in Hs0 as [? ?].
        split; [done | ]. split; [done | ]. split.
        -- rewrite Hreq. apply list_elem_of_filter. done.
        -- split; [done | ]. apply recordAttempt_received.
    + left. apply subseteq_drop in Hs'. by apply Hbatch in Hs' as [? _].
    + left. unfold beyondBudget in Hs'.
      apply subseteq_drop, list_elem_of_filter in Hs'. tauto.
    + left. unfold settledStations in Hs'. apply list_elem_of_filter in Hs'. tauto.
  - by rewrite processStations_ids.
Qed.
End LoopProperties.

(** Twelve pending stations, a budget of five requests, and the fifteen
    minutes over when the third station comes up: two requests. *)
Lemma work_loop_trace_witness :
  lp_requested (processStations five_requests_config plain_text slow_env twelve_pending
                  "data_20250415T000000Z.json" "stations_20250415T000000Z.json"
                  empty_world)
  = filter (λ s, truthy (st_id s) = true)
      (take 2 (stationsToProcess five_requests_config twelve_pending))
  ∧ lp_stations (processStations five_requests_config plain_text slow_env twelve_pending
                   "data_20250415T000000Z.json" "stations_20250415T000000Z.json"
                   empty_world)
    ≡ₚ imap (λ j s, if truthy (st_id s) then attemptAt slow_env j s else s)
         (take 2 (stationsToProcess five_requests_config twelve_pending))
       ++ drop 2 (stationsToProcess five_requests_config twelve_pending)
       ++ beyondBudget five_requests_config twelve_pending
       ++ settledStations five_requests_config twelve_pending
  ∧ twelve_pending
    ≡ₚ stationsToProcess five_requests_config twelve_pending
       ++ beyondBudget five_requests_config twelve_pending
       ++ settledStations five_requests_config twelve_pending.
Proof.
  apply (work_loop_trace five_requests_config plain_text slow_env
           "data_20250415T000000Z.json" "stations_20250415T000000Z.json"
           twelve_pending empty_world 2).
  - apply (bool_decide_unpack _). vm_compute. exact I.
  - vm_compute. lia.
  - intros [|[|j]] Hj; [vm_compute; reflexivity | vm_compute; reflexivity | lia].
  - intros _. vm_compute. discriminate.
Defined.

Lemma one_attempt_per_invocation_witness :
  (∀ s, s ∈ twelve_pending → needsFetch five_requests_config s = false →
        s ∈ lp_stations
              (processStations five_requests_config plain_text slow_env twelve_pending
                 "data_20250415T000000Z.json" "stations_20250415T000000Z.json"
                 empty_world))
  ∧ (∀ s', s' ∈ lp_stations
                  (processStations five_requests_config plain_text slow_env
                     twelve_pending "data_20250415T000000Z.json"
                     "stations_20250415T000000Z.json" empty_world) →
           s' ∈ twelve_pending
           ∨ ∃ s j, s ∈ twelve_pending ∧ needsFetch five_requests_config s = true
                    ∧ s ∈ lp_requested
                            (processStations five_requests_config plain_text slow_env
                               twelve_pending "data_20250415T000000Z.json"
                               "stations_20250415T000000Z.json" empty_world)
                    ∧ s' = attemptAt slow_env j s
                    ∧ fetchAttempts s' = (fetchAttempts s + 1)%nat)
  ∧ NoDup (map st_id
             (lp_stations
                (processStations five_requests_config plain_text slow_env twelve_pending
                   "data_20250415T000000Z.json" "stations_20250415T000000Z.json"
                   empty_world))).
Proof.
  apply (one_attempt_per_invocation five_requests_config plain_text slow_env
           "data_20250415T000000Z.json" "stations_20250415T000000Z.json"
           twelve_pending empty_world).
  apply (bool_decide_unpack _). vm_compute. exact I.
Defined.

(** ** One attempt *)
Section AttemptFacts.
Context (cfg : config) (e : env).

Lemma attemptAt_success i s :
  fetchStatus (attemptAt e i s) = success
  ↔ ∃ d, detail_responses e i (st_id s) = RespBody (Some d) ∧ truthy (d_id d) = true.
Proof.
  unfold attemptAt, recordAttempt, fetchStationDetails.
  destruct (detail_responses e i (st_id s)) as [err | [d|]]; simpl.
  - split; [done | by intros (d & ? & _)].
  - destruct (truthy (d_id d)) eqn:Hd; simpl.
    + split; [eauto | done].
    + split; [done | ]. intros (d' & [= <-] & Hd'). congruence.
  - split; [done | by intros (d & ? & _)].
Qed.

Lemma attemptAt_status i s :
  fetchStatus (attemptAt e i s) = success ∨ fetchStatus (attemptAt e i s) = failed.
Proof.
  unfold attemptAt, recordAttempt.
  destruct (fr_success _); simpl; [by left | by right].
Qed.

(** X13.  What one attempt does to a record.  The attempt is counted and
    dated whatever its result, and what the listing gave is kept.  The
    record says [success] exactly when the request was answered with an
    object that has a usable id; then it holds that object and no error
    text.  In every other case (time-out, network or HTTP error, a body
    that is not such an object) the record says [failed], holds the error
    text, and keeps the details it had.  After the attempt the station is
    never [pending]; it needs a further request exactly when it failed with
    retries left, and is permanently failed exactly when it failed with
    none left. *)
Theorem attempt_outcome (i : nat) (s : station) :
  listingPart (attemptAt e i s) = listingPart s
  ∧ fetchAttempts (attemptAt e i s) = (fetchAttempts s + 1)%nat
  ∧ lastAttemptTimestamp (attemptAt e i s) = Some (now_after_fetch e i)
  ∧ (fetchStatus (attemptAt e i s) = success
     ↔ ∃ d, detail_responses e i (st_id s) = RespBody (Some d)
            ∧ truthy (d_id d) = true)
  ∧ (∀ d, detail_responses e i (st_id s) = RespBody (Some d) →
          truthy (d_id d) = true →
          details (attemptAt e i s) = Some d ∧ errorInfo (attemptAt e i s) = None)
  ∧ (fetchStatus (attemptAt e i s) ≠ success →
     fetchStatus (attemptAt e i s) = failed
     ∧ details (attemptAt e i s) = details s
     ∧ is_Some (errorInfo (attemptAt e i s)))
  ∧ (needsFetch cfg (attemptAt e i s) = true
     ↔ fetchStatus (attemptAt e i s) = failed
       ∧ (fetchAttempts s + 1 < MAX_RETRIES cfg)%nat)
  ∧ (permanentlyFailed cfg (attemptAt e i s) = true
     ↔ fetchStatus (attemptAt e i s) = failed
       ∧ (MAX_RETRIES cfg ≤ fetchAttempts s + 1)%nat).
Proof.
  split. { unfold attemptAt, recordAttempt. by destruct (fr_success _). }
  assert (Hn : fetchAttempts (attemptAt e i s) = (fetchAttempts s + 1)%nat).
  { unfold attemptAt, recordAttempt. by destruct (fr_success _). }
  split; [exact Hn | ].
  split. { unfold attemptAt, recordAttempt. by destruct (fr_success _). }
  split; [apply attemptAt_success | ].
  split.
  { intros d Hd Hid. unfold attemptAt, recordAttempt, fetchStationDetails.
    rewrite Hd, Hid. done. }
  split.
  { unfold attemptAt, recordAttempt, fetchStationDetails.
    destruct (detail_responses e i (st_id s)) as [err | [d|]]; simpl; eauto.
    destruct (truthy (d_id d)); simpl; eauto. done. }
  split.
  - unfold needsFetch. rewrite Hn.
    rewrite orb_true_iff, andb_true_iff, !bool_decide_eq_true, Nat.ltb_lt.
    destruct (attemptAt_status i s) as [H | H]; rewrite H;
      split; intros; intuition congruence.
  - unfold permanentlyFailed. rewrite Hn.
    by rewrite andb_true_iff, bool_decide_eq_true, Nat.leb_le.
Qed.
End AttemptFacts.

Section HealthyService.
Context (cfg : config) (txt : text_ops) (e : env) (sp op : string).

Lemma needsFetch_permanentlyFailed s :
  needsFetch cfg s = true → permanentlyFailed cfg s = false.
Proof.
  unfold needsFetch, permanentlyFailed.
  rewrite orb_true_iff, andb_true_iff, !bool_decide_eq_true, Nat.ltb_lt.
  intros [H | [H1 H2]].
  - rewrite H. done.
  - rewrite (proj2 (Nat.leb_gt _ _)) by lia. apply andb_false_r.
Qed.

Lemma success_settled s :
  fetchStatus s = success → needsFetch cfg s = false ∧ permanentlyFailed cfg s = false.
Proof. intros H. unfold needsFetch, permanentlyFailed. by rewrite H. Qed.

(** X14.  A run with enough budget and a healthy service ends complete.
    In a store with distinct ids in which the stations that need a request
    have usable ids and are no more than [MAX_REQUESTS_PER_RUN], when no
    time check finds the budget used up and every request is answered with
    an object that has a usable id, [processStations] sends a request for
    every station that needed one, each of them ends as [success], the
    others are as they were, the array is complete, and the number of
    permanently failed stations is what it was. *)
Theorem healthy_service_completes (stations : list station) (w : world) :
  NoDup (map st_id stations) →
  (∀ s, s ∈ stations → needsFetch cfg s = true → truthy (st_id s) = true) →
  (length (filter (λ s, needsFetch cfg s = true) stations)
   ≤ MAX_REQUESTS_PER_RUN cfg)%nat →
  (∀ j, (j < length (filter (λ s, needsFetch cfg s = true) stations))%nat →
        now_at_time_check e j - scriptStartTime e < MAX_DURATION_MS cfg) →
  (∀ j s, s ∈ stations → needsFetch cfg s = true →
          ∃ d, detail_responses e j (st_id s) = RespBody (Some d)
               ∧ truthy (d_id d) = true) →
  lp_requested (processStations cfg txt e stations sp op w)
  = filter (λ s, needsFetch cfg s = true) stations
  ∧ isStateComplete cfg (lp_stations (processStations cfg txt e stations sp op w)) = true
  ∧ (∀ s', s' ∈ lp_stations (processStations cfg txt e stations sp op w) →
           (s' ∈ stations ∧ needsFetch cfg s' = false)
           ∨ (fetchStatus s' = success
              ∧ ∃ s j, s ∈ stations ∧ needsFetch cfg s = true ∧ s' = attemptAt e j s))
  ∧ countPermanentlyFailedStations cfg
      (lp_stations (processStations cfg txt e stations sp op w))
    = countPermanentlyFailedStations cfg stations.
Proof.
  intros Hnd Hid Hbudget Htime Hresp.
  set (eligible := filter (λ s, needsFetch cfg s = true) stations) in *.
  assert (Hel : ∀ s, s ∈ eligible → s ∈ stations ∧ needsFetch cfg s = true).
  { intros s Hs. apply list_elem_of_filter in Hs. tauto. }
  assert (Hbatch : take (MAX_REQUESTS_PER_RUN cfg) eligible = eligible)
    by (by apply take_ge).
  destruct (processStations_trace cfg txt e sp op stations w (length eligible))
    as [Hperm Hreq]; fold eligible; rewrite ?Hbatch; [done | done | done | lia | ].
  fold eligible in Hperm, Hreq. rewrite Hbatch in Hperm, Hreq.
  rewrite firstn_all in Hperm, Hreq. rewrite drop_all in Hperm.
  rewrite (drop_ge eligible) in Hperm by done. cbn [app] in Hperm.
  assert (Hattempted :
    ∀ s', s' ∈ imap (λ j s, if truthy (st_id s) then attemptAt e j s else s) eligible →
          fetchStatus s' = success
          ∧ ∃ s j, s ∈ stations ∧ needsFetch cfg s = true ∧ s' = attemptAt e j s).
  { intros s' (j & s & -> & Hj)%elem_of_lookup_imap.
    apply list_elem_of_lookup_2, Hel in Hj as [Hs Hneeds].
    rewrite (Hid s Hs Hneeds). split; [ | eauto].
    by apply attemptAt_success, Hresp. }
  assert (Hsettled : ∀ s, s ∈ filter (λ s, ¬ needsFetch cfg s = true) stations →
                          s ∈ stations ∧ needsFetch cfg s = false).
  { intros s [Hs1 Hs2]%list_elem_of_filter. split; [done | ].
    by apply not_true_is_false. }
  split.
  { rewrite Hreq. apply filter_all, Forall_forall. intros s Hs.
    apply Hel in Hs as [Hs1 Hs2]. by apply Hid. }
  split.
  { rewrite (isStateComplete_Permutation cfg _ _ Hperm).
    apply isStateComplete_Forall, Forall_app. split; apply Forall_forall; intros s Hs.
    - apply Hattempted in Hs as [Hs _]. by apply success_settled.
    - by apply Hsettled in Hs as [_ ?]. }
  split.
  { intros s' Hs'. rewrite Hperm in Hs'. apply elem_of_app in Hs' as [Hs' | Hs'].
    - right. by apply Hattempted.
    - left. by apply Hsettled. }
  rewrite (countPermanentlyFailedStations_Permutation cfg _ _ Hperm).
  rewrite (countPermanentlyFailedStations_Permutation cfg stations
             (eligible ++ filter (λ s, ¬ needsFetch cfg s = true) stations)).
  2:{ symmetry. apply filter_app_complement. }
  unfold countPermanentlyFailedStations. rewrite !filter_app, !length_app.
  f_equal. rewrite !filter_none; [done | | ].
  - apply Forall_forall. intros s Hs. apply Hel in Hs as [_ Hs].
    apply needsFetch_permanentlyFailed in Hs. by rewrite Hs.
  - apply Forall_forall. intros s Hs. apply Hattempted in Hs as [Hs _].
    apply success_settled in Hs as [_ Hs]. by rewrite Hs.
Qed.
End HealthyService.

(** ** Succeeded records carry their payload *)
Section SucceededRecords.
Context (cfg : config) (txt : text_ops).

Lemma recordAttempt_succeededWithDetails e i now s x :
  succeededWithDetails (recordAttempt now (fetchStationDetails e i s) x).
Proof.
  unfold succeededWithDetails, recordAttempt, fetchStationDetails.
  destruct (detail_responses e i (st_id s)) as [err | [d|]]; simpl; try done.
  destruct (truthy (d_id d)) eqn:Hd; simpl; [eauto | done].
Qed.

Lemma processLoop_succeededWithDetails e sp op batch todo :
  ∀ i st,
    Forall succeededWithDetails (lp_stations st) →
    Forall succeededWithDetails
      (lp_stations (processLoop cfg txt e sp op batch todo i st)).
Proof.
  induction todo as [|s todo IH]; intros i st Hinv; simpl; [done | ].
  destruct (MAX_DURATION_MS cfg <=? _); [done | ].
  destruct (negb (truthy (st_id s))); [by apply IH | ].
  destruct (findIndex (st_id s) (lp_stations st)) as [idx|]; [ | by apply IH].
  assert (Halter : Forall succeededWithDetails
            (alter (recordAttempt (now_after_fetch e i) (fetchStationDetails e i s))
               idx (lp_stations st))).
  { apply Forall_alter; [done | ]. intros x _ _.
    apply recordAttempt_succeededWithDetails. }
  destruct (_ || _); [unfold saveState | ]; cbv beta iota zeta; apply IH;
    cbn [lp_stations]; rewrite ?sortStationsById_Permutation; done.
Qed.

Lemma processStations_succeededWithDetails e stations sp op w :
  Forall succeededWithDetails stations →
  Forall succeededWithDetails (lp_stations (processStations cfg txt e stations sp op w)).
Proof.
  intros Hinv. unfold processStations. destruct (take _ _) as [|s l];
    unfold saveState; cbv beta iota zeta; cbn [lp_stations];
    rewrite sortStationsById_Permutation; [done | ].
  by apply processLoop_succeededWithDetails.
Qed.

Lemma fetchStationList_fresh e stations :
  fetchStationList e = Some stations →
  Forall (λ s, fetchStatus s = pending ∧ fetchAttempts s = 0%nat
               ∧ lastAttemptTimestamp s = None ∧ details s = None
               ∧ errorInfo s = None) stations.
Proof.
  unfold fetchStationList. destruct (listing_response e) as [listing|]; [ | done].
  intros [= <-]. apply Forall_forall. intros s (l & -> & _)%list_elem_of_fmap. done.
Qed.

Lemma determineRunState_loaded e w stations :
  determineRunState cfg e w = NoRunNeeded stations →
  ∃ latest older, listStateFiles w = latest :: older ∧ loadState latest w = Some stations.
Proof.
  unfold determineRunState.
  destruct (listStateFiles w) as [|latest older]; [done | ].
  destruct (loadState latest w) as [st|] eqn:El; [ | done].
  destruct (_ || _); [done | ].
  destruct (parseTimestamp _); [ | done].
  destruct (Qltb _ _); [ | done]. intros [= <-]. eauto.
Qed.

Lemma processAndEvaluate_succeededWithDetails e startNewRun stations sp op w :
  Forall succeededWithDetails stations →
  Forall succeededWithDetails
    (processAndEvaluate cfg txt e startNewRun stations sp op w).1.2.
Proof.
  intros Hinv. unfold processAndEvaluate.
  destruct (negb (isStateComplete cfg stations)).
  - cbn [fst snd]. by apply processStations_succeededWithDetails.
  - destruct (negb startNewRun); [ | done].
    unfold saveState; cbv beta iota zeta. cbn [fst snd].
    by rewrite sortStationsById_Permutation.
Qed.

(** X15.  A record that says [success] carries the payload of its request.
    [processStations] keeps this true of every record of the array if it
    was true before, an array built from a listing has it, and so has the
    array an invocation ends with when the state files of the history have
    it: every record with status [success] holds a detail object with a
    usable id, and no error text. *)
Theorem succeeded_records_have_details :
  (∀ e stations sp op w,
     Forall succeededWithDetails stations →
     Forall succeededWithDetails
       (lp_stations (processStations cfg txt e stations sp op w)))
  ∧ (∀ e stations,
       fetchStationList e = Some stations → Forall succeededWithDetails stations)
  ∧ (∀ e w stations,
       (∀ f loaded, loadState f w = Some loaded → Forall succeededWithDetails loaded) →
       currentStations (main cfg txt e w) = Some stations →
       Forall succeededWithDetails stations).
Proof.
  assert (Hfresh : ∀ e stations,
            fetchStationList e = Some stations → Forall succeededWithDetails stations).
  { intros e stations H. apply fetchStationList_fresh in H.
    eapply Forall_impl; [exact H | ]. intros s (Hs & _) Hs'. congruence. }
  split; [intros; by apply processStations_succeededWithDetails | ].
  split; [exact Hfresh | ].
  intros e w stations Hhist. unfold main.
  destruct (determineRunState cfg e w) as [st sp op | st | ] eqn:Hsel.
  - apply determineRunState_ContinueRun in Hsel as (_ & Hload & _).
    pose proof (processAndEvaluate_succeededWithDetails e false st sp op w
                  (Hhist _ _ Hload)) as H.
    destruct (processAndEvaluate cfg txt e false st sp op w) as [[code st'] w'].
    cbn [fst snd currentStations] in *. by intros [= <-].
  - apply determineRunState_loaded in Hsel as (latest & older & _ & Hload).
    cbn [currentStations]. intros [= <-]. by apply (Hhist latest).
  - destruct (fetchStationList e) as [st|] eqn:Hlist; [ | done].
    pose proof (Hfresh e st Hlist) as Hst.
    set (sp := stateFilename _). set (op := outputFilename _).
    pose proof (saveState_stations txt sp op st w) as Hst1.
    destruct (saveState txt st sp op w) as [st1 w1]. cbn [fst] in Hst1.
    assert (Hinv1 : Forall succeededWithDetails st1)
      by (by rewrite Hst1, sortStationsById_Permutation).
    pose proof (processAndEvaluate_succeededWithDetails e true st1 sp op w1 Hinv1) as H.
    destruct (processAndEvaluate cfg txt e true st1 sp op w1) as [[code st'] w'].
    cbn [fst snd currentStations] in *. by intros [= <-].
Qed.

Lemma normalizeStationData_properties d o :
  normalizeStationData txt d = Some o → field_names o = outputProperties.
Proof.
  unfold normalizeStationData. destruct (negb (truthy (d_id d))); [done | ].
  by intros [= <-].
Qed.

Lemma field_names_set_id n o :
  field_names o = outputProperties →
  field_names (set_field "id" (JInt n) o) = outputProperties.
Proof.
  destruct o as [| | | | |fs]; try done.
  destruct fs as [|[k v] fs]; [done | ]. simpl. intros [= -> Hfs]. simpl. by rewrite Hfs.
Qed.

(** X16.  The records of the output artifact all have the same shape.  For
    an array in which the records with status [success] carry their
    payload, every record of the artifact has the fifteen properties [id],
    [lat], [lng], [title], [address], [phone], [reportUrl],
    [reservationUrl], [operatorId], [operatorTitle], [serviceType], [brand],
    [cityId], [districtId], [sockets], in this order; the reduced record of
    four properties that the projection falls back on is not written. *)
Theorem output_records_uniform (state : list station) (o : json) :
  Forall succeededWithDetails state →
  o ∈ artifactOf txt state →
  field_names o = outputProperties.
Proof.
  intros Hinv (s & Hs & Ho)%elem_of_artifactOf.
  rewrite Forall_forall in Hinv. specialize (Hinv s Hs).
  revert Ho. unfold cleanStation.
  destruct (parseInt (st_id s)) as [baseId|]; [ | done].
  destruct (fetchStatus s) eqn:Hst; try (by intros [= <-]).
  destruct (Hinv Hst) as (d & Hd & Hid & _). rewrite Hd.
  destruct (normalizeStationData txt d) as [n|] eqn:Hn.
  - intros [= <-]. apply field_names_set_id.
    by apply normalizeStationData_properties in Hn.
  - unfold normalizeStationData in Hn. by rewrite Hid in Hn.
Qed.
End SucceededRecords.

Lemma healthy_service_completes_witness :
  lp_requested (processStations default_config plain_text healthy_env three_stations
                  "data_20250415T000000Z.json" "stations_20250415T000000Z.json"
                  empty_world)
  = filter (λ s, needsFetch default_config s = true) three_stations
  ∧ isStateComplete default_config
      (lp_stations (processStations default_config plain_text healthy_env three_stations
                      "data_20250415T000000Z.json" "stations_20250415T000000Z.json"
                      empty_world)) = true
  ∧ (∀ s', s' ∈ lp_stations
                  (processStations default_config plain_text healthy_env three_stations
                     "data_20250415T000000Z.json" "stations_20250415T000000Z.json"
                     empty_world) →
           (s' ∈ three_stations ∧ needsFetch default_config s' = false)
           ∨ (fetchStatus s' = success
              ∧ ∃ s j, s ∈ three_stations ∧ needsFetch default_config s = true
                       ∧ s' = attemptAt healthy_env j s))
  ∧ countPermanentlyFailedStations default_config
      (lp_stations (processStations default_config plain_text healthy_env three_stations
                      "data_20250415T000000Z.json" "stations_20250415T000000Z.json"
                      empty_world))
    = countPermanentlyFailedStations default_config three_stations.
Proof.
  apply (healthy_service_completes default_config plain_text healthy_env
           "data_20250415T000000Z.json" "stations_20250415T000000Z.json"
           three_stations empty_world).
  - apply (bool_decide_unpack _). vm_compute. exact I.
  - intros s Hs _. unfold three_stations in Hs.
    repeat (apply elem_of_cons in Hs as [-> | Hs]); try reflexivity.
    by apply elem_of_nil in Hs.
  - vm_compute. lia.
  - intros j _. vm_compute. reflexivity.
  - intros j s Hs _. eexists. split; [reflexivity | ]. unfold three_stations in Hs.
    repeat (apply elem_of_cons in Hs as [-> | Hs]); try reflexivity.
    by apply elem_of_nil in Hs.
Defined.

Lemma output_records_uniform_witness :
  ∃ o,
    cleanStation plain_text
      (sample_station (IdNum 3) success 1 (Some (sample_detail (IdNum 3)))) = Some o
    ∧ field_names o = outputProperties.
Proof.
  eexists. split; [vm_compute; reflexivity | ].
  apply (output_records_uniform plain_text
           [sample_station (IdNum 3) success 1 (Some (sample_detail (IdNum 3)))]).
  - constructor; [ | constructor]. intros _. eexists.
    split; [reflexivity | ]. split; reflexivity.
  - apply elem_of_artifactOf. eexists. split; [apply list_elem_of_here | ].
    vm_compute. reflexivity.
Defined.

(** ** Permanent failures and the exit status *)
Section PermanentFailures.
Context (cfg : config) (txt : text_ops).

Lemma hasPermanentlyFailedStations_count stations :
  hasPermanentlyFailedStations cfg stations = true
  ↔ (0 < countPermanentlyFailedStations cfg stations)%nat.
Proof.
  unfold hasPermanentlyFailedStations, countPermanentlyFailedStations.
  induction stations as [|s l IH]; simpl; [split; [done | lia] | ].
  rewrite orb_true_iff, IH.
  destruct (permanentlyFailed cfg s) eqn:Hs.
  - rewrite filter_cons_True by done. simpl. split; [lia | by left].
  - rewrite filter_cons_False by (by rewrite Hs). split; [by intros [? | ?] | by right].
Qed.

Lemma hasPermanentlyFailedStations_spec stations :
  hasPermanentlyFailedStations cfg stations = true
  ↔ ∃ s, s ∈ stations ∧ isPermanentlyFailed cfg s.
Proof.
  unfold hasPermanentlyFailedStations. rewrite existsb_exists. split.
  - intros (s & Hs & Hp). exists s. split; [by apply list_elem_of_In | ].
    by apply permanentlyFailed_spec.
  - intros (s & Hs & Hp). exists s. split; [by apply list_elem_of_In | ].
    by apply permanentlyFailed_spec.
Qed.

(** X17.  Without a permanently failed station the invocation exits with
    status 0, whatever the threshold (also below zero) and however many
    stations are still pending or retryable; [hasPermanentlyFailedStations]
    says whether there is one, in agreement with the count that the exit
    status is computed from. *)
Theorem permanent_failures_and_exit (e : env) (w : world) (stations : list station) :
  currentStations (main cfg txt e w) = Some stations →
  (hasPermanentlyFailedStations cfg stations = true
   ↔ ∃ s, s ∈ stations ∧ isPermanentlyFailed cfg s)
  ∧ (hasPermanentlyFailedStations cfg stations = true
     ↔ (0 < countPermanentlyFailedStations cfg stations)%nat)
  ∧ (hasPermanentlyFailedStations cfg stations = false →
     exitCode (main cfg txt e w) = 0)
  ∧ (exitCode (main cfg txt e w) ≠ 0 →
     ∃ s, s ∈ stations ∧ isPermanentlyFailed cfg s).
Proof.
  intros Hcur.
  split; [apply hasPermanentlyFailedStations_spec | ].
  split; [apply hasPermanentlyFailedStations_count | ].
  assert (Hzero : hasPermanentlyFailedStations cfg stations = false →
                  exitCode (main cfg txt e w) = 0).
  { intros Hnone. rewrite (main_exitCode cfg txt e w stations Hcur).
    unfold thresholdExitCode.
    destruct (0 <? countPermanentlyFailedStations cfg stations)%nat eqn:E; [ | done].
    apply Nat.ltb_lt, hasPermanentlyFailedStations_count in E. congruence. }
  split; [exact Hzero | ].
  intros Hne. apply hasPermanentlyFailedStations_spec.
  destruct (hasPermanentlyFailedStations cfg stations); [done | ].
  by destruct Hne; apply Hzero.
Qed.
End PermanentFailures.

(** Twelve pending stations and a failing service: one failed attempt each
    is no permanent failure. *)
Lemma permanent_failures_and_exit_witness :
  exitCode (main default_config plain_text
              (failing_env [1; 2; 3; 4; 5; 6; 7; 8; 9; 10; 11; 12]) empty_world) = 0.
Proof.
  destruct (permanent_failures_and_exit default_config plain_text
              (failing_env [1; 2; 3; 4; 5; 6; 7; 8; 9; 10; 11; 12]) empty_world
              (lp_stations
                 (processStations default_config plain_text
                    (failing_env [1; 2; 3; 4; 5; 6; 7; 8; 9; 10; 11; 12])
                    (default [] (fetchStationList
                                   (failing_env [1; 2; 3; 4; 5; 6; 7; 8; 9; 10; 11; 12])))
                    (stateFilename "20250415T000000Z")
                    (outputFilename (Some "20250415T000000Z")) empty_world)))
    as (_ & _ & H & _).
  - vm_compute. reflexivity.
  - apply H. vm_compute. reflexivity.
Defined.

(** ** Publication of the run just processed *)
Section PublishCurrentRun.
Context (cfg : config) (txt : text_ops).

Lemma thresholdExitCode_healthy stations :
  (permanentFailureRatio cfg stations * 100
   <= PERMANENT_FAILURE_THRESHOLD_PERCENT cfg)%Q →
  thresholdExitCode cfg stations = 0.
Proof.
  intros Hr. unfold thresholdExitCode. destruct (0 <? _)%nat; [ | done].
  unfold Qgtb. rewrite (proj2 (Qle_bool_iff _ _)); [done | ].
  by rewrite failedPercent_ratio_Qeq.
Qed.

Lemma listStateFiles_head w latest older g :
  listStateFiles w = latest :: older → g ∈ listStateFiles w →
  localeCompare g latest ≠ Gt.
Proof.
  intros Hl Hg. pose proof (listStateFiles_sorted w) as Hs. rewrite Hl in Hs, Hg.
  apply StronglySorted_inv in Hs as [_ Hall].
  apply elem_of_cons in Hg as [-> | Hg].
  - unfold localeCompare. by rewrite string_compare_refl.
  - rewrite Forall_forall in Hall. specialize (Hall g Hg).
    unfold in_order, descending, localeCompare in *.
    intros Hgt. apply string_compare_gt_lt in Hgt. by rewrite Hgt in Hall.
Qed.

Lemma run_names e w sp op :
  state_dir w !! stateFilename "" = None →
  ((∃ older, listStateFiles w = sp :: older)
   ∧ op = outputFilename (getTimestampFromFilename sp))
  ∨ (determineRunState cfg e w = StartNewRun
     ∧ sp = stateFilename (generateTimestamp (now_at_new_run e))
     ∧ op = outputFilename (Some (generateTimestamp (now_at_new_run e)))) →
  (determineRunState cfg e w = StartNewRun →
   ∀ g, g ∈ listStateFiles w →
        localeCompare g (stateFilename (generateTimestamp (now_at_new_run e))) ≠ Gt) →
  ∃ timestamp,
    sp = stateFilename timestamp ∧ timestamp ≠ ""
    ∧ op = outputFilename (Some timestamp)
    ∧ ∀ g, g ∈ listStateFiles w → localeCompare g sp ≠ Gt.
Proof.
  intros Hnone Hnames Hnewest.
  destruct Hnames as [[[older Hl] ->] | (Hnew & -> & ->)].
  - assert (Hin : sp ∈ listStateFiles w) by (rewrite Hl; apply list_elem_of_here).
    apply elem_of_listStateFiles in Hin as [(ts & ->)%isStateFilename_decompose Hsome].
    exists ts. split; [done | ]. split.
    + intros ->. rewrite Hnone in Hsome. by destruct Hsome.
    + split; [by rewrite getTimestampFromFilename_state | ].
      intros g Hg. by apply (listStateFiles_head w _ older).
  - exists (generateTimestamp (now_at_new_run e)). split; [done | ].
    split; [apply generateTimestamp_nonempty | ]. split; [done | by apply Hnewest].
Qed.

(** Publication on a file system in which the newest state file holds a
    healthy array and the output file of its timestamp the projection. *)
Lemma updateLatestCompleteOutput_persisted w wb timestamp stations :
  wb = {| state_dir := <[stateFilename timestamp := StateArray stations]> (state_dir w);
          output_dir :=
            <[outputFilename (Some timestamp) := artifactOf txt stations]> (output_dir w);
          latest_output := latest_output w |} →
  timestamp ≠ "" →
  isRunComplete cfg stations →
  (permanentFailureRatio cfg stations * 100
   <= PERMANENT_FAILURE_THRESHOLD_PERCENT cfg)%Q →
  (∀ g, g ∈ listStateFiles w → localeCompare g (stateFilename timestamp) ≠ Gt) →
  latest_output (updateLatestCompleteOutput cfg wb) = Some (artifactOf txt stations).
Proof.
  intros Hw Hne Hcomplete Hratio Hfirst.
  assert (Hhealthy : newestHealthyRun cfg wb (stateFilename timestamp)).
  { split.
    - split; [apply isStateFilename_stateFilename | ]. exists stations.
      split; [ | done]. rewrite Hw. cbn [state_dir]. apply lookup_insert_eq.
    - intros g Hg. apply healthyRun_listed, elem_of_listStateFiles in Hg as [Hg1 Hg2].
      destruct (decide (g = stateFilename timestamp)) as [-> | Hneq].
      + unfold localeCompare. by rewrite string_compare_refl.
      + apply Hfirst, elem_of_listStateFiles. split; [done | ].
        rewrite Hw in Hg2. cbn [state_dir] in Hg2.
        by rewrite lookup_insert_ne in Hg2. }
  rewrite (updateLatestCompleteOutput_newest cfg wb _ timestamp Hhealthy
             (getTimestampFromFilename_state timestamp)).
  rewrite (proj2 (String.eqb_neq _ _) Hne).
  rewrite Hw. cbn [output_dir]. by rewrite lookup_insert_eq.
Qed.

End PublishCurrentRun.


(** ** The selection of the run *)
Section Selection.
Context (cfg : config).

Lemma needsProcessing_spec stations :
  negb (isStateComplete cfg stations)
  || (isStateComplete cfg stations
      && Qgtb (failedPercent (countPermanentlyFailedStations cfg stations)
                 (length stations))
           (PERMANENT_FAILURE_THRESHOLD_PERCENT cfg)) = true
  ↔ ¬ isRunComplete cfg stations
    ∨ (PERMANENT_FAILURE_THRESHOLD_PERCENT cfg
       < permanentFailureRatio cfg stations * 100)%Q.
Proof.
  rewrite orb_true_iff, andb_true_iff, negb_true_iff, Qgtb_true.
  rewrite failedPercent_ratio_Qeq.
  rewrite <- isStateComplete_isRunComplete.
  destruct (isStateComplete cfg stations); intuition congruence.
Qed.


Lemma Qltb_true a b : Qltb a b = true ↔ (a < b)%Q.
Proof.
  unfold Qltb. rewrite negb_true_iff. split.
  - intros H. apply Qnot_le_lt. intros Hle. apply Qle_bool_iff in Hle. congruence.
  - intros H. apply not_true_is_false. intros Hle. apply Qle_bool_iff in Hle.
    apply (Qlt_not_le _ _ H Hle).
Qed.

Lemma days_ago_lt (ms : Z) (days : Q) :
  (inject_Z ms / inject_Z (1000 * 60 * 60 * 24) < days)%Q
  ↔ (inject_Z ms < days * inject_Z 86400000)%Q.
Proof.
  change (1000 * 60 * 60 * 24) with 86400000.
  assert (Hpos : (0 < inject_Z 86400000)%Q) by done.
  rewrite <- (Qmult_lt_r _ _ _ Hpos).
  assert (Heq : (inject_Z ms / inject_Z 86400000 * inject_Z 86400000 == inject_Z ms)%Q).
  { by field. }
  by rewrite Heq.
Qed.

(** X20.  The staleness gate.  When the first entry of the history listing
    is the state file of a run started at the instant [t], and that run is
    complete and within the failure threshold, the invocation does nothing
    if fewer than [MIN_INTERVAL_DAYS_IF_COMPLETE] days have passed since the
    second in which the run was started, and starts a new run otherwise. *)
Theorem staleness_gate (e : env) (w : world) (t : Z) (older : list string)
    (stations : list station) :
  1000 ≤ YearFromTime t ≤ 9999 →
  listStateFiles w = stateFilename (generateTimestamp t) :: older →
  loadState (stateFilename (generateTimestamp t)) w = Some stations →
  isRunComplete cfg stations →
  (permanentFailureRatio cfg stations * 100
   <= PERMANENT_FAILURE_THRESHOLD_PERCENT cfg)%Q →
  (determineRunState cfg e w = NoRunNeeded stations
   ↔ (inject_Z (now_at_staleness_check e - 1000 * (t / 1000))
      < MIN_INTERVAL_DAYS_IF_COMPLETE cfg * inject_Z 86400000)%Q)
  ∧ (determineRunState cfg e w = StartNewRun
     ↔ (MIN_INTERVAL_DAYS_IF_COMPLETE cfg * inject_Z 86400000
        <= inject_Z (now_at_staleness_check e - 1000 * (t / 1000)))%Q).
Proof.
  intros Hy Hl Hload Hc Hr. unfold determineRunState. rewrite Hl, Hload.
  pose proof (needsProcessing_spec stations) as Hnp.
  destruct (_ || _).
  { exfalso. destruct (proj1 Hnp eq_refl) as [H | H]; [done | ].
    apply (Qlt_not_le _ _ H Hr). }
  rewrite getTimestampFromFilename_generated by done.
  rewrite parse_generated_timestamp by done.
  destruct (Qltb _ _) eqn:E.
  - apply Qltb_true, days_ago_lt in E. split; [done | ].
    split; [done | ]. intros Hle. exfalso. apply (Qlt_not_le _ _ E Hle).
  - assert (Hge : ¬ (inject_Z (now_at_staleness_check e - 1000 * (t / 1000))
                     < MIN_INTERVAL_DAYS_IF_COMPLETE cfg * inject_Z 86400000)%Q).
    { intros H. apply days_ago_lt, Qltb_true in H. congruence. }
    split; [split; [done | by intros H] | ].
    split; [intros _; by apply Qnot_lt_le | done].
Qed.
End Selection.

(** The run of 9 April 2025 seen on 15 April 2025, six days later. *)
Lemma staleness_gate_witness :
  (determineRunState default_config listing_down_env
     (world_with_run "20250409T000000Z"
        [sample_station (IdNum 1) success 1 (Some (sample_detail (IdNum 1)))])
   = NoRunNeeded [sample_station (IdNum 1) success 1 (Some (sample_detail (IdNum 1)))]
   ↔ (inject_Z (now_at_staleness_check listing_down_env
                - 1000 * (1744156800000 / 1000))
      < MIN_INTERVAL_DAYS_IF_COMPLETE default_config * inject_Z 86400000)%Q)
  ∧ (determineRunState default_config listing_down_env
       (world_with_run "20250409T000000Z"
          [sample_station (IdNum 1) success 1 (Some (sample_detail (IdNum 1)))])
     = StartNewRun
     ↔ (MIN_INTERVAL_DAYS_IF_COMPLETE default_config * inject_Z 86400000
        <= inject_Z (now_at_staleness_check listing_down_env
                     - 1000 * (1744156800000 / 1000)))%Q).
Proof.
  apply (staleness_gate default_config listing_down_env
           (world_with_run "20250409T000000Z"
              [sample_station (IdNum 1) success 1 (Some (sample_detail (IdNum 1)))])
           1744156800000 []).
  - vm_compute. split; discriminate.
  - vm_compute. reflexivity.
  - vm_compute. reflexivity.
  - intros s Hs. apply list_elem_of_singleton in Hs as ->.
    intros [[H | H] _]; discriminate.
  - vm_compute. discriminate.
Defined.

(** ** A new run *)
Section NewRun.
Context (cfg : config) (txt : text_ops).

Lemma listed_lt_asym a b : listed_lt a b = true → listed_lt b a = false.
Proof. apply key_lt_asym. Qed.

Lemma fetchStationList_listing e listing :
  listing_response e = Some listing →
  ∃ stations,
    fetchStationList e = Some stations
    ∧ map listingPart stations = map listedPart (Array_sort listed_lt listing)
    ∧ Sorted (in_order station_lt) stations.
Proof.
  intros Hl. unfold fetchStationList. rewrite Hl. eexists. split; [done | ].
  split; [by rewrite map_map | ].
  apply (Sorted_fmap _ (in_order listed_lt)); [done | ].
  apply Array_sort_Sorted, listed_lt_asym.
Qed.

(** X21.  The array built from a listing.  [fetchStationList] fails exactly
    when the listing request does; otherwise it returns one record for
    each listed station, with the id, the coordinates and the sockets of
    the listing (no sockets when the listing has none), sorted by id, each
    record pending with no attempt, no date, no details and no error text;
    the array is complete only when the listing is empty. *)
Theorem fresh_store (e : env) :
  (fetchStationList e = None ↔ listing_response e = None)
  ∧ (∀ listing,
       listing_response e = Some listing →
       ∃ stations,
         fetchStationList e = Some stations
         ∧ map listingPart stations ≡ₚ map listedPart listing
         ∧ length stations = length listing
         ∧ Sorted (in_order station_lt) stations
         ∧ Forall (λ s, fetchStatus s = pending ∧ fetchAttempts s = 0%nat
                        ∧ lastAttemptTimestamp s = None ∧ details s = None
                        ∧ errorInfo s = None) stations
         ∧ (isStateComplete cfg stations = true ↔ listing = [])).
Proof.
  split.
  { unfold fetchStationList. by destruct (listing_response e). }
  intros listing Hl.
  destruct (fetchStationList_listing e listing Hl) as (stations & Hst & Hparts & Hsorted).
  exists stations. split; [done | ].
  assert (Hlen : length stations = length listing).
  { rewrite <- (length_map listingPart), Hparts, length_map. apply Array_sort_length. }
  split; [by rewrite Hparts, Array_sort_Permutation | ].
  split; [done | ]. split; [done | ].
  pose proof (fetchStationList_fresh e stations Hst) as Hfresh.
  split; [done | ]. split.
  - intros Hc. destruct stations as [|s l].
    + destruct listing; [done | discriminate].
    + apply isStateComplete_Forall, Forall_cons in Hc as [Hs _].
      apply Forall_cons in Hfresh as [(Hp & _) _].
      unfold needsFetch in Hs. by rewrite Hp in Hs.
  - intros ->. by destruct stations.
Qed.

Lemma processAndEvaluate_listingPart e startNewRun stations sp op w :
  map listingPart (processAndEvaluate cfg txt e startNewRun stations sp op w).1.2
  ≡ₚ map listingPart stations.
Proof.
  unfold processAndEvaluate. destruct (negb (isStateComplete cfg stations)).
  - cbn [fst snd]. apply processStations_listingPart.
  - destruct (negb startNewRun); [ | done].
    unfold saveState; cbv beta iota zeta. cbn [fst snd].
    by rewrite sortStationsById_Permutation.
Qed.

(** X22.  A new run covers the listing.  When the invocation starts a new
    run and the listing request is answered, the array it ends with holds
    exactly the listed stations: for each entry of the listing one record
    with its id, coordinates and sockets, and no other record, however the
    detail requests went. *)
Theorem new_run_covers_listing (e : env) (w : world) (listing : list listed_station) :
  determineRunState cfg e w = StartNewRun →
  listing_response e = Some listing →
  ∃ stations,
    currentStations (main cfg txt e w) = Some stations
    ∧ map listingPart stations ≡ₚ map listedPart listing
    ∧ length stations = length listing.
Proof.
  intros Hsel Hl. unfold main. rewrite Hsel.
  destruct (fetchStationList_listing e listing Hl) as (st & -> & Hparts & _).
  set (sp := stateFilename _). set (op := outputFilename _).
  pose proof (saveState_stations txt sp op st w) as Hst1.
  destruct (saveState txt st sp op w) as [st1 w1]. cbn [fst] in Hst1.
  pose proof (processAndEvaluate_listingPart e true st1 sp op w1) as Hp.
  destruct (processAndEvaluate cfg txt e true st1 sp op w1) as [[code st'] w'].
  cbn [fst snd currentStations] in *. exists st'. split; [done | ].
  assert (Hperm : map listingPart st' ≡ₚ map listedPart listing).
  { rewrite Hp, Hst1, sortStationsById_Permutation, Hparts.
    by rewrite Array_sort_Permutation. }
  split; [done | ].
  rewrite <- (length_map listingPart), Hperm. apply length_map.
Qed.
End NewRun.

(** Two listed stations on an empty history, the detail requests failing. *)
Lemma new_run_covers_listing_witness :
  ∃ stations,
    currentStations (main default_config plain_text (failing_env [2; 1]) empty_world)
    = Some stations
    ∧ map listingPart stations
      ≡ₚ map listedPart
           [ {| l_id := IdNum 2; l_lat := None; l_lng := None; l_sockets := None |};
             {| l_id := IdNum 1; l_lat := None; l_lng := None; l_sockets := None |} ]
    ∧ length stations
      = length [ {| l_id := IdNum 2; l_lat := None; l_lng := None; l_sockets := None |};
                 {| l_id := IdNum 1; l_lat := None; l_lng := None; l_sockets := None |} ].
Proof.
  apply (new_run_covers_listing default_config plain_text (failing_env [2; 1])
           empty_world); reflexivity.
Defined.

(** ** The sort by id *)

Lemma key_lt_irrefl k : key_lt k k = false.
Proof. destruct k as [n|]; simpl; [apply Z.ltb_irrefl | done]. Qed.

Lemma station_le_trans : Transitive (in_order station_lt).
Proof.
  intros a b c. unfold in_order, station_lt. apply key_le_trans.
Qed.

Lemma sort_insert_filter_key (k : option Z) x l :
  filter (λ s, sortKey s = k) (sort_insert station_lt x l)
  = filter (λ s, sortKey s = k) (x :: l).
Proof.
  induction l as [|y l IH]; [done | ]. simpl.
  destruct (station_lt y x) eqn:E; [ | done].
  destruct (decide (sortKey y = k)) as [Hy | Hy].
  - rewrite (filter_cons_True _ y) by done. rewrite IH.
    assert (Hx : sortKey x ≠ k).
    { intros Hx. unfold station_lt in E. fold (sortKey y) (sortKey x) in E.
      rewrite Hx, Hy, key_lt_irrefl in E. done. }
    rewrite !(filter_cons_False _ x) by done. by rewrite filter_cons_True.
  - rewrite (filter_cons_False _ y) by done. rewrite IH.
    destruct (decide (sortKey x = k)) as [Hx | Hx].
    + rewrite !(filter_cons_True _ x) by done. by rewrite filter_cons_False.
    + rewrite !(filter_cons_False _ x) by done. by rewrite filter_cons_False.
Qed.

(** X23.  [sortStationsById] sorts by id and is stable.  The result holds
    the same records; the records whose id is no number come first, then
    the others by ascending id; records with the same key keep the order
    they had; an array that is in order is returned as it is. *)
Theorem sortStationsById_spec (stations : list station) :
  sortStationsById stations ≡ₚ stations
  ∧ StronglySorted (λ a b, key_lt (sortKey b) (sortKey a) = false)
      (sortStationsById stations)
  ∧ (∀ k, filter (λ s, sortKey s = k) (sortStationsById stations)
          = filter (λ s, sortKey s = k) stations)
  ∧ (Sorted (in_order station_lt) stations → sortStationsById stations = stations).
Proof.
  split; [apply sortStationsById_Permutation | ].
  split.
  { change (StronglySorted (in_order station_lt) (sortStationsById stations)).
    apply Sorted_StronglySorted; [apply station_le_trans | ].
    apply Array_sort_Sorted, station_lt_asym. }
  split; [ | apply Array_sort_fixed].
  intros k. unfold sortStationsById.
  induction stations as [|x l IH]; [done | ].
  change (Array_sort station_lt (x :: l))
    with (sort_insert station_lt x (Array_sort station_lt l)).
  rewrite sort_insert_filter_key.
  destruct (decide (sortKey x = k)) as [Hx | Hx].
  - rewrite !(filter_cons_True _ x) by done. by rewrite IH.
  - rewrite !(filter_cons_False _ x) by done. exact IH.
Qed.

(** ** Parsing a timestamp *)



(** ** Normalisation *)
Section NormalizedRecords.
Context (txt : text_ops).

Lemma or_null_nonempty v : or_null v ≠ Some "".
Proof.
  unfold or_null. destruct v as [s|]; [ | done].
  destruct (String.eqb s "") eqn:E; [done | ].
  intros [= ->]. done.
Qed.

Lemma normalizeServiceType_nonempty v : normalizeServiceType txt v ≠ Some "".
Proof.
  unfold normalizeServiceType. destruct (opt_trim txt _) as [s|] eqn:E; [ | done].
  destruct (String.eqb s "halka_acik"); [done | apply or_null_nonempty].
Qed.

Lemma json_of_string_nonempty v : v ≠ Some "" → json_of_string v ≠ JStr "".
Proof. destruct v as [s|]; [ | done]. simpl. intros H [= ->]. done. Qed.

(** X25.  The normalised record of a detail payload.  [normalizeStationData]
    returns [null] exactly for a payload without a usable id.  Otherwise the
    record has the fifteen properties of the output, its id is the payload's
    id read as an integer, the properties [phone], [reportUrl],
    [reservationUrl], [operatorId], [serviceType], [brand], [cityId] and
    [districtId] are never the empty text (it is replaced by [null]), the
    service type [halka_acik] is written [public], and [sockets] holds the
    normalised sockets of the payload that have a usable id and no others. *)
Theorem normalized_record (d : raw_detail) :
  (normalizeStationData txt d = None ↔ truthy (d_id d) = false)
  ∧ (∀ o, normalizeStationData txt d = Some o →
          field_names o = outputProperties
          ∧ get_field "id" o = Some (json_of_parsed_int (parseInt (d_id d)))
          ∧ (∀ k, k ∈ nullableProperties → get_field k o ≠ Some (JStr ""))
          ∧ (opt_trim txt (str_toLowerCase txt <$> d_serviceType d) = Some "halka_acik" →
             get_field "serviceType" o = Some (JStr "public"))
          ∧ ∃ sockets,
              get_field "sockets" o = Some (JArr sockets)
              ∧ sockets ≡ₚ omap (normalizeSocket txt) (default [] (d_sockets d))
              ∧ (length sockets
                 = length (filter (λ socket, truthy (rs_id socket) = true)
                             (default [] (d_sockets d))))%nat).
Proof.
  unfold normalizeStationData. destruct (truthy (d_id d)) eqn:Hid; cbn [negb].
  2:{ split; [done | ]. intros o [=]. }
  split; [done | ]. intros o [= <-].
  split; [done | ]. split; [done | ].
  split.
  { intros k Hk. unfold nullableProperties in Hk.
    repeat (apply elem_of_cons in Hk as [-> | Hk]); cbn;
      try (intros [= H]; revert H;
           apply json_of_string_nonempty;
           first [apply or_null_nonempty | apply normalizeServiceType_nonempty]).
    by apply elem_of_nil in Hk. }
  split.
  { intros Hst. cbn. unfold normalizeServiceType. by rewrite Hst. }
  eexists. split; [reflexivity | ].
  assert (Hlen : ∀ l : list raw_socket,
            length (omap (normalizeSocket txt) l)
            = length (filter (λ socket, truthy (rs_id socket) = true) l)).
  { induction l as [|s l IH]; [done | ]. cbn [omap list_omap].
    unfold normalizeSocket at 1. destruct (truthy (rs_id s)) eqn:Hs; cbn [negb].
    - rewrite filter_cons_True by done. simpl. by rewrite <- IH.
    - rewrite filter_cons_False by (by rewrite Hs). exact IH. }
  destruct (d_sockets d) as [sockets|]; cbn [default from_option id].
  - split; [apply Array_sort_Permutation | ].
    rewrite Array_sort_length. apply Hlen.
  - done.
Qed.
End NormalizedRecords.

(** ** What is published comes from a healthy run *)
Section AliasSafety.
Context (cfg : config) (txt : text_ops).

Lemma updateLatestCompleteOutput_source w :
  latest_output (updateLatestCompleteOutput cfg w) = latest_output w
  ∨ ∃ f timestamp content,
      healthyRun cfg w f
      ∧ getTimestampFromFilename f = Some timestamp
      ∧ output_dir w !! outputFilename (Some timestamp) = Some content
      ∧ latest_output (updateLatestCompleteOutput cfg w) = Some content.
Proof.
  unfold updateLatestCompleteOutput.
  destruct (findLatestComplete cfg w (listStateFiles w)) as [f|] eqn:Hf; [ | by left].
  apply findLatestComplete_first in Hf as (Husable & newer & older & Hl & _).
  assert (Hin : f ∈ listStateFiles w).
  { rewrite Hl. apply elem_of_app. right. apply list_elem_of_here. }
  apply elem_of_listStateFiles in Hin as [Hname _].
  apply usableCompleteState_spec in Husable; [ | done].
  destruct (getTimestampFromFilename f) as [ts|] eqn:Hts; [ | by left].
  destruct (String.eqb ts ""); [by left | ].
  destruct (output_dir w !! outputFilename (Some ts)) as [content|] eqn:Ho; [ | by left].
  right. exists f, ts, content. done.
Qed.

(** X26.  [stations.json] only ever receives the output artifact of a
    healthy run.  After an invocation, whatever its outcome, the file is
    as it was before, or it is a copy of the output file that stood, when
    the work of the invocation was done, beside a state file of the history
    holding a complete array within the failure threshold. *)
Theorem alias_only_from_healthy_run (e : env) (w : world) :
  latest_output (final_world (main cfg txt e w)) = latest_output w
  ∨ ∃ f timestamp content,
      healthyRun cfg (worldBeforePublication cfg txt e w) f
      ∧ getTimestampFromFilename f = Some timestamp
      ∧ output_dir (worldBeforePublication cfg txt e w)
          !! outputFilename (Some timestamp) = Some content
      ∧ latest_output (final_world (main cfg txt e w)) = Some content.
Proof.
  rewrite main_final_world_publish. unfold publishAndCleanup.
  match goal with
  | |- context [cleanupOldFiles cfg ?x] =>
      destruct (cleanupOldFiles_only_deletes cfg x) as (-> & _)
  end.
  destruct (_ =? 0).
  - destruct (updateLatestCompleteOutput_source (worldBeforePublication cfg txt e w))
      as [H | H].
    + left. rewrite H. apply worldBeforePublication_latest_output.
    + by right.
  - left. apply worldBeforePublication_latest_output.
Qed.
End AliasSafety.

(** ** What rotation never deletes *)
Section RotationSafety.
Context (cfg : config).



End RotationSafety.

(** ** Lower camel case *)

Lemma split_words_nonempty s in_run : split_words s in_run ≠ [].
Proof.
  revert in_run. induction s as [|c s IH]; intros in_run; simpl; [done | ].
  destruct (is_word_separator c).
  - destruct in_run; [apply IH | done].
  - by destruct (split_words s false).
Qed.

Lemma join_words_capitalized (words : list string) (n : nat) :
  join_words (imap (λ index word, if (S n + index =? 0)%nat then word
                                  else capitalize word) words)
  = join_words (map capitalize words).
Proof.
  f_equal. change (map capitalize words) with (capitalize <$> words).
  rewrite <- imap_const. by apply imap_ext.
Qed.

Lemma join_words_camel (w : string) (words : list string) :
  join_words (imap (λ index word, if (index =? 0)%nat then word else capitalize word)
                (w :: words))
  = w +:+ join_words (map capitalize words).
Proof.
  rewrite imap_cons. simpl. f_equal. by rewrite <- (join_words_capitalized words 0).
Qed.

Lemma split_words_camel s :
  (∀ w words, split_words s false = w :: words →
       w +:+ join_words (map capitalize words) = camelCaseFrom s false
       ∧ capitalize w +:+ join_words (map capitalize words) = camelCaseFrom s true)
  ∧ join_words (map capitalize (split_words s true)) = camelCaseFrom s true.
Proof.
  induction s as [|c s [IH1 IH2]].
  - split; [ | done]. by intros w words [= <- <-].
  - simpl. destruct (is_word_separator c) eqn:Hc.
    + split; [ | done]. intros w words [= <- <-]. by rewrite IH2.
    + destruct (split_words s false) as [|w0 words0] eqn:E.
      { by apply split_words_nonempty in E. }
      destruct (IH1 w0 words0 eq_refl) as [Hlow _].
      split.
      * intros w words [= <- <-]. simpl. rewrite !append_cons. by rewrite Hlow.
      * simpl. rewrite append_cons. by rewrite Hlow.
Qed.

Lemma lowerCamelCase_camelCaseFrom s :
  lowerCamelCase s = camelCaseFrom (String_toLowerCase s) false.
Proof.
  unfold lowerCamelCase.
  destruct (split_words (String_toLowerCase s) false) as [|w words] eqn:E.
  { by apply split_words_nonempty in E. }
  rewrite join_words_camel.
  by destruct (proj1 (split_words_camel (String_toLowerCase s)) w words E).
Qed.

Lemma ascii_cases (P : ascii → Prop) :
  (∀ n, (n < 256)%nat → P (ascii_of_nat n)) → ∀ c, P c.
Proof.
  intros H c. rewrite <- (ascii_nat_embedding c). apply H. apply nat_ascii_bounded.
Qed.

Lemma forallb_ascii (p : ascii → bool) :
  forallb (λ n, p (ascii_of_nat n)) (seq 0 256) = true → ∀ c, p c = true.
Proof.
  intros H. apply ascii_cases. intros n Hn.
  rewrite forallb_forall in H. apply H, in_seq. lia.
Qed.

Lemma is_word_separator_upper c :
  is_word_separator (ascii_toUpperCase c) = is_word_separator c.
Proof.
  pose proof (forallb_ascii
                (λ c, Bool.eqb (is_word_separator (ascii_toUpperCase c))
                        (is_word_separator c))
                ltac:(vm_compute; reflexivity) c) as H.
  by apply Bool.eqb_prop in H.
Qed.

Lemma is_word_separator_lower c :
  is_word_separator (ascii_toLowerCase c) = is_word_separator c.
Proof.
  pose proof (forallb_ascii
                (λ c, Bool.eqb (is_word_separator (ascii_toLowerCase c))
                        (is_word_separator c))
                ltac:(vm_compute; reflexivity) c) as H.
  by apply Bool.eqb_prop in H.
Qed.

Lemma ascii_lower_upper c :
  ascii_toLowerCase (ascii_toUpperCase c) = ascii_toLowerCase c.
Proof.
  pose proof (forallb_ascii
                (λ c, Ascii.eqb (ascii_toLowerCase (ascii_toUpperCase c))
                        (ascii_toLowerCase c))
                ltac:(vm_compute; reflexivity) c) as H.
  by apply Ascii.eqb_eq in H.
Qed.

Lemma ascii_lower_lower c :
  ascii_toLowerCase (ascii_toLowerCase c) = ascii_toLowerCase c.
Proof.
  pose proof (forallb_ascii
                (λ c, Ascii.eqb (ascii_toLowerCase (ascii_toLowerCase c))
                        (ascii_toLowerCase c))
                ltac:(vm_compute; reflexivity) c) as H.
  by apply Ascii.eqb_eq in H.
Qed.

Lemma camelCaseFrom_no_separator s after c :
  c ∈ list_ascii_of_string (camelCaseFrom s after) → is_word_separator c = false.
Proof.
  revert after. induction s as [|x s IH]; intros after; simpl.
  - by intros ?%elem_of_nil.
  - destruct (is_word_separator x) eqn:Hx; [apply IH | ].
    simpl. intros [-> | Hc]%elem_of_cons; [ | by apply (IH false)].
    destruct after; [by rewrite is_word_separator_upper | done].
Qed.

Lemma camelCaseFrom_letters s after :
  String_toLowerCase (camelCaseFrom s after)
  = remove_separators (String_toLowerCase s).
Proof.
  revert after. induction s as [|x s IH]; intros after; simpl; [done | ].
  rewrite is_word_separator_lower.
  destruct (is_word_separator x); [apply IH | ].
  simpl. rewrite (IH false). f_equal.
  destruct after; [apply ascii_lower_upper | done].
Qed.

Lemma camelCaseFrom_no_words s :
  (∀ c, c ∈ list_ascii_of_string s → is_word_separator c = false) →
  camelCaseFrom s false = s.
Proof.
  induction s as [|x s IH]; intros Hs; simpl; [done | ].
  rewrite (Hs x) by (simpl; apply list_elem_of_here).
  rewrite IH; [done | ]. intros c Hc. apply Hs. simpl. by apply list_elem_of_further.
Qed.

Lemma String_toLowerCase_idemp s :
  String_toLowerCase (String_toLowerCase s) = String_toLowerCase s.
Proof.
  induction s as [|x s IH]; simpl; [done | ]. by rewrite ascii_lower_lower, IH.
Qed.

Lemma elem_of_String_toLowerCase s c :
  c ∈ list_ascii_of_string (String_toLowerCase s) →
  ∃ x, x ∈ list_ascii_of_string s ∧ c = ascii_toLowerCase x.
Proof.
  induction s as [|x s IH]; simpl; [by intros ?%elem_of_nil | ].
  intros [-> | Hc]%elem_of_cons.
  - exists x. split; [apply list_elem_of_here | done].
  - destruct (IH Hc) as (y & Hy & ->). exists y.
    split; [by apply list_elem_of_further | done].
Qed.

(** X28.  [toLowerCamelCase] on ASCII text.  For a non-empty text of ASCII
    characters, with the body of the function as the script writes it
    (lower case, split at the runs of [-], [_] and space, capitalise every
    word but the first, join): the result holds none of the three
    separators; apart from the case of letters it is the text without its
    separators; it is the text character by character with the separators
    dropped and exactly the first character after each run of separators
    in upper case; and a text without separators is only put in lower
    case. *)
Theorem toLowerCamelCase_ascii (txt : text_ops) (s : string) :
  is_ascii s →
  s ≠ "" →
  str_lowerCamelCase txt s = lowerCamelCase s →
  ∃ r,
    toLowerCamelCase txt (Some s) = Some r
    ∧ r = camelCaseFrom (String_toLowerCase s) false
    ∧ (∀ c, c ∈ list_ascii_of_string r → is_word_separator c = false)
    ∧ String_toLowerCase r = remove_separators (String_toLowerCase s)
    ∧ ((∀ c, c ∈ list_ascii_of_string s → is_word_separator c = false) →
       r = String_toLowerCase s).
Proof.
  intros _ Hne Hbody. exists (lowerCamelCase s).
  split.
  { unfold toLowerCamelCase, or_null.
    rewrite (proj2 (String.eqb_neq _ _) Hne). by rewrite Hbody. }
  rewrite lowerCamelCase_camelCaseFrom. split; [done | ].
  split; [intros c; apply camelCaseFrom_no_separator | ].
  split; [by rewrite camelCaseFrom_letters, String_toLowerCase_idemp | ].
  intros Hs. apply camelCaseFrom_no_words.
  intros c (x & Hx & ->)%elem_of_String_toLowerCase.
  rewrite is_word_separator_lower. by apply Hs.
Qed.

(** The sub-type [AC_TYPE2] of a socket is written [acType2]. *)
Lemma toLowerCamelCase_ascii_witness :
  (∃ r,
     toLowerCamelCase ascii_text (Some "AC_TYPE2") = Some r
     ∧ r = camelCaseFrom (String_toLowerCase "AC_TYPE2") false
     ∧ (∀ c, c ∈ list_ascii_of_string r → is_word_separator c = false)
     ∧ String_toLowerCase r = remove_separators (String_toLowerCase "AC_TYPE2")
     ∧ ((∀ c, c ∈ list_ascii_of_string "AC_TYPE2" → is_word_separator c = false) →
        r = String_toLowerCase "AC_TYPE2"))
  ∧ lowerCamelCase "AC_TYPE2" = "acType2".
Proof.
  split; [ | reflexivity].
  apply (toLowerCamelCase_ascii ascii_text "AC_TYPE2").
  - unfold is_ascii. apply (bool_decide_unpack _). vm_compute. exact I.
  - discriminate.
  - reflexivity.
Defined.

(** ** The fetch summary *)
Section Summary.
Context (cfg : config).

Lemma length_filter_cons (P : station → Prop) `{∀ x, Decision (P x)} s l :
  length (filter P (s :: l))
  = ((if decide (P s) then 1 else 0) + length (filter P l))%nat.
Proof.
  destruct (decide (P s)); [by rewrite filter_cons_True | by rewrite filter_cons_False].
Qed.

(** X29.  The counts of the fetch summary add up.  Every station is counted
    in exactly one of the four groups (fetched, pending, to be retried,
    permanently failed); the pending and the retryable ones together are
    the stations the next invocation will work on; and the array is
    complete exactly when both counts are zero. *)
Theorem fetch_summary_adds_up (currentStations : list station) :
  (successCount (fetchSummary cfg currentStations)
   + pendingCount (fetchSummary cfg currentStations)
   + retryableCount (fetchSummary cfg currentStations)
   + permanentlyFailedCount (fetchSummary cfg currentStations)
   = totalStations (fetchSummary cfg currentStations))%nat
  ∧ (pendingCount (fetchSummary cfg currentStations)
     + retryableCount (fetchSummary cfg currentStations)
     = length (filter (λ s, needsFetch cfg s = true) currentStations))%nat
  ∧ (isStateComplete cfg currentStations = true
     ↔ pendingCount (fetchSummary cfg currentStations) = 0%nat
       ∧ retryableCount (fetchSummary cfg currentStations) = 0%nat).
Proof.
  assert (Hsum :
    (length (filter (λ s, fetchStatus s = success) currentStations)
     + length (filter (λ s, fetchStatus s = pending) currentStations)
     + length (filter (λ s, fetchStatus s = failed
                            ∧ (fetchAttempts s < MAX_RETRIES cfg)%nat) currentStations)
     + length (filter (λ s, permanentlyFailed cfg s = true) currentStations)
     = length currentStations)%nat
    ∧ (length (filter (λ s, fetchStatus s = pending) currentStations)
       + length (filter (λ s, fetchStatus s = failed
                              ∧ (fetchAttempts s < MAX_RETRIES cfg)%nat) currentStations)
       = length (filter (λ s, needsFetch cfg s = true) currentStations))%nat).
  { induction currentStations as [|s l [IH1 IH2]]; [done | ].
    rewrite !length_filter_cons. cbn [length].
    assert (Hs :
      ((if decide (fetchStatus s = success) then 1 else 0)
       + (if decide (fetchStatus s = pending) then 1 else 0)
       + (if decide (fetchStatus s = failed ∧ (fetchAttempts s < MAX_RETRIES cfg)%nat)
          then 1 else 0)
       + (if decide (permanentlyFailed cfg s = true) then 1 else 0) = 1)%nat
      ∧ ((if decide (fetchStatus s = pending) then 1 else 0)
         + (if decide (fetchStatus s = failed ∧ (fetchAttempts s < MAX_RETRIES cfg)%nat)
            then 1 else 0)
         = (if decide (needsFetch cfg s = true) then 1 else 0))%nat).
    { unfold permanentlyFailed, needsFetch.
      destruct (fetchStatus s); simpl;
        repeat match goal with
               | |- context [decide ?P] => destruct (decide P)
               end;
        try done; try (split; lia);
        repeat match goal with
               | H : _ ∧ _ |- _ => destruct H
               | H : (_ <=? _)%nat = true |- _ => apply Nat.leb_le in H
               | H : (_ <? _)%nat = true |- _ => apply Nat.ltb_lt in H
               | H : (_ <=? _)%nat ≠ true |- _ => apply not_true_is_false, Nat.leb_gt in H
               | H : (_ <? _)%nat ≠ true |- _ => apply not_true_is_false, Nat.ltb_ge in H
               | H : ¬ (_ ∧ _) |- _ => apply not_and_l in H as [? | ?]
               end; try done; try lia. }
    destruct Hs as [Hs1 Hs2]. split; lia. }
  destruct Hsum as [Hsum Hwork]. unfold fetchSummary, countPermanentlyFailedStations.
  cbn [successCount pendingCount retryableCount permanentlyFailedCount totalStations].
  split; [exact Hsum | ]. split; [exact Hwork | ].
  rewrite isStateComplete_Forall. split.
  - intros Hall.
    assert (Hnil : filter (λ s, needsFetch cfg s = true) currentStations = []).
    { apply filter_none. eapply Forall_impl; [exact Hall | ].
      intros s Hs. by rewrite Hs. }
    rewrite Hnil in Hwork. simpl in Hwork. lia.
  - intros [Hp Hr]. rewrite Hp, Hr in Hwork. simpl in Hwork.
    symmetry in Hwork. apply length_zero_iff_nil in Hwork.
    apply Forall_forall. intros s Hs. apply not_true_is_false. intros Hneeds.
    assert (Hin : s ∈ filter (λ s, needsFetch cfg s = true) currentStations)
      by (by apply list_elem_of_filter).
    rewrite Hwork in Hin. by apply elem_of_nil in Hin.
Qed.
End Summary.

(** ** A first run with a healthy service *)
Section HealthyFirstRun.
Context (cfg : config) (txt : text_ops).

Lemma main_new_run e w st :
  determineRunState cfg e w = StartNewRun →
  fetchStationList e = Some st →
  currentStations (main cfg txt e w)
  = Some (processAndEvaluate cfg txt e true (sortStationsById st)
            (stateFilename (generateTimestamp (now_at_new_run e)))
            (outputFilename (Some (generateTimestamp (now_at_new_run e))))
            (saveState txt st
               (stateFilename (generateTimestamp (now_at_new_run e)))
               (outputFilename (Some (generateTimestamp (now_at_new_run e)))) w).2).1.2.
Proof.
  intros Hsel Hst. unfold main. rewrite Hsel, Hst.
  set (sp := stateFilename _). set (op := outputFilename _).
  pose proof (saveState_stations txt sp op st w) as Hst1.
  destruct (saveState txt st sp op w) as [st1 w1]. cbn [fst snd] in *. subst st1.
  by destruct (processAndEvaluate cfg txt e true _ sp op w1) as [[code st'] w'].
Qed.

Lemma processAndEvaluate_stations e startNewRun stations sp op w :
  (processAndEvaluate cfg txt e startNewRun stations sp op w).1.2
  = if isStateComplete cfg stations
    then (if startNewRun then stations else sortStationsById stations)
    else lp_stations (processStations cfg txt e stations sp op w).
Proof.
  unfold processAndEvaluate.
  destruct (isStateComplete cfg stations); cbn [negb]; [ | done].
  by destruct startNewRun.
Qed.

Lemma permanentFailureRatio_succeeded stations :
  Forall (λ s, fetchStatus s = success) stations →
  (permanentFailureRatio cfg stations * 100 == 0)%Q.
Proof.
  intros Hall. unfold permanentFailureRatio.
  destruct (length stations) eqn:E; [done | ].
  rewrite filter_none; [done | ].
  eapply Forall_impl; [exact Hall | ]. intros s Hs [Hf _]. congruence.
Qed.

Lemma pending_needsFetch s : fetchStatus s = pending → needsFetch cfg s = true.
Proof. intros H. unfold needsFetch. by rewrite H. Qed.

(** All stations pending, distinct usable ids, enough budget and a healthy
    service: every station ends fetched at its first attempt. *)
Lemma processStations_all_pending e stations sp op w :
  Forall (λ s, fetchStatus s = pending ∧ fetchAttempts s = 0%nat) stations →
  NoDup (map st_id stations) →
  Forall (λ s, truthy (st_id s) = true) stations →
  (length stations ≤ MAX_REQUESTS_PER_RUN cfg)%nat →
  (∀ j, (j < length stations)%nat →
        now_at_time_check e j - scriptStartTime e < MAX_DURATION_MS cfg) →
  (∀ j s, s ∈ stations →
          ∃ d, detail_responses e j (st_id s) = RespBody (Some d)
               ∧ truthy (d_id d) = true) →
  Forall (λ s, fetchStatus s = success ∧ fetchAttempts s = 1%nat)
    (lp_stations (processStations cfg txt e stations sp op w)).
Proof.
  intros Hpending Hnd Hid Hbudget Htime Hresp.
  assert (Hel : filter (λ s, needsFetch cfg s = true) stations = stations).
  { apply filter_all. eapply Forall_impl; [exact Hpending | ].
    intros s [Hs _]. by apply pending_needsFetch. }
  assert (Hset : filter (λ s, ¬ needsFetch cfg s = true) stations = []).
  { apply filter_none. eapply Forall_impl; [exact Hpending | ].
    intros s [Hs _] Hn. by apply Hn, pending_needsFetch. }
  destruct (processStations_trace cfg txt e sp op stations w (length stations))
    as [Hperm _]; rewrite ?Hel, ?take_ge; try done; try lia.
  rewrite Hel, Hset in Hperm. rewrite (take_ge stations) in Hperm by done.
  rewrite firstn_all, drop_all in Hperm. rewrite (drop_ge stations) in Hperm by done.
  rewrite !app_nil_r in Hperm. rewrite Hperm.
  apply Forall_forall. intros s' (j & s & -> & Hj)%elem_of_lookup_imap.
  apply list_elem_of_lookup_2 in Hj.
  rewrite Forall_forall in Hid, Hpending. rewrite (Hid s Hj).
  split; [by apply attemptAt_success, Hresp | ].
  destruct (recordAttempt_received (now_after_fetch e j) (fetchStationDetails e j s) s)
    as (_ & Hn & _).
  unfold attemptAt. rewrite Hn. by destruct (Hpending s Hj) as [_ ->].
Qed.

(** X30.  A first run with a healthy service publishes every listed
    station.  When the invocation starts a new run, the listing holds
    stations with distinct usable ids, no more than [MAX_REQUESTS_PER_RUN],
    no time check finds the budget used up, every detail request is
    answered with an object that has a usable id, and the name of the new
    state file sorts after those of the history, then the invocation exits
    with status 0, the array it ends with holds exactly the listed
    stations, each fetched at its first attempt, and [stations.json] is the
    projection of that array.  (The threshold is not negative and the state
    directory holds no entry [data_.json].) *)
Theorem healthy_first_run (e : env) (w : world) (listing : list listed_station) :
  state_dir w !! stateFilename "" = None →
  (0 <= PERMANENT_FAILURE_THRESHOLD_PERCENT cfg)%Q →
  determineRunState cfg e w = StartNewRun →
  listing_response e = Some listing →
  NoDup (map l_id listing) →
  Forall (λ l, truthy (l_id l) = true) listing →
  (length listing ≤ MAX_REQUESTS_PER_RUN cfg)%nat →
  (∀ j, (j < length listing)%nat →
        now_at_time_check e j - scriptStartTime e < MAX_DURATION_MS cfg) →
  (∀ j l, l ∈ listing →
          ∃ d, detail_responses e j (l_id l) = RespBody (Some d)
               ∧ truthy (d_id d) = true) →
  (∀ g, g ∈ listStateFiles w →
        localeCompare g (stateFilename (generateTimestamp (now_at_new_run e))) ≠ Gt) →
  ∃ stations,
    currentStations (main cfg txt e w) = Some stations
    ∧ exitCode (main cfg txt e w) = 0
    ∧ Forall (λ s, fetchStatus s = success ∧ fetchAttempts s = 1%nat) stations
    ∧ map listingPart stations ≡ₚ map listedPart listing
    ∧ latest_output (final_world (main cfg txt e w)) = Some (artifactOf txt stations).
Proof.
  intros Hnone Hth Hsel Hl Hnd Hid Hbudget Htime Hresp Hnewest.
  destruct (fetchStationList_listing e listing Hl) as (st & Hst & Hparts & _).
  pose proof (fetchStationList_fresh e st Hst) as Hfresh.
  pose proof (main_new_run e w st Hsel Hst) as Hcur.
  set (sp := stateFilename (generateTimestamp (now_at_new_run e))) in *.
  set (op := outputFilename (Some (generateTimestamp (now_at_new_run e)))) in *.
  set (w1 := (saveState txt st sp op w).2) in *.
  set (final := (processAndEvaluate cfg txt e true (sortStationsById st) sp op w1).1.2)
    in *.
  assert (Hids : map st_id (sortStationsById st) ≡ₚ map l_id listing).
  { rewrite sortStationsById_Permutation, map_st_id_listingPart, Hparts.
    rewrite map_map. simpl. by rewrite Array_sort_Permutation. }
  assert (Hlisted : ∀ s, s ∈ sortStationsById st →
                         ∃ l, l ∈ listing ∧ l_id l = st_id s).
  { intros s Hs.
    assert (Hin : st_id s ∈ map l_id listing).
    { rewrite <- Hids. apply list_elem_of_fmap. eauto. }
    apply list_elem_of_fmap in Hin as (l & -> & Hin). eauto. }
  assert (Hlen : length (sortStationsById st) = length listing).
  { rewrite <- (length_map st_id), Hids. apply length_map. }
  assert (Hpending : Forall (λ s, fetchStatus s = pending ∧ fetchAttempts s = 0%nat)
                       (sortStationsById st)).
  { rewrite sortStationsById_Permutation. eapply Forall_impl; [exact Hfresh | ].
    intros s (? & ? & _). done. }
  assert (Hfinal : Forall (λ s, fetchStatus s = success ∧ fetchAttempts s = 1%nat) final).
  { subst final. rewrite processAndEvaluate_stations.
    destruct (isStateComplete cfg (sortStationsById st)) eqn:Hc.
    - destruct (sortStationsById st) as [|s l]; [done | ].
      apply isStateComplete_Forall, Forall_cons in Hc as [Hs _].
      apply Forall_cons in Hpending as [[Hp _] _].
      apply pending_needsFetch in Hp. congruence.
    - apply processStations_all_pending; try done.
      + by rewrite Hids.
      + apply Forall_forall. intros s Hs. destruct (Hlisted s Hs) as (l & Hin & <-).
        rewrite Forall_forall in Hid. by apply Hid.
      + by rewrite Hlen.
      + rewrite Hlen. exact Htime.
      + intros j s Hs. destruct (Hlisted s Hs) as (l & Hin & <-). by apply Hresp. }
  assert (Hcomplete : isRunComplete cfg final).
  { intros s Hs. apply settled_iff_not_eligible. left.
    rewrite Forall_forall in Hfinal. by apply Hfinal. }
  assert (Hratio : (permanentFailureRatio cfg final * 100
                    <= PERMANENT_FAILURE_THRESHOLD_PERCENT cfg)%Q).
  { rewrite permanentFailureRatio_succeeded; [done | ].
    eapply Forall_impl; [exact Hfinal | ]. by intros s [? _]. }
  assert (Hexit : exitCode (main cfg txt e w) = 0).
  { rewrite (main_exitCode cfg txt e w final Hcur).
    by apply thresholdExitCode_healthy. }
  exists final. split; [done | ]. split; [done | ]. split; [done | ].
  split.
  { subst final. rewrite processAndEvaluate_listingPart.
    rewrite sortStationsById_Permutation, Hparts. by rewrite Array_sort_Permutation. }
  rewrite (main_final_world cfg txt e w Hexit).
  destruct (cleanupOldFiles_only_deletes cfg
              (updateLatestCompleteOutput cfg (worldBeforePublication cfg txt e w)))
    as (-> & _).
  destruct (main_run_persisted cfg txt e w final Hcur) as (sp' & op' & Hw & _ & Hnames).
  { intros loaded. by rewrite Hsel. }
  destruct (run_names cfg e w sp' op' Hnone Hnames (λ _, Hnewest))
    as (ts & -> & Hne & -> & Hfirst).
  by apply (updateLatestCompleteOutput_persisted cfg txt w _ ts final).
Qed.
End HealthyFirstRun.

Lemma healthy_first_run_witness :
  ∃ stations,
    currentStations (main default_config plain_text healthy_listing_env empty_world)
    = Some stations
    ∧ exitCode (main default_config plain_text healthy_listing_env empty_world) = 0
    ∧ Forall (λ s, fetchStatus s = success ∧ fetchAttempts s = 1%nat) stations
    ∧ map listingPart stations ≡ₚ map listedPart two_listed
    ∧ latest_output
        (final_world (main default_config plain_text healthy_listing_env empty_world))
      = Some (artifactOf plain_text stations).
Proof.
  apply (healthy_first_run default_config plain_text healthy_listing_env empty_world
           two_listed).
  - reflexivity.
  - vm_compute. discriminate.
  - reflexivity.
  - reflexivity.
  - apply (bool_decide_unpack _). vm_compute. exact I.
  - repeat constructor.
  - vm_compute. lia.
  - intros j _. vm_compute. reflexivity.
  - intros j l Hl. eexists. split; [reflexivity | ]. unfold two_listed in Hl.
    repeat (apply elem_of_cons in Hl as [-> | Hl]); try reflexivity.
    by apply elem_of_nil in Hl.
  - intros g Hg. vm_compute in Hg. by apply elem_of_nil in Hg.
Defined.
